(** * Tensor core of tensor_networks (src/tensor.c): model and verification

    The development embeds the functions of [tensor.c] as Rocq functions in a
    small error monad and proves the index algebra of the generalized
    transpose, the contraction dispatch, the Kronecker product, the identity
    fill and the trace, together with the ownership behaviour of move and
    delete.  A last part covers allocation, copy, conjugation, reshape and
    sub-tensor extraction, the arguments on which the operations abort, and
    how the operations compose.

    Conventions of the embedding:
    - [size_t] is a 64-bit unsigned integer: a [Z] reduced modulo [2^64]
      after every arithmetic operation ([wrap]);
    - [int] is a 32-bit signed integer; the cast [(int)x] of a [size_t] is
      [to_int] (reduction modulo [2^32] into the signed range);
    - an array read or write outside its bounds, the use of a null or freed
      pointer and a signed overflow are [Fault]; a failed [assert] is
      [Abort];
    - the allocators grant every request: a run in which an allocation fails,
      where AllocateTensor aborts at its assert on the data pointer, is
      outside the model, and what is proved of a function that allocates
      holds for the runs in which its allocations succeed;
    - [double complex] is an abstract type of scalars with [0], [1], [+] and
      [*]; results that depend on the arithmetic are proved under the
      assumption that these form a commutative semiring (exact arithmetic,
      rounding is not modelled). *)

From Stdlib Require Import ZArith Lia Ring_theory.
From stdpp Require Import base tactics numbers option list.

Local Open Scope Z_scope.

(** ** Outcomes of a call *)

Inductive result (A : Type) : Type :=
| Ok (a : A)     (* normal return *)
| Abort          (* an assert() failed *)
| Fault          (* undefined behaviour *)
| Timeout.       (* the loop fuel of the model ran out *)
Arguments Ok {A} a.
Arguments Abort {A}.
Arguments Fault {A}.
Arguments Timeout {A}.

Global Instance result_bind : MBind result := fun A B k m =>
  match m with
  | Ok a => k a
  | Abort => Abort
  | Fault => Fault
  | Timeout => Timeout
  end.
Global Instance result_ret : MRet result := fun A a => Ok a.

(** assert(b) *)
Definition assert (b : bool) : result unit := if b then Ok tt else Abort.

(** ** Machine integers *)

Definition SIZE_WIDTH : Z := 64.
Definition wrap (z : Z) : Z := z mod 2 ^ SIZE_WIDTH.

Definition INT_MAX : Z := 2 ^ 31 - 1.
Definition INT_MIN : Z := - 2 ^ 31.

(** The conversion of a [size_t] to [int]: the value itself when it fits,
    otherwise (implementation-defined, here as every mainstream compiler does)
    its residue modulo [2^32] in the signed range. *)
Definition to_int (z : Z) : Z := (z + 2 ^ 31) mod 2 ^ 32 - 2 ^ 31.

(** [int] arithmetic: signed overflow is undefined. *)
Definition int_chk (z : Z) : result Z :=
  if bool_decide (INT_MIN ≤ z ≤ INT_MAX) then Ok z else Fault.

(** ** Arrays and pointers *)

(** a[i] as an rvalue *)
Definition rd {A} (a : list A) (i : Z) : result A :=
  if bool_decide (0 ≤ i) then
    match a !! Z.to_nat i with
    | Some x => Ok x
    | None => Fault
    end
  else Fault.

(** a[i] = x *)
Definition wr {A} (a : list A) (i : Z) (x : A) : result (list A) :=
  if bool_decide (0 ≤ i < Z.of_nat (length a)) then Ok (<[Z.to_nat i := x]> a)
  else Fault.

(** A pointer owns its buffer (tensors never alias): it is null, or points to
    a live buffer, or is left dangling by a free. *)
Inductive ptr (A : Type) : Type :=
| NULL
| Live (buf : A)
| Dangling.
Arguments NULL {A}.
Arguments Live {A} buf.
Arguments Dangling {A}.

(** p == NULL *)
Definition is_null {A} (p : ptr A) : bool :=
  match p with
  | NULL => true
  | _ => false
  end.

Definition deref {A} (p : ptr A) : result A :=
  match p with
  | Live b => Ok b
  | _ => Fault
  end.

(** p[i] through a pointer *)
Definition rdp {A} (p : ptr (list A)) (i : Z) : result A :=
  a ← deref p; rd a i.

(** p + k, as a read-only view *)
Definition shift {A} (v : Z → result A) (k : Z) : Z → result A :=
  fun i => v (k + i).

(** for (i = lo; i < hi; i++) body, for a body without break or return *)
Fixpoint for_loop {St} (n : nat) (i : Z) (body : Z → St → result St) (s : St)
  : result St :=
  match n with
  | O => Ok s
  | S n' => s' ← body i s; for_loop n' (i + 1) body s'
  end.

Definition for_range {St} (lo hi : Z) (body : Z → St → result St) (s : St)
  : result St :=
  for_loop (Z.to_nat (hi - lo)) lo body s.

(** Modelled from the spec: [algn_malloc] of util.h, the aligned allocator
    (section 6: allocate).  A fresh buffer of [n] cells; they hold unspecified
    values, for which the model takes [fill].  Allocation failure is not
    modelled. *)
Definition algn_malloc {A} (fill : A) (n : Z) : list A :=
  replicate (Z.to_nat n) fill.

(** Modelled from the spec: [algn_calloc] of util.h (section 6: zeroed
    allocate).  A fresh buffer of [n] cells holding [zero].  As for
    [algn_malloc], the request is always granted: the pointer to the buffer
    is never null, whatever [n] is, so that every statement on a function that
    allocates holds for the runs in which the allocation succeeds. *)
Definition algn_calloc {A} (zero : A) (n : Z) : list A :=
  replicate (Z.to_nat n) zero.

(** Modelled from the spec: [algn_free] of util.h (section 6: free), with the
    conventions of C's free.  It returns the pointer afterwards and the number
    of live buffers handed back.  Freeing a null pointer does nothing; freeing
    twice is undefined. *)
Definition algn_free {A} (p : ptr A) : result (ptr A * nat) :=
  match p with
  | NULL => Ok (NULL, 0%nat)
  | Live _ => Ok (Dangling, 1%nat)
  | Dangling => Fault
  end.

(** ** Concrete scalars: Gaussian integers

    The complex numbers with integer parts form a commutative semiring on
    which the operations compute; the worked examples of the specification
    live there. *)

Definition Zi : Type := Z * Z.
Definition zi (re im : Z) : Zi := (re, im).
Definition zi_add (x y : Zi) : Zi := (x.1 + y.1, x.2 + y.2).
Definition zi_mul (x y : Zi) : Zi :=
  (x.1 * y.1 - x.2 * y.2, x.1 * y.2 + x.2 * y.1).
Definition zi_conj (x : Zi) : Zi := (x.1, - x.2).
(** a real factor, here an integer *)
Definition zi_scale (a : Z) (x : Zi) : Zi := (a * x.1, a * x.2).

Definition re (a : Z) : Zi := zi a 0.

(** two buffers of 2^31 entries, more than INT_MAX *)
Definition big_ones : list Zi := replicate (Z.to_nat (2 ^ 31)) (zi 1 0).
Definition big_zeros : list Zi := replicate (Z.to_nat (2 ^ 31)) (zi 0 0).

(** discharges [is_tensor] and [is_perm] on concrete tensors *)
Ltac concrete_tensor :=
  constructor; simpl;
  [reflexivity | unfold INT_MAX; lia | (reflexivity || (intros _; reflexivity))
  | reflexivity | repeat constructor; lia | reflexivity
  | unfold SIZE_WIDTH; vm_compute; reflexivity].

Ltac concrete_perm :=
  split; [reflexivity|split; [|repeat constructor; simpl; lia]];
  match goal with
  | |- NoDup ?l => apply (bool_decide_unpack (NoDup l)); vm_compute; exact I
  end.


Section Tensor.

(** Scalars: [double complex] *)
Context {C : Type}.
Context (c0 c1 : C) (cadd cmul : C → C → C).
(** Real factors: [double], acting on the scalars *)
Context {Rl : Type} (rscale : Rl → C → C).

Record tensor_t : Type := mk_tensor {
  ndim : Z;                 (* int ndim *)
  dim : ptr (list Z);       (* size_t *dim *)
  data : ptr (list C)       (* double complex *data *)
}.

(** Modelled from the spec: [IntProduct] of util.h, the product of the first
    [n] entries of [x] in [size_t] arithmetic (1 when [n <= 0]). *)
Definition IntProduct (x : Z → result Z) (n : Z) : result Z :=
  for_range 0 n (fun i prod => d ← x i; Ok (wrap (prod * d))) 1.

(** Modelled from the spec: [NumTensorElements] of tensor.h, the product of
    all extents; 1 for rank 0, where [dim] is not read. *)
Definition NumTensorElements (t : tensor_t) : result Z :=
  IntProduct (rdp (dim t)) (ndim t).

(** *** IndexToOffset *)
Definition IndexToOffset (nd : Z) (dm : Z → result Z) (index : Z → result Z)
  : result Z :=
  st ← for_range 0 nd
          (fun i '(offset, dimfac) =>
             x ← index i;
             d ← dm i;
             Ok (wrap (offset + wrap (dimfac * x)), wrap (dimfac * d)))
          (0, 1);
  Ok (fst st).

(** *** NextIndex

    [index] is a local array of the caller and [off] the position in it that
    the argument pointer designates ([index_t + 1] is [off = 1]). *)
Fixpoint NextIndex_loop (n : nat) (i : Z) (dm : Z → result Z) (off : Z)
    (index : list Z) : result (list Z) :=
  match n with
  | O => Ok index
  | S n' =>
      v ← rd index (off + i);
      let v' := wrap (v + 1) in
      index ← wr index (off + i) v';
      d ← dm i;
      if bool_decide (v' < d) then Ok index
      else
        index ← wr index (off + i) 0;
        NextIndex_loop n' (i + 1) dm off index
  end.

Definition NextIndex (nd : Z) (dm : Z → result Z) (off : Z) (index : list Z)
  : result (list Z) :=
  NextIndex_loop (Z.to_nat nd) 0 dm off index.

(** *** AllocateTensor

    The two asserts on [t->data] fire when [algn_calloc] returns a null
    pointer, which the allocator of the model never does. *)
Definition AllocateTensor (nd : Z) (dm : list Z) : result tensor_t :=
  assert (bool_decide (0 ≤ nd));;
  if bool_decide (0 < nd) then
    (* memcpy(t->dim, dim, ndim * sizeof(size_t)) *)
    (if bool_decide (nd ≤ Z.of_nat (length dm)) then Ok tt else Fault);;
    let tdim := take (Z.to_nat nd) dm in
    (* t->data is not set yet *)
    nelem ← NumTensorElements {| ndim := nd; dim := Live tdim; data := NULL |};
    (* dimensions must be strictly positive *)
    assert (bool_decide (0 < nelem));;
    let tdata := Live (algn_calloc c0 nelem) in
    assert (negb (is_null tdata));;
    Ok {| ndim := nd; dim := Live tdim; data := tdata |}
  else
    (* allocate memory for a single number *)
    let tdata := Live (algn_calloc c0 1) in
    assert (negb (is_null tdata));;
    Ok {| ndim := nd; dim := NULL; data := tdata |}.

(** *** DeleteTensor: the tensor afterwards and the number of live buffers
    released *)
Definition DeleteTensor (t : tensor_t) : result (tensor_t * nat) :=
  fd ← (if bool_decide (0 < ndim t) then algn_free (dim t)
         else Ok (dim t, 0%nat));
  fa ← algn_free (data t);
  Ok ({| ndim := 0; dim := fst fd; data := NULL |}, (snd fd + snd fa)%nat).

(** *** MoveTensorData: the pair (src, dst) afterwards *)
Definition MoveTensorData (src dst : tensor_t) : tensor_t * tensor_t :=
  let dst := {| ndim := ndim src; dim := dim dst; data := data dst |} in
  let dst := {| ndim := ndim dst; dim := dim src; data := data dst |} in
  let src := {| ndim := ndim src; dim := NULL; data := data src |} in
  let dst := {| ndim := ndim dst; dim := dim dst; data := data src |} in
  let src := {| ndim := ndim src; dim := dim src; data := NULL |} in
  (src, dst).

(** ** Dense kernels (linalg.h)

    The kernels are not part of the repository; they are modelled from
    section 6 of the specification, with the argument conventions of the
    reference BLAS.  Counts are [int]; vectors are passed with increment 1
    (the only increment tensor.c uses).  A kernel reads its operands only
    after the bounds are checked, so the reads inside are total ([at_]).
    Arguments outside a kernel's contract (negative extents, a leading
    dimension that is too small, a buffer that is too short) are [Fault]. *)

(** a[i], or 0 outside the array *)
Definition at_ (a : list C) (i : Z) : C := default c0 (a !! Z.to_nat i).

(** sum of [f 0], ..., [f (n-1)], accumulated from [0] in this order *)
Definition csum (n : Z) (f : Z → C) : C :=
  foldl (fun acc k => cadd acc (f k)) c0 (seqZ 0 n).

(** the buffer [a] has at least [n] cells *)
Definition holds_ (a : list C) (n : Z) : bool :=
  bool_decide (n ≤ Z.of_nat (length a)).

(** [upd_prefix n f y]: cells [0 .. n-1] of [y] become [f i], the others stay *)
Definition upd_prefix (n : Z) (f : Z → C) (y : list C) : list C :=
  (f <$> seqZ 0 n) ++ drop (Z.to_nat n) y.

(** Modelled from the spec: the AXPY kernel, y <- alpha x + y on the first
    [n] entries; nothing is done when [n <= 0]. *)
Definition cblas_zaxpy (n : Z) (alpha : C) (x y : list C) : result (list C) :=
  if bool_decide (n ≤ 0) then Ok y
  else if holds_ x n && holds_ y n then
    Ok (upd_prefix n (fun i => cadd (cmul alpha (at_ x i)) (at_ y i)) y)
  else Fault.

(** Modelled from the spec: the real scalar scale kernel, x <- alpha x on the
    first [n] entries; nothing is done when [n <= 0]. *)
Definition cblas_zdscal (n : Z) (alpha : Rl) (x : list C) : result (list C) :=
  if bool_decide (n ≤ 0) then Ok x
  else if holds_ x n then Ok (upd_prefix n (fun i => rscale alpha (at_ x i)) x)
  else Fault.

(** Modelled from the spec: the unconjugated dot kernel, the sum of
    x[i] * y[i] over the first [n] entries; 0 when [n <= 0]. *)
Definition cblas_zdotu_sub (n : Z) (x y : list C) : result C :=
  if bool_decide (n ≤ 0) then Ok c0
  else if holds_ x n && holds_ y n then
    Ok (csum n (fun i => cmul (at_ x i) (at_ y i)))
  else Fault.

(** Modelled from the spec: the matrix-vector kernel in its no-transpose and
    transpose modes, y <- alpha op(A) x + beta y, where A is an m x n
    column-major matrix with leading dimension lda and op(A) = A^T when
    [trans]. *)
Definition cblas_zgemv (trans : bool) (m n : Z) (alpha : C) (a : list C)
    (lda : Z) (x : list C) (beta : C) (y : list C) : result (list C) :=
  if bool_decide (m < 0 ∨ n < 0 ∨ lda < Z.max 1 m) then Fault
  else if bool_decide (m = 0 ∨ n = 0) then Ok y
  else
    let lenx := if trans then m else n in
    let leny := if trans then n else m in
    if holds_ a (lda * (n - 1) + m) && holds_ x lenx && holds_ y leny then
      Ok (upd_prefix leny
            (fun i =>
               cadd (cmul alpha
                       (csum lenx (fun j =>
                          cmul (at_ a (if trans then j + lda * i
                                       else i + lda * j))
                               (at_ x j))))
                    (cmul beta (at_ y i)))
            y)
    else Fault.

(** [upd_block m n ld f c]: the cells [i + ld j] with [i < m], [j < n] of the
    column-major array [c] become [f i j (old value)], the others stay *)
Definition upd_block (m n ld : Z) (f : Z → Z → C → C) (c : list C) : list C :=
  (fun o =>
     let i := o mod ld in
     let j := o / ld in
     if bool_decide (i < m ∧ j < n) then f i j (at_ c o) else at_ c o)
  <$> seqZ 0 (Z.of_nat (length c)).

(** Modelled from the spec: the matrix-matrix kernel with no transposition,
    C <- alpha A B + beta C, where A is m x k, B is k x n and C is m x n,
    all column-major. *)
Definition cblas_zgemm (m n k : Z) (alpha : C) (a : list C) (lda : Z)
    (b : list C) (ldb : Z) (beta : C) (c : list C) (ldc : Z)
  : result (list C) :=
  if bool_decide (m < 0 ∨ n < 0 ∨ k < 0 ∨ lda < Z.max 1 m ∨ ldb < Z.max 1 k
                  ∨ ldc < Z.max 1 m) then Fault
  else if bool_decide (m = 0 ∨ n = 0) then Ok c
  else if holds_ a (lda * (k - 1) + m) && holds_ b (ldb * (n - 1) + k)
          && holds_ c (ldc * (n - 1) + m) then
    Ok (upd_block m n ldc
          (fun i j old =>
             cadd (cmul alpha
                     (csum k (fun l =>
                        cmul (at_ a (i + lda * l)) (at_ b (l + ldb * j)))))
                  (cmul beta old))
          c)
  else Fault.

(** Modelled from the spec: the rank-1 update kernel, A <- alpha x y^T + A,
    where A is an m x n column-major matrix with leading dimension lda. *)
Definition cblas_zgeru (m n : Z) (alpha : C) (x y : list C) (a : list C)
    (lda : Z) : result (list C) :=
  if bool_decide (m < 0 ∨ n < 0 ∨ lda < Z.max 1 m) then Fault
  else if bool_decide (m = 0 ∨ n = 0) then Ok a
  else if holds_ x m && holds_ y n && holds_ a (lda * (n - 1) + m) then
    Ok (upd_block m n lda
          (fun i j old => cadd (cmul alpha (cmul (at_ x i) (at_ y j))) old)
          a)
  else Fault.

(** sizeof(double complex) *)
Definition SIZEOF_COMPLEX : Z := 16.

(** memset(p, 0, bytes) on an array of scalars *)
Definition memset_zero (a : list C) (bytes : Z) : result (list C) :=
  let n := bytes / SIZEOF_COMPLEX in
  if holds_ a n then Ok (upd_prefix n (fun _ => c0) a) else Fault.

(** ** The functions of tensor.c, continued *)

(** *** IdentityTensor *)
Definition IdentityTensor (t : tensor_t) : result tensor_t :=
  assert (bool_decide (1 ≤ ndim t));;
  n ← rdp (dim t) 0;
  sd ← for_range 1 (ndim t)
         (fun i '(stride, dp) =>
            d ← rdp (dim t) i;
            assert (bool_decide (d = n));;
            let dp := wrap (dp * n) in
            Ok (wrap (stride + dp), dp))
         (1, 1);
  let '(stride, dp) := sd in
  ne ← NumTensorElements t;
  assert (bool_decide (ne = wrap (n * dp)));;
  td ← deref (data t);
  td ← memset_zero td (wrap (wrap (n * dp) * SIZEOF_COMPLEX));
  td ← for_range 0 n (fun j td => wr td (wrap (j * stride)) c1) td;
  Ok {| ndim := ndim t; dim := dim t; data := Live td |}.

(** *** TensorTrace *)
Definition TensorTrace (t : tensor_t) : result C :=
  assert (bool_decide (1 ≤ ndim t));;
  n ← rdp (dim t) 0;
  sd ← for_range 1 (ndim t)
         (fun i '(stride, dp) =>
            d ← rdp (dim t) i;
            assert (bool_decide (d = n));;
            let dp := wrap (dp * n) in
            Ok (wrap (stride + dp), dp))
         (1, 1);
  let '(stride, dp) := sd in
  for_range 0 n
    (fun j tr => x ← rdp (data t) (wrap (j * stride)); Ok (cadd tr x)) c0.

(** *** ReshapeTensor *)
Definition ReshapeTensor (nd : Z) (dm : list Z) (t : tensor_t)
  : result tensor_t :=
  p ← IntProduct (rd dm) nd;
  ne ← NumTensorElements t;
  assert (bool_decide (p = ne));;
  algn_free (dim t);;
  (* memcpy(t->dim, dim, ndim * sizeof(size_t)) into the fresh buffer *)
  (if bool_decide (0 ≤ nd ≤ Z.of_nat (length dm)) then Ok tt else Fault);;
  Ok {| ndim := nd; dim := Live (take (Z.to_nat nd) dm); data := data t |}.

(** *** TransposeTensor *)

(** the loop [for (ot = 0; ot < nelem; ot += t->dim[0])]; it returns the data
    of [r] *)
Fixpoint transpose_loop (fuel : nat) (perm : list Z) (t r : tensor_t)
    (stride nelem ot : Z) (index_t index_r : list Z) (rdata : list C)
  : result (list C) :=
  if bool_decide (ot < nelem) then
    match fuel with
    | O => Timeout
    | S fuel' =>
        (* map index of tensor 't' to index of tensor 'r' *)
        index_r ← for_range 0 (ndim t)
                    (fun i index_r =>
                       p ← rd perm i;
                       v ← rd index_t i;
                       wr index_r p v)
                    index_r;
        (* convert back to offset of tensor 'r' *)
        or ← IndexToOffset (ndim r) (rdp (dim r)) (rd index_r);
        (* main copy loop *)
        n ← rdp (dim t) 0;
        rdata ← for_range 0 n
                  (fun j rdata =>
                     x ← rdp (data t) (wrap (ot + j));
                     wr rdata (wrap (or + wrap (j * stride))) x)
                  rdata;
        (* advance index of tensor 't' by t->dim[0] elements *)
        index_t ← NextIndex (ndim t - 1) (shift (rdp (dim t)) 1) 1 index_t;
        d0 ← rdp (dim t) 0;
        transpose_loop fuel' perm t r stride nelem (wrap (ot + d0))
          index_t index_r rdata
    end
  else Ok rdata.

Definition TransposeTensor (perm : list Z) (t : tensor_t) : result tensor_t :=
  (* dimensions of new tensor 'r' *)
  rdim ← for_range 0 (ndim t)
           (fun i rdim =>
              p ← rd perm i;
              assert (bool_decide (0 ≤ p < ndim t));;
              d ← rdp (dim t) i;
              wr rdim p d)
           (algn_malloc 0 (ndim t));
  r ← AllocateTensor (ndim t) rdim;
  (* stride in 'r' corresponding to the original first dimension *)
  p0 ← rd perm 0;
  stride ← IntProduct (rdp (dim r)) p0;
  nelem ← NumTensorElements t;
  let index_t := algn_calloc 0 (ndim t) in
  let index_r := algn_malloc 0 (ndim t) in
  rdata ← deref (data r);
  rdata ← transpose_loop (Z.to_nat nelem) perm t r stride nelem 0
            index_t index_r rdata;
  Ok {| ndim := ndim r; dim := dim r; data := Live rdata |}.

(** *** ScaleTensor; the count reaches the kernel's [int] parameter by implicit
    conversion *)
Definition ScaleTensor (alpha : Rl) (t : tensor_t) : result tensor_t :=
  nelem ← NumTensorElements t;
  td ← deref (data t);
  td ← cblas_zdscal (to_int nelem) alpha td;
  Ok {| ndim := ndim t; dim := dim t; data := Live td |}.

(** *** ScalarMultiplyAddTensor: the tensor [t] afterwards *)
Definition ScalarMultiplyAddTensor (alpha : C) (s t : tensor_t)
  : result tensor_t :=
  nelem ← NumTensorElements s;
  assert (bool_decide (ndim s = ndim t));;
  nt ← NumTensorElements t;
  assert (bool_decide (nelem = nt));;
  sd ← deref (data s);
  td ← deref (data t);
  td ← cblas_zaxpy (to_int nelem) alpha sd td;
  Ok {| ndim := ndim t; dim := dim t; data := Live td |}.

(** *** MultiplyTensor *)
Definition MultiplyTensor (s t : tensor_t) (ndim_mult : Z) : result tensor_t :=
  assert (bool_decide (1 ≤ ndim_mult));;
  assert (bool_decide (ndim_mult ≤ ndim s ∧ ndim_mult ≤ ndim t));;
  for_range 0 ndim_mult
    (fun i _ =>
       a ← rdp (dim s) (ndim s - ndim_mult + i);
       b ← rdp (dim t) i;
       assert (bool_decide (a = b)))
    tt;;
  (* dimensions of new tensor 'r' *)
  nst ← int_chk (ndim s + ndim t);
  let nr := nst - 2 * ndim_mult in
  rdim ← for_range 0 (ndim s - ndim_mult)
           (fun i rdim => d ← rdp (dim s) i; wr rdim i d)
           (algn_malloc 0 nr);
  rdim ← for_range ndim_mult (ndim t)
           (fun i rdim =>
              d ← rdp (dim t) i; wr rdim (ndim s + i - 2 * ndim_mult) d)
           rdim;
  r ← AllocateTensor nr rdim;
  nelemS ← NumTensorElements s;
  nelemT ← NumTensorElements t;
  (* leading dimension of 's' as a matrix *)
  k ← IntProduct (shift (rdp (dim s)) (ndim s - ndim_mult)) ndim_mult;
  (if bool_decide (k = 0) then Fault else Ok tt);;
  let lds := nelemS / k in
  assert (bool_decide (0 < lds));;
  (* leading and trailing dimension of 't' as a matrix *)
  ldt ← IntProduct (rdp (dim t)) ndim_mult;
  assert (bool_decide (0 < ldt));;
  let tdt := nelemT / ldt in
  sd ← deref (data s);
  td ← deref (data t);
  rd_ ← deref (data r);
  rd_ ←
    (if bool_decide (lds = 1) then
       if bool_decide (tdt = 1) then
         (* inner product of two vectors *)
         assert (bool_decide (nelemS = nelemT));;
         nelemR ← NumTensorElements r;
         assert (bool_decide (nelemR = 1));;
         v ← cblas_zdotu_sub (to_int nelemS) sd td;
         wr rd_ 0 v
       else
         (* multiply vector 's' from left, i.e., (t^T * s)^T *)
         cblas_zgemv true (to_int ldt) (to_int tdt) c1 td (to_int ldt) sd c0 rd_
     else
       if bool_decide (tdt = 1) then
         (* matrix-vector multiplication *)
         cblas_zgemv false (to_int lds) (to_int ldt) c1 sd (to_int lds) td c0
           rd_
       else
         (* matrix-matrix multiplication *)
         cblas_zgemm (to_int lds) (to_int tdt) (to_int ldt) c1 sd (to_int lds)
           td (to_int ldt) c0 rd_ (to_int lds));
  Ok {| ndim := ndim r; dim := dim r; data := Live rd_ |}.

(** *** TensorKroneckerProduct *)
Definition TensorKroneckerProduct (s t : tensor_t) : result tensor_t :=
  (* tensors must have the same number of levels *)
  assert (bool_decide (ndim s = ndim t));;
  (* dimensions of temporary tensor 'u' *)
  n2 ← int_chk (ndim s + ndim t);
  udim ← for_range 0 (ndim s)
           (fun i udim => d ← rdp (dim s) i; wr udim i d)
           (algn_malloc 0 n2);
  udim ← for_range 0 (ndim t)
           (fun i udim => d ← rdp (dim t) i; wr udim (ndim s + i) d)
           udim;
  u ← AllocateTensor n2 udim;
  m ← NumTensorElements s;
  n ← NumTensorElements t;
  nu ← NumTensorElements u;
  assert (bool_decide (nu = wrap (m * n)));;
  (* outer product; u.data must have been initialized with zeros *)
  sd ← deref (data s);
  td ← deref (data t);
  ud ← deref (data u);
  ud ← cblas_zgeru (to_int m) (to_int n) c1 sd td ud (to_int m);
  let u := {| ndim := ndim u; dim := dim u; data := Live ud |} in
  (* reorder levels of 'u' and store result in 'r' *)
  perm ← for_range 0 (ndim s)
           (fun i perm => v ← int_chk (2 * i); wr perm i v)
           (algn_malloc 0 n2);
  perm ← for_range 0 (ndim t)
           (fun i perm => v ← int_chk (2 * i + 1); wr perm (ndim s + i) v)
           perm;
  r ← TransposeTensor perm u;
  DeleteTensor u;;
  (* final dimensions of tensor 'r' *)
  rdim ← for_range 0 (ndim s)
           (fun i rdim =>
              a ← rdp (dim s) i;
              b ← rdp (dim t) i;
              rdim ← wr rdim i (wrap (a * b));
              x ← rdp (dim r) (2 * i);
              y ← rdp (dim r) (2 * i + 1);
              assert (bool_decide (wrap (a * b) = wrap (x * y)));;
              Ok rdim)
           (algn_malloc 0 (ndim s));
  ReshapeTensor (ndim s) rdim r.

(** *** CopyTensor *)

(** the cells behind a pointer that is passed on as an array: none behind a
    null or a freed pointer, so that every read of them fails *)
Definition cells {A} (p : ptr (list A)) : list A :=
  match p with
  | Live b => b
  | _ => []
  end.

(** memcpy(dst, src, bytes) on arrays of scalars *)
Definition memcpy (dst src : list C) (bytes : Z) : result (list C) :=
  let n := bytes / SIZEOF_COMPLEX in
  if holds_ src n && holds_ dst n then
    Ok (take (Z.to_nat n) src ++ drop (Z.to_nat n) dst)
  else Fault.

Definition CopyTensor (src : tensor_t) : result tensor_t :=
  dst ← AllocateTensor (ndim src) (cells (dim src));
  nelem ← NumTensorElements src;
  sd ← deref (data src);
  dd ← deref (data dst);
  dd ← memcpy dd sd (wrap (nelem * SIZEOF_COMPLEX));
  Ok {| ndim := ndim dst; dim := dim dst; data := Live dd |}.

(** *** ConjugateTensor *)

Section Conjugate.

(** conj() of complex.h *)
Context (cconj : C → C).

Definition ConjugateTensor (t : tensor_t) : result tensor_t :=
  nelem ← NumTensorElements t;
  p ← for_range 0 nelem
        (fun i p =>
           a ← deref p;
           x ← rd a i;
           a ← wr a i (cconj x);
           Ok (Live a))
        (data t);
  Ok {| ndim := ndim t; dim := dim t; data := p |}.

(** *** ConjugateTransposeTensor *)
Definition ConjugateTransposeTensor (perm : list Z) (t : tensor_t)
  : result tensor_t :=
  r ← TransposeTensor perm t;
  ConjugateTensor r.

End Conjugate.

(** *** SubTensor *)

(** idx[i][k], where [idx] is an array of pointers to index arrays *)
Definition rd2 (idx : list (list Z)) (i k : Z) : result Z :=
  row ← rd idx i; rd row k.

(** the loop [for (os = 0; os < nelem; os += s->dim[0])]; it returns the data
    of [s] *)
Fixpoint subtensor_loop (fuel : nat) (t s : tensor_t) (idx : list (list Z))
    (nelem os ot : Z) (index_t index_s : list Z) (sdata : list C)
  : result (list C) :=
  if bool_decide (os < nelem) then
    match fuel with
    | O => Timeout
    | S fuel' =>
        (* main copy loop along first dimension *)
        n ← rdp (dim s) 0;
        sdata ← for_range 0 n
                  (fun j sdata =>
                     k ← rd2 idx 0 j;
                     x ← rdp (data t) (wrap (ot + k));
                     wr sdata (wrap (os + j)) x)
                  sdata;
        (* advance index of tensor 's' by s->dim[0] elements *)
        index_s ← NextIndex (ndim s - 1) (shift (rdp (dim s)) 1) 1 index_s;
        (* map index of tensor 's' to index of tensor 't' *)
        index_t ← for_range 1 (ndim t)
                    (fun i index_t =>
                       k ← rd index_s i;
                       v ← rd2 idx i k;
                       wr index_t i v)
                    index_t;
        (* convert back to offset of tensor 't' *)
        ot ← IndexToOffset (ndim t) (rdp (dim t)) (rd index_t);
        d0 ← rdp (dim s) 0;
        subtensor_loop fuel' t s idx nelem (wrap (os + d0)) ot
          index_t index_s sdata
    end
  else Ok sdata.

Definition SubTensor (t : tensor_t) (sdim : list Z) (idx : list (list Z))
  : result tensor_t :=
  (* create new tensor 's'; number of dimensions agrees with 't' *)
  s ← AllocateTensor (ndim t) sdim;
  if bool_decide (ndim t = 0) then
    x ← rdp (data t) 0;
    sd ← deref (data s);
    sd ← wr sd 0 x;
    Ok {| ndim := ndim s; dim := dim s; data := Live sd |}
  else
    nelem ← NumTensorElements s;
    let index_t := algn_calloc 0 (ndim t) in
    let index_s := algn_calloc 0 (ndim s) in
    (* map first index of tensor 's' to index of tensor 't', except for the
       first dimension *)
    index_t ← for_range 1 (ndim t)
                (fun i index_t =>
                   dt ← rdp (dim t) i;
                   (* t->dim[i] > 0 && s->dim[i] > 0 *)
                   ok ← (if bool_decide (0 < dt) then
                           ds ← rdp (dim s) i; Ok (bool_decide (0 < ds))
                         else Ok false);
                   assert ok;;
                   v ← rd2 idx i 0;
                   wr index_t i v)
                index_t;
    (* convert back to offset of tensor 't' *)
    ot ← IndexToOffset (ndim t) (rdp (dim t)) (rd index_t);
    sd ← deref (data s);
    sd ← subtensor_loop (Z.to_nat nelem) t s idx nelem 0 ot index_t index_s sd;
    Ok {| ndim := ndim s; dim := dim s; data := Live sd |}.

(** ** Specification-level notions *)

(** product of the extents *)
Definition prodZ (ds : list Z) : Z := foldr Z.mul 1 ds.
Global Arguments prodZ : simpl never.

(** column-major offset of a multi-index: [i0 + d0 (i1 + d1 (...))] *)
Fixpoint offset (ds idx : list Z) : Z :=
  match ds, idx with
  | d :: ds', i :: idx' => i + d * offset ds' idx'
  | _, _ => 0
  end.

(** the multi-index at a column-major offset *)
Fixpoint index_of (ds : list Z) (o : Z) : list Z :=
  match ds with
  | [] => []
  | d :: ds' => o mod d :: index_of ds' (o / d)
  end.

(** the successor of a multi-index, axis 0 fastest *)
Fixpoint next_index (ds idx : list Z) : list Z :=
  match ds, idx with
  | d :: ds', i :: idx' =>
      if bool_decide (i + 1 < d) then (i + 1) :: idx'
      else 0 :: next_index ds' idx'
  | _, _ => idx
  end.

(** [idx] is a multi-index of the shape [ds] *)
Definition valid_index (ds idx : list Z) : Prop :=
  Forall2 (fun d i => 0 ≤ i < d) ds idx.

(** all multi-indices of a shape, in column-major order *)
Definition all_indices (ds : list Z) : list (list Z) :=
  index_of ds <$> seqZ 0 (prodZ ds).

(** [perm] is a permutation of [0 .. n-1] *)
Definition is_perm (n : Z) (perm : list Z) : Prop :=
  Z.of_nat (length perm) = n ∧ NoDup perm ∧ Forall (fun p => 0 ≤ p < n) perm.

(** [x] is [i] with its axes moved by [perm]: [x[perm[k]] = i[k]] *)
Definition permuted {A} (perm : list Z) (i x : list A) : Prop :=
  length x = length i ∧
  ∀ (k : nat) p, perm !! k = Some p → x !! Z.to_nat p = i !! k.

(** [1 + n + ... + n^(r-1)]: the stride of the diagonal *)
Fixpoint geom (n : Z) (r : nat) : Z :=
  match r with
  | O => 0
  | S r' => geom n r' + n ^ Z.of_nat r'
  end.
Global Arguments geom : simpl never.

(** the natural number [k] as a scalar: [k] times [1] added to [0] *)
Fixpoint c_of_nat (k : nat) : C :=
  match k with
  | O => c0
  | S k' => cadd (c_of_nat k') c1
  end.

(** the axes of two tensors taken in turn: [a0, b0, a1, b1, ...] *)
Fixpoint interleave {A} (a b : list A) : list A :=
  match a, b with
  | x :: a', y :: b' => x :: y :: interleave a' b'
  | _, _ => []
  end.

(** the permutation built by TensorKroneckerProduct for rank [n]:
    [perm[k] = 2k] and [perm[n+k] = 2k+1] *)
Definition kron_perm (n : Z) : list Z :=
  ((fun k => 2 * k) <$> seqZ 0 n) ++ ((fun k => 2 * k + 1) <$> seqZ 0 n).

(** the extents of a Kronecker product: [S.dim[k] * T.dim[k]] *)
Definition kron_dims (sds tds : list Z) : list Z := zip_with Z.mul sds tds.

(** the multi-index of a Kronecker product in which the index [i] of S
    varies fastest within each axis: [i_k + S.dim[k] * j_k] *)
Fixpoint kron_index (sds i j : list Z) : list Z :=
  match sds, i, j with
  | d :: sds', x :: i', y :: j' => (x + d * y) :: kron_index sds' i' j'
  | _, _, _ => []
  end.

(** [pinv] is the inverse of [perm]: [pinv[perm[k]] = k] *)
Definition inverse_perm (perm pinv : list Z) : Prop :=
  length pinv = length perm ∧
  ∀ (k : nat) p, perm !! k = Some p → pinv !! Z.to_nat p = Some (Z.of_nat k).

(** [t] is a tensor of shape [ds] with the column-major entries [xs]: the
    invariants of the data model.  The rank is an [int] and the number of
    entries a [size_t]. *)
Record is_tensor (t : tensor_t) (ds : list Z) (xs : list C) : Prop := {
  it_ndim : ndim t = Z.of_nat (length ds);
  it_rank : Z.of_nat (length ds) ≤ INT_MAX;
  it_dim : ds ≠ [] → dim t = Live ds;
  it_data : data t = Live xs;
  it_pos : Forall (fun d => 0 < d) ds;
  it_len : Z.of_nat (length xs) = prodZ ds;
  it_size : prodZ ds < 2 ^ SIZE_WIDTH
}.

(** the dimension pointer of a tensor of shape [ds]: null for rank 0 *)
Definition dim_ptr (ds : list Z) : ptr (list Z) :=
  match ds with
  | [] => NULL
  | _ => Live ds
  end.

(** the read-only view [v] shows the cells of [l] *)
Definition views {A} (v : Z → result A) (l : list A) : Prop :=
  ∀ (k : nat) x, l !! k = Some x → v (Z.of_nat k) = Ok x.

(** the entry of a tensor at a multi-index *)
Definition entry (xs : list C) (ds idx : list Z) : option C :=
  xs !! Z.to_nat (offset ds idx).

(** the entries of [xs] at the offsets below [o] have reached their places in
    [rdata]: the invariant of the copy loops of TransposeTensor *)
Definition copied_upto (perm ds rds : list Z) (xs : list C) (o : Z)
    (rdata : list C) : Prop :=
  Z.of_nat (length rdata) = prodZ ds ∧
  ∀ i x, valid_index ds i → permuted perm i x → offset ds i < o →
         entry rdata rds x = entry xs ds i.

(** the entry at a multi-index, as a total function for use under sums *)
Definition tensor_at (xs : list C) (ds idx : list Z) : C :=
  default c0 (xs !! Z.to_nat (offset ds idx)).

(** sum of [f b] over a list, accumulated from [0] *)
Definition csum_list {B} (f : B → C) (bs : list B) : C :=
  foldl (fun acc b => cadd acc (f b)) c0 bs.

(** the tensors of the worked examples *)
Definition matrix (rows cols : Z) (xs : list C) : tensor_t :=
  {| ndim := 2; dim := Live [rows; cols]; data := Live xs |}.

Definition vector (xs : list C) : tensor_t :=
  {| ndim := 1; dim := Live [Z.of_nat (length xs)]; data := Live xs |}.

Definition scalar (x : C) : tensor_t :=
  {| ndim := 0; dim := NULL; data := Live [x] |}.

(** the multi-index of T that SubTensor reads for the multi-index [j] of S:
    [idx[k][j[k]]] on every axis *)
Definition sub_index (idx : list (list Z)) (j : list Z) : list Z :=
  zip_with (fun row k => default 0 (row !! Z.to_nat k)) idx j.

(** the index arrays [idx] select entries of the shape [ds] for the shape
    [sds]: on every axis, [idx[k]] holds at least [sds[k]] positions, each
    below [ds[k]] *)
Definition selects (idx : list (list Z)) (ds sds : list Z) : Prop :=
  length idx = length ds ∧ length sds = length ds ∧
  ∀ (k : nat) row d sd, idx !! k = Some row → ds !! k = Some d →
    sds !! k = Some sd →
    sd ≤ Z.of_nat (length row) ∧
    ∀ (j : nat) v, Z.of_nat j < sd → row !! j = Some v → 0 ≤ v < d.

(** the entries of S at the offsets below [o] have been copied from T: the
    invariant of the copy loops of SubTensor *)
Definition sub_copied (idx : list (list Z)) (ds sds : list Z) (xs : list C)
    (o : Z) (sdata : list C) : Prop :=
  Z.of_nat (length sdata) = prodZ sds ∧
  ∀ j, valid_index sds j → offset sds j < o →
       entry sdata sds j = entry xs ds (sub_index idx j).

(** the permutation that moves axis [k] to [q[p[k]]]: first [p], then [q] *)
Definition compose_perm (q p : list Z) : list Z :=
  (fun pk => default 0 (q !! Z.to_nat pk)) <$> p.

(** ** Ownership: move and delete *)

(** C6 (as amended): after MoveTensorData(src, dst) the destination holds the
    former rank, dimension vector and data buffer of the source; the source
    holds null dim and data pointers and keeps its rank; deleting the source
    afterwards succeeds and releases no buffer. *)
Theorem MoveTensorData_post (src dst : tensor_t) :
  let '(src', dst') := MoveTensorData src dst in
  ndim dst' = ndim src ∧ dim dst' = dim src ∧ data dst' = data src ∧
  ndim src' = ndim src ∧ dim src' = NULL ∧ data src' = NULL ∧
  DeleteTensor src' = Ok ({| ndim := 0; dim := NULL; data := NULL |}, 0%nat).
Proof.
  unfold MoveTensorData, DeleteTensor; simpl.
  repeat split; try reflexivity.
  destruct (bool_decide (0 < ndim src)); reflexivity.
Qed.

(** C10: DeleteTensor is idempotent.  After a DeleteTensor that returns, the
    tensor holds ndim = 0 and data = NULL; a second DeleteTensor returns,
    releases no buffer and leaves the tensor as it is.  The same holds for a
    moved-from tensor: deleting it releases no buffer. *)
Theorem DeleteTensor_idempotent (t t' : tensor_t) (released : nat) :
  DeleteTensor t = Ok (t', released) →
  ndim t' = 0 ∧ data t' = NULL ∧
  DeleteTensor t' = Ok (t', 0%nat) ∧
  ∀ dst, ∃ t'', DeleteTensor (MoveTensorData t dst).1 = Ok (t'', 0%nat)
                ∧ ndim t'' = 0 ∧ data t'' = NULL.
Proof.
  unfold DeleteTensor, MoveTensorData. intros H.
  assert (Hmv : ∀ b : bool, ∃ t'' : tensor_t,
    (fd ← (if b then algn_free (@NULL (list Z)) else Ok (NULL, 0%nat));
     fa ← algn_free (@NULL (list C));
     Ok ({| ndim := 0; dim := fd.1; data := NULL |}, (fd.2 + fa.2)%nat))
    = Ok (t'', 0%nat) ∧ ndim t'' = 0 ∧ data t'' = NULL).
  { intros []; eexists; simpl; eauto. }
  destruct (bool_decide (0 < ndim t)) eqn:Hn;
    destruct (dim t) eqn:Hd; destruct (data t) eqn:Ha;
    simpl in H; try discriminate; injection H as <- <-; simpl;
    repeat split; intros; apply Hmv.
Qed.

(** ** Rank 0 in TransposeTensor *)

Lemma for_range_nil {St} (lo hi : Z) (body : Z → St → result St) (s : St) :
  hi ≤ lo → for_range lo hi body s = Ok s.
Proof.
  intros H. unfold for_range. replace (Z.to_nat (hi - lo)) with O by lia.
  reflexivity.
Qed.

Lemma for_range_step {St} (lo hi : Z) (body : Z → St → result St) (s : St) :
  lo < hi →
  for_range lo hi body s = (s' ← body lo s; for_range (lo + 1) hi body s').
Proof.
  intros H. unfold for_range.
  replace (Z.to_nat (hi - lo)) with (S (Z.to_nat (hi - (lo + 1)))) by lia.
  reflexivity.
Qed.

(** C7 (the code at the failing input): on a rank-0 tensor, whose dimension
    pointer is null, TransposeTensor does not return a scalar copy: it reads
    perm[0] of the empty permutation and t->dim[0] through the null pointer.
    The call is undefined for every content of [perm]. *)
Theorem TransposeTensor_rank0_fault (perm : list Z) (x : C) :
  TransposeTensor perm {| ndim := 0; dim := NULL; data := Live [x] |} = Fault.
Proof.
  unfold TransposeTensor; simpl ndim.
  rewrite for_range_nil by lia. simpl.
  destruct perm as [|p0 perm]; [reflexivity|]. simpl.
  unfold IntProduct.
  destruct (Z_lt_le_dec 0 p0) as [Hlt|Hle].
  - rewrite for_range_step by lia. reflexivity.
  - rewrite for_range_nil by lia. reflexivity.
Qed.

(** ** The monad, loops and arrays *)

Lemma bind_Ok_inv {A B} (m : result A) (k : A → result B) (b : B) :
  m ≫= k = Ok b → ∃ a, m = Ok a ∧ k a = Ok b.
Proof. destruct m; simpl; try discriminate. eauto. Qed.

Lemma assert_true (P : Prop) `{Decision P} : P → assert (bool_decide P) = Ok tt.
Proof. intros HP. unfold assert. rewrite bool_decide_eq_true_2; done. Qed.

Lemma for_loop_inv {St} (I : Z → St → Prop) (body : Z → St → result St) :
  ∀ (n : nat) (lo : Z) (s : St),
    I lo s →
    (∀ i s, lo ≤ i < lo + Z.of_nat n → I i s →
            ∃ s', body i s = Ok s' ∧ I (i + 1) s') →
    ∃ s', for_loop n lo body s = Ok s' ∧ I (lo + Z.of_nat n) s'.
Proof.
  induction n as [|n IH]; intros lo s Hs Hstep; simpl.
  - exists s. split; [done|]. by replace (lo + Z.of_nat 0) with lo by lia.
  - destruct (Hstep lo s ltac:(lia) Hs) as (s1 & -> & Hs1). simpl.
    destruct (IH (lo + 1) s1 Hs1) as (s2 & Hl & Hs2).
    + intros i s' Hi. apply Hstep. lia.
    + exists s2. split; [done|].
      by replace (lo + Z.of_nat (S n)) with (lo + 1 + Z.of_nat n) by lia.
Qed.

Lemma for_range_inv {St} (I : Z → St → Prop) (lo hi : Z)
    (body : Z → St → result St) (s : St) :
  lo ≤ hi →
  I lo s →
  (∀ i s, lo ≤ i < hi → I i s → ∃ s', body i s = Ok s' ∧ I (i + 1) s') →
  ∃ s', for_range lo hi body s = Ok s' ∧ I hi s'.
Proof.
  intros Hle Hs Hstep. unfold for_range.
  destruct (for_loop_inv I body (Z.to_nat (hi - lo)) lo s Hs) as (s' & ? & Hs').
  - intros i s0 Hi. apply Hstep. lia.
  - exists s'. split; [done|].
    by replace (lo + Z.of_nat (Z.to_nat (hi - lo))) with hi in Hs' by lia.
Qed.

Lemma wrap_small (z : Z) : 0 ≤ z < 2 ^ SIZE_WIDTH → wrap z = z.
Proof. intros H. unfold wrap. by apply Z.mod_small. Qed.

Lemma to_int_small (z : Z) : INT_MIN ≤ z ≤ INT_MAX → to_int z = z.
Proof.
  unfold to_int, INT_MIN, INT_MAX. intros H.
  rewrite Z.mod_small by lia. lia.
Qed.

Lemma rd_Some {A} (a : list A) (i : Z) (x : A) :
  0 ≤ i → a !! Z.to_nat i = Some x → rd a i = Ok x.
Proof.
  intros Hi Hx. unfold rd. rewrite bool_decide_eq_true_2 by done.
  by rewrite Hx.
Qed.

Lemma wr_Some {A} (a : list A) (i : Z) (x : A) :
  0 ≤ i < Z.of_nat (length a) → wr a i x = Ok (<[Z.to_nat i := x]> a).
Proof. intros Hi. unfold wr. by rewrite bool_decide_eq_true_2. Qed.

Lemma views_rd {A} (l : list A) : views (rd l) l.
Proof. intros k x Hk. apply rd_Some; [lia|]. by rewrite Nat2Z.id. Qed.

Lemma views_rdp {A} (l : list A) : views (rdp (Live l)) l.
Proof. intros k x Hk. unfold rdp. simpl. by apply views_rd. Qed.

Lemma views_shift {A} (v : Z → result A) (l : list A) (k : nat) :
  views v l → views (shift v (Z.of_nat k)) (drop k l).
Proof.
  intros Hv j x Hj. unfold shift. rewrite lookup_drop in Hj.
  replace (Z.of_nat k + Z.of_nat j) with (Z.of_nat (k + j)) by lia.
  by apply Hv.
Qed.

Lemma views_at {A} (v : Z → result A) (l : list A) (i : Z) (x : A) :
  views v l → 0 ≤ i → l !! Z.to_nat i = Some x → v i = Ok x.
Proof.
  intros Hv Hi Hx. replace i with (Z.of_nat (Z.to_nat i)) by lia.
  by apply Hv.
Qed.

(** ** Products of extents *)

Lemma prodZ_cons (d : Z) (l : list Z) : prodZ (d :: l) = d * prodZ l.
Proof. reflexivity. Qed.

Lemma prodZ_app (l1 l2 : list Z) : prodZ (l1 ++ l2) = prodZ l1 * prodZ l2.
Proof.
  induction l1 as [|d l1 IH]; simpl.
  - unfold prodZ at 2. simpl. lia.
  - rewrite !prodZ_cons, IH. lia.
Qed.

Lemma prodZ_pos (l : list Z) : Forall (fun d => 0 < d) l → 0 < prodZ l.
Proof.
  induction 1 as [|d l Hd Hl IH]; [done|].
  rewrite prodZ_cons. lia.
Qed.

Lemma prodZ_take_le (l : list Z) (n : nat) :
  Forall (fun d => 0 < d) l → 0 < prodZ (take n l) ≤ prodZ l.
Proof.
  intros Hl. rewrite <- (take_drop n l) at 3. rewrite prodZ_app.
  assert (0 < prodZ (take n l)) by (apply prodZ_pos; by apply Forall_take).
  assert (0 < prodZ (drop n l)) by (apply prodZ_pos; by apply Forall_drop).
  nia.
Qed.

Lemma prodZ_take_S (l : list Z) (n : nat) (d : Z) :
  l !! n = Some d → prodZ (take (S n) l) = prodZ (take n l) * d.
Proof.
  intros Hd. rewrite (take_S_r _ _ _ Hd), prodZ_app.
  unfold prodZ at 2. simpl. lia.
Qed.

Lemma prodZ_lookup_le (l : list Z) (n : nat) (d : Z) :
  Forall (fun d => 0 < d) l → l !! n = Some d → 0 < d ≤ prodZ l.
Proof.
  intros Hl Hd.
  pose proof (prodZ_take_le l (S n) Hl) as H1.
  pose proof (prodZ_take_le l n Hl) as H2.
  rewrite (prodZ_take_S _ _ _ Hd) in H1.
  pose proof (Forall_lookup_1 _ _ _ _ Hl Hd) as Hdpos. simpl in Hdpos.
  nia.
Qed.

Lemma IntProduct_ok (v : Z → result Z) (ds : list Z) (n : nat) :
  views v ds →
  (n ≤ length ds)%nat →
  Forall (fun d => 0 < d) ds →
  prodZ ds < 2 ^ SIZE_WIDTH →
  IntProduct v (Z.of_nat n) = Ok (prodZ (take n ds)).
Proof.
  intros Hv Hn Hpos Hsz. unfold IntProduct.
  destruct (for_range_inv
              (fun i p => p = prodZ (take (Z.to_nat i) ds)) 0 (Z.of_nat n)
              (fun i prod => d ← v i; Ok (wrap (prod * d))) 1)
    as (p & -> & ->); [lia|done| |by rewrite Nat2Z.id].
  intros i p Hi ->.
  destruct (lookup_lt_is_Some_2 ds (Z.to_nat i)) as [d Hd]; [lia|].
  rewrite (views_at v ds i d) by (done || lia). simpl.
  eexists. split; [done|].
  replace (Z.to_nat (i + 1)) with (S (Z.to_nat i)) by lia.
  rewrite (prodZ_take_S _ _ _ Hd).
  rewrite <- (prodZ_take_S _ _ _ Hd). apply wrap_small.
  pose proof (prodZ_take_le ds (S (Z.to_nat i)) Hpos). lia.
Qed.

(** ** Column-major index arithmetic *)

Lemma valid_index_length (ds idx : list Z) :
  valid_index ds idx → length idx = length ds.
Proof. intros H. symmetry. by eapply Forall2_length. Qed.

Lemma valid_index_lookup (ds idx : list Z) (k : nat) (d x : Z) :
  valid_index ds idx → ds !! k = Some d → idx !! k = Some x → 0 ≤ x < d.
Proof.
  intros H Hd Hx.
  exact (Forall2_lookup_lr (fun d i => 0 ≤ i < d) ds idx k d x H Hd Hx).
Qed.

Lemma offset_bound (ds idx : list Z) :
  valid_index ds idx → 0 ≤ offset ds idx < prodZ ds.
Proof.
  induction 1 as [|d i ds idx Hi _ IH]; simpl.
  - unfold prodZ; simpl; lia.
  - rewrite prodZ_cons. nia.
Qed.

Lemma offset_inj (ds i j : list Z) :
  valid_index ds i → valid_index ds j → offset ds i = offset ds j → i = j.
Proof.
  intros Hi. revert j.
  induction Hi as [|d x ds i Hx _ IH]; intros j Hj Heq.
  - by inversion Hj.
  - inversion Hj as [|d' y ds' j' Hy Hj']; subst. simpl in Heq.
    assert (offset ds i = offset ds j') by nia.
    f_equal; [nia|]. by apply IH.
Qed.

Lemma index_of_valid (ds : list Z) (o : Z) :
  Forall (fun d => 0 < d) ds → valid_index ds (index_of ds o).
Proof.
  intros Hpos. revert o.
  induction Hpos as [|d ds Hd _ IH]; intros o; simpl; constructor.
  - apply Z.mod_pos_bound. lia.
  - apply IH.
Qed.

Lemma offset_index_of (ds : list Z) (o : Z) :
  Forall (fun d => 0 < d) ds → 0 ≤ o < prodZ ds →
  offset ds (index_of ds o) = o.
Proof.
  intros Hpos. revert o.
  induction Hpos as [|d ds Hd Hds IH]; intros o Ho; simpl.
  - unfold prodZ in Ho; simpl in Ho; lia.
  - rewrite prodZ_cons in Ho. rewrite IH.
    + pose proof (Z.div_mod o d ltac:(lia)). lia.
    + split; [apply Z.div_pos; lia|].
      apply Z.div_lt_upper_bound; lia.
Qed.

Lemma index_of_offset (ds idx : list Z) :
  valid_index ds idx → index_of ds (offset ds idx) = idx.
Proof.
  intros Hv.
  assert (Hpos : Forall (fun d => 0 < d) ds).
  { induction Hv; constructor; [lia|done]. }
  apply (offset_inj ds); [by apply index_of_valid|done|].
  apply offset_index_of; [done|]. by apply offset_bound.
Qed.

Lemma offset_app (ds1 ds2 i1 i2 : list Z) :
  length i1 = length ds1 →
  offset (ds1 ++ ds2) (i1 ++ i2) = offset ds1 i1 + prodZ ds1 * offset ds2 i2.
Proof.
  revert i1. induction ds1 as [|d ds1 IH]; intros [|x i1] Hlen;
    simpl in *; try discriminate.
  - unfold prodZ; simpl. destruct (offset ds2 i2); lia.
  - rewrite prodZ_cons, IH by lia. lia.
Qed.

Lemma valid_index_app (ds1 ds2 i1 i2 : list Z) :
  valid_index ds1 i1 → valid_index ds2 i2 →
  valid_index (ds1 ++ ds2) (i1 ++ i2).
Proof. apply Forall2_app. Qed.

Lemma offset_take_S (ds idx : list Z) (k : nat) (d x : Z) :
  length idx = length ds → ds !! k = Some d → idx !! k = Some x →
  offset (take (S k) ds) (take (S k) idx)
  = offset (take k ds) (take k idx) + prodZ (take k ds) * x.
Proof.
  intros Hlen Hd Hx.
  rewrite (take_S_r _ _ _ Hd), (take_S_r _ _ _ Hx).
  rewrite offset_app; [simpl; lia|].
  rewrite !length_take. lia.
Qed.

Lemma offset_insert (ds idx : list Z) (k : nat) (v old : Z) :
  length idx = length ds → idx !! k = Some old →
  offset ds (<[k := v]> idx)
  = offset ds idx + (v - old) * prodZ (take k ds).
Proof.
  revert idx k. induction ds as [|d ds IH]; intros [|x idx] k Hlen Hold;
    simpl in *; try discriminate.
  destruct k as [|k]; simpl in *.
  - injection Hold as ->. unfold prodZ; simpl. lia.
  - rewrite (IH idx k) by (done || lia). rewrite prodZ_cons. lia.
Qed.

Lemma next_index_valid (ds idx : list Z) :
  valid_index ds idx → valid_index ds (next_index ds idx).
Proof.
  induction 1 as [|d i ds idx Hi Hv IH]; simpl; [constructor|].
  case_bool_decide; constructor; (lia || done).
Qed.

Lemma next_index_offset (ds idx : list Z) :
  valid_index ds idx → offset ds idx + 1 < prodZ ds →
  offset ds (next_index ds idx) = offset ds idx + 1.
Proof.
  induction 1 as [|d i ds idx Hi Hv IH]; simpl; intros Hlt.
  - unfold prodZ in Hlt; simpl in Hlt; lia.
  - rewrite prodZ_cons in Hlt.
    case_bool_decide; simpl; [lia|].
    assert (i = d - 1) by lia. subst i.
    rewrite IH; nia.
Qed.

Lemma IndexToOffset_ok (dm ix : Z → result Z) (ds idx : list Z) :
  views dm ds → views ix idx → valid_index ds idx →
  prodZ ds < 2 ^ SIZE_WIDTH →
  IndexToOffset (Z.of_nat (length ds)) dm ix = Ok (offset ds idx).
Proof.
  intros Hdm Hix Hv Hsz. unfold IndexToOffset.
  pose proof (valid_index_length _ _ Hv) as Hlen.
  assert (Hpos : Forall (fun d => 0 < d) ds).
  { clear -Hv. induction Hv; constructor; [lia|done]. }
  destruct (for_range_inv
    (fun i (st : Z * Z) =>
       st.1 = offset (take (Z.to_nat i) ds) (take (Z.to_nat i) idx)
       ∧ st.2 = prodZ (take (Z.to_nat i) ds))
    0 (Z.of_nat (length ds))
    (fun i '(offset, dimfac) =>
       x ← ix i; d ← dm i;
       Ok (wrap (offset + wrap (dimfac * x)), wrap (dimfac * d)))
    (0, 1)) as ([o f] & -> & Ho & Hf); [lia|done| |].
  - intros i [o f] Hi [Ho Hf]. simpl in Ho, Hf.
    destruct (lookup_lt_is_Some_2 ds (Z.to_nat i)) as [d Hd]; [lia|].
    destruct (lookup_lt_is_Some_2 idx (Z.to_nat i)) as [x Hx]; [lia|].
    rewrite (views_at ix idx i x), (views_at dm ds i d) by (done || lia).
    simpl. eexists; split; [done|]. simpl.
    replace (Z.to_nat (i + 1)) with (S (Z.to_nat i)) by lia.
    pose proof (valid_index_lookup _ _ _ _ _ Hv Hd Hx) as Hxd.
    pose proof (prodZ_take_le ds (Z.to_nat i) Hpos) as Hp0.
    pose proof (prodZ_take_le ds (S (Z.to_nat i)) Hpos) as Hp1.
    assert (Hvt : valid_index (take (S (Z.to_nat i)) ds)
                              (take (S (Z.to_nat i)) idx))
      by (by apply Forall2_take).
    apply offset_bound in Hvt.
    assert (Hvt0 : valid_index (take (Z.to_nat i) ds) (take (Z.to_nat i) idx))
      by (by apply Forall2_take).
    apply offset_bound in Hvt0.
    rewrite (offset_take_S _ _ _ _ _ Hlen Hd Hx) in Hvt |- *.
    rewrite (prodZ_take_S _ _ _ Hd) in Hp1 |- *.
    subst o f.
    rewrite (wrap_small (_ * x)) by nia.
    rewrite !wrap_small by nia. done.
  - simpl in Ho, Hf. simpl. rewrite Ho, Nat2Z.id.
    rewrite !firstn_all2 by lia. done.
Qed.

Lemma NextIndex_loop_ok (dm : Z → result Z) (ds : list Z) (off : Z) :
  views dm ds →
  Forall (fun d => d < 2 ^ SIZE_WIDTH) ds →
  ∀ (dsfx sfx pre : list Z) (i : nat),
    drop i ds = dsfx →
    valid_index dsfx sfx →
    Z.of_nat (length pre) = off + Z.of_nat i →
    NextIndex_loop (length dsfx) (Z.of_nat i) dm off (pre ++ sfx)
    = Ok (pre ++ next_index dsfx sfx).
Proof.
  intros Hdm Hsm dsfx sfx pre i Hdrop Hv. revert pre i Hdrop.
  induction Hv as [|d x dsfx sfx Hx Hv IH]; intros pre i Hdrop Hpre;
    simpl; [done|].
  assert (Hd : ds !! i = Some d).
  { rewrite <- (Nat.add_0_r i), <- lookup_drop, Hdrop. done. }
  assert (Hpos : Z.to_nat (off + Z.of_nat i) = (length pre + 0)%nat) by lia.
  rewrite (rd_Some _ _ x);
    [|lia|by apply list_lookup_middle; lia].
  simpl. rewrite wr_Some by (rewrite length_app; simpl; lia).
  simpl. rewrite (Hdm _ _ Hd). simpl.
  rewrite Hpos, insert_app_r. simpl.
  pose proof (Forall_lookup_1 _ _ _ _ Hsm Hd) as Hdsm. simpl in Hdsm.
  rewrite !wrap_small by lia.
  case_bool_decide; [done|].
  rewrite wr_Some by (rewrite length_app; simpl; lia).
  simpl. rewrite Hpos, insert_app_r. simpl.
  replace (Z.of_nat i + 1) with (Z.of_nat (S i)) by lia.
  rewrite (cons_middle 0 pre), app_assoc.
  rewrite IH.
  - by rewrite <- app_assoc.
  - replace (S i) with (i + 1)%nat by lia.
    by rewrite <- (drop_drop ds 1 i), Hdrop.
  - rewrite length_app. simpl. lia.
Qed.

(** ** Permutations of the axes *)

Lemma is_perm_range (n : Z) (perm : list Z) (k : nat) (p : Z) :
  is_perm n perm → perm !! k = Some p → 0 ≤ p < n.
Proof.
  intros (_ & _ & Hr) Hk.
  exact (Forall_lookup_1 _ _ _ _ Hr Hk).
Qed.

Lemma is_perm_inj (n : Z) (perm : list Z) (k k' : nat) (p : Z) :
  is_perm n perm → perm !! k = Some p → perm !! k' = Some p → k = k'.
Proof. intros (_ & Hnd & _). by apply NoDup_lookup. Qed.

Lemma is_perm_Permutation (n : Z) (perm : list Z) :
  is_perm n perm → perm ≡ₚ seqZ 0 n.
Proof.
  intros (Hlen & Hnd & Hr).
  apply submseteq_length_Permutation.
  - apply NoDup_submseteq; [done|].
    intros p Hp. apply elem_of_seqZ.
    rewrite Forall_forall in Hr. specialize (Hr p Hp). lia.
  - rewrite length_seqZ. lia.
Qed.

Lemma is_perm_surj (n : Z) (perm : list Z) (q : Z) :
  is_perm n perm → 0 ≤ q < n → ∃ k : nat, perm !! k = Some q.
Proof.
  intros Hp Hq. apply list_elem_of_lookup.
  rewrite (is_perm_Permutation _ _ Hp). apply elem_of_seqZ. lia.
Qed.

Lemma permuted_inj_r {A} (n : Z) (perm : list Z) (i x x' : list A) :
  is_perm n perm → Z.of_nat (length i) = n →
  permuted perm i x → permuted perm i x' → x = x'.
Proof.
  intros Hp Hn [Hl1 H1] [Hl2 H2]. apply list_eq. intros q.
  destruct (decide (q < length i)%nat) as [Hq|Hq].
  - destruct (is_perm_surj n perm (Z.of_nat q) Hp) as [k Hk]; [lia|].
    specialize (H1 _ _ Hk). specialize (H2 _ _ Hk).
    rewrite Nat2Z.id in H1, H2. congruence.
  - rewrite !lookup_ge_None_2 by lia. done.
Qed.

Lemma permuted_inj_l {A} (n : Z) (perm : list Z) (i i' x : list A) :
  is_perm n perm → Z.of_nat (length i) = n → length i' = length i →
  permuted perm i x → permuted perm i' x → i = i'.
Proof.
  intros Hp Hn Hl' [Hl1 H1] [Hl2 H2]. apply list_eq. intros k.
  destruct (decide (k < length i)%nat) as [Hk|Hk].
  - destruct Hp as (Hlen & _).
    destruct (lookup_lt_is_Some_2 perm k) as [p Hpk]; [lia|].
    rewrite <- (H1 _ _ Hpk), <- (H2 _ _ Hpk). done.
  - rewrite !lookup_ge_None_2 by lia. done.
Qed.

Lemma permuted_valid (n : Z) (perm ds rds i x : list Z) :
  is_perm n perm → Z.of_nat (length ds) = n →
  permuted perm ds rds → valid_index ds i → permuted perm i x →
  valid_index rds x.
Proof.
  intros Hp Hn [Hl1 H1] Hv [Hl2 H2].
  pose proof (valid_index_length _ _ Hv) as Hli.
  apply Forall2_same_length_lookup. split; [lia|].
  intros q d v Hd Hx.
  destruct (is_perm_surj n perm (Z.of_nat q) Hp) as [k Hk].
  { apply lookup_lt_Some in Hd. lia. }
  specialize (H1 _ _ Hk). specialize (H2 _ _ Hk).
  rewrite Nat2Z.id in H1, H2. rewrite Hd in H1. rewrite Hx in H2.
  eapply valid_index_lookup; eauto.
Qed.

Lemma prodZ_Permutation (l1 l2 : list Z) : l1 ≡ₚ l2 → prodZ l1 = prodZ l2.
Proof.
  induction 1 as [|d l1 l2 _ IH|d d' l|l1 l2 l3 _ IH1 _ IH2];
    rewrite ?prodZ_cons; [done|by rewrite IH|lia|congruence].
Qed.

Lemma permuted_Permutation (n : Z) (perm ds rds : list Z) :
  is_perm n perm → Z.of_nat (length ds) = n →
  permuted perm ds rds → rds ≡ₚ ds.
Proof.
  intros Hp Hn [Hl H].
  set (g := fun p : Z => default 0 (rds !! Z.to_nat p)).
  assert (Hds : ds = g <$> perm).
  { apply list_eq. intros k. rewrite list_lookup_fmap.
    destruct (perm !! k) as [p|] eqn:Hk; simpl.
    - unfold g. rewrite (H _ _ Hk).
      destruct (lookup_lt_is_Some_2 ds k) as [d Hd]; [|by rewrite Hd].
      apply lookup_lt_Some in Hk. destruct Hp as (Hlen & _). lia.
    - apply lookup_ge_None_2. apply lookup_ge_None_1 in Hk.
      destruct Hp as (Hlen & _). lia. }
  assert (Hrds : rds = g <$> seqZ 0 n).
  { apply list_eq. intros q. rewrite list_lookup_fmap.
    destruct (decide (Z.of_nat q < n)) as [Hq|Hq].
    - rewrite lookup_seqZ_lt by done. simpl. unfold g.
      rewrite Z.add_0_l, Nat2Z.id.
      destruct (lookup_lt_is_Some_2 rds q) as [d Hd]; [lia|by rewrite Hd].
    - rewrite lookup_seqZ_ge by lia. simpl.
      apply lookup_ge_None_2. lia. }
  rewrite Hds, Hrds. apply fmap_Permutation. symmetry.
  by apply is_perm_Permutation.
Qed.

Lemma permuted_prodZ (n : Z) (perm ds rds : list Z) :
  is_perm n perm → Z.of_nat (length ds) = n →
  permuted perm ds rds → prodZ rds = prodZ ds.
Proof. intros. apply prodZ_Permutation. by eapply permuted_Permutation. Qed.

Lemma permuted_pos (n : Z) (perm ds rds : list Z) :
  is_perm n perm → Z.of_nat (length ds) = n →
  permuted perm ds rds → Forall (fun d => 0 < d) ds →
  Forall (fun d => 0 < d) rds.
Proof.
  intros Hp Hn Hpm Hpos.
  by rewrite (permuted_Permutation _ _ _ _ Hp Hn Hpm).
Qed.

(** the loops [for (i = 0; i < n; i++) dst[perm[i]] = src[i]] *)
Lemma scatter_loop (n : Z) (perm : list Z) (vals : list Z)
    (body : Z → list Z → result (list Z)) (acc0 : list Z) :
  is_perm n perm →
  Z.of_nat (length vals) = n →
  Z.of_nat (length acc0) = n →
  (∀ (i : nat) p v acc,
      perm !! i = Some p → vals !! i = Some v → Z.of_nat (length acc) = n →
      body (Z.of_nat i) acc = Ok (<[Z.to_nat p := v]> acc)) →
  ∃ acc, for_range 0 n body acc0 = Ok acc ∧ permuted perm vals acc.
Proof.
  intros Hp Hvals Hacc Hbody.
  destruct (for_range_inv
    (fun i acc => Z.of_nat (length acc) = n ∧
       ∀ (k : nat) p, Z.of_nat k < i → perm !! k = Some p →
                      acc !! Z.to_nat p = vals !! k)
    0 n body acc0) as (acc & Hrun & Hlen & Hacc').
  - lia.
  - split; [done|]. intros; lia.
  - intros i acc Hi [Hlen IH].
    destruct (lookup_lt_is_Some_2 perm (Z.to_nat i)) as [p Hpi].
    { destruct Hp as (Hl & _). lia. }
    destruct (lookup_lt_is_Some_2 vals (Z.to_nat i)) as [v Hvi]; [lia|].
    pose proof (Hbody _ _ _ _ Hpi Hvi Hlen) as Hb.
    rewrite Z2Nat.id in Hb by lia.
    eexists; split; [exact Hb|].
    pose proof (is_perm_range _ _ _ _ Hp Hpi) as Hpr.
    split; [by rewrite length_insert|].
    intros k q Hk Hq.
    destruct (decide (k = Z.to_nat i)) as [->|Hne].
    + rewrite Hpi in Hq. injection Hq as <-.
      rewrite list_lookup_insert_eq by lia. done.
    + rewrite list_lookup_insert_ne.
      * apply IH; [lia|done].
      * intros Heq.
        pose proof (is_perm_range _ _ _ _ Hp Hq) as Hqr.
        assert (p = q) by lia. subst q.
        apply Hne. by eapply is_perm_inj.
  - exists acc. split; [done|]. split; [lia|].
    intros k p Hk. apply Hacc'; [|done].
    apply lookup_lt_Some in Hk. destruct Hp as (Hl & _). lia.
Qed.

Lemma permuted_exists (n : Z) (perm vals : list Z) :
  is_perm n perm → Z.of_nat (length vals) = n → ∃ x, permuted perm vals x.
Proof.
  intros Hp Hn.
  destruct (scatter_loop n perm vals
              (fun i acc => p ← rd perm i; v ← rd vals i; wr acc p v)
              (replicate (Z.to_nat n) 0)) as (x & _ & Hx); eauto.
  - rewrite length_replicate. lia.
  - intros i p v acc Hpi Hv Hacc.
    rewrite (views_rd _ _ _ Hpi). simpl.
    rewrite (views_rd _ _ _ Hv). simpl.
    pose proof (is_perm_range _ _ _ _ Hp Hpi).
    apply wr_Some. lia.
Qed.

Lemma permuted_insert {A} (n : Z) (perm : list Z) (i x : list A) (k0 : nat)
    (p0 : Z) (v : A) :
  is_perm n perm → perm !! k0 = Some p0 → permuted perm i x →
  permuted perm (<[k0 := v]> i) (<[Z.to_nat p0 := v]> x).
Proof.
  intros Hp Hk0 [Hl H]. split; [by rewrite !length_insert|].
  intros k p Hk.
  destruct (decide (k = k0)) as [->|Hne].
  - assert (p = p0) by congruence. subst p.
    pose proof (H _ _ Hk0) as Hx.
    destruct (i !! k0) as [a|] eqn:Hi.
    + apply lookup_lt_Some in Hx, Hi.
      rewrite !list_lookup_insert_eq by lia. done.
    + apply lookup_ge_None_1 in Hx, Hi.
      rewrite !list_insert_ge by lia.
      rewrite !lookup_ge_None_2 by lia. done.
  - rewrite (list_lookup_insert_ne i) by done.
    rewrite list_lookup_insert_ne; [by apply H|].
    intros Heq.
    pose proof (is_perm_range _ _ _ _ Hp Hk).
    pose proof (is_perm_range _ _ _ _ Hp Hk0).
    assert (p = p0) by lia. subst p.
    apply Hne. by eapply is_perm_inj.
Qed.

(** ** AllocateTensor *)

Lemma AllocateTensor_ok (ds : list Z) :
  ds ≠ [] → Forall (fun d => 0 < d) ds → prodZ ds < 2 ^ SIZE_WIDTH →
  AllocateTensor (Z.of_nat (length ds)) ds
  = Ok {| ndim := Z.of_nat (length ds); dim := Live ds;
          data := Live (replicate (Z.to_nat (prodZ ds)) c0) |}.
Proof.
  intros Hne Hpos Hsz. unfold AllocateTensor.
  assert (0 < length ds)%nat by (destruct ds; [done|simpl; lia]).
  rewrite assert_true by lia. simpl.
  rewrite bool_decide_eq_true_2 by lia.
  rewrite bool_decide_eq_true_2 by lia. simpl.
  rewrite Nat2Z.id, take_ge by lia.
  unfold NumTensorElements. cbn [ndim dim].
  rewrite (IntProduct_ok (rdp (Live ds)) ds) by (done || apply views_rdp).
  simpl. rewrite take_ge by lia.
  rewrite assert_true by (by apply prodZ_pos). done.
Qed.

(** ** TransposeTensor *)

Section Transpose.

Variables (perm : list Z) (t r : tensor_t).
Variables (d0 : Z) (tl rds : list Z) (xs : list C) (p0 : Z).
Hypothesis Ht : is_tensor t (d0 :: tl) xs.
Hypothesis Hperm : is_perm (ndim t) perm.
Hypothesis Hrds : permuted perm (d0 :: tl) rds.
Hypothesis Hrn : ndim r = ndim t.
Hypothesis Hrd : dim r = Live rds.
Hypothesis Hp0 : perm !! 0%nat = Some p0.

Local Lemma tr_len : Z.of_nat (length (d0 :: tl)) = ndim t.
Proof. symmetry. apply Ht. Qed.

Local Lemma tr_prod : prodZ rds = prodZ (d0 :: tl).
Proof. eapply permuted_prodZ; [exact Hperm|exact tr_len|exact Hrds]. Qed.

Local Lemma tr_small : prodZ (d0 :: tl) < 2 ^ SIZE_WIDTH.
Proof. exact (it_size _ _ _ Ht). Qed.

Local Lemma tr_d0 : 0 < d0.
Proof. pose proof (it_pos _ _ _ Ht) as H. by inversion H. Qed.

Local Lemma tr_tl : Forall (fun d => 0 < d) tl.
Proof. pose proof (it_pos _ _ _ Ht) as H. by inversion H. Qed.

(** the copy loop along the first axis *)
Lemma copy_loop_ok (k : Z) (it ir : list Z) (rdata : list C) :
  valid_index tl it → offset tl it = k →
  permuted perm (0 :: it) ir →
  copied_upto perm (d0 :: tl) rds xs (k * d0) rdata →
  ∃ rdata',
    for_range 0 d0
      (fun j rdata =>
         x ← rdp (data t) (wrap (k * d0 + j));
         wr rdata
            (wrap (offset rds ir
                   + wrap (j * prodZ (take (Z.to_nat p0) rds)))) x)
      rdata = Ok rdata'
    ∧ copied_upto perm (d0 :: tl) rds xs (k * d0 + d0) rdata'.
Proof.
  intros Hit Hk Hir Hcp.
  pose proof tr_len as Hlen. pose proof tr_prod as Hprod.
  pose proof tr_small as Hsmall. pose proof tr_d0 as Hd0.
  pose proof (offset_bound _ _ Hit) as Hkb. rewrite Hk in Hkb.
  rewrite prodZ_cons in Hsmall, Hprod.
  apply (for_range_inv
           (fun j rdata =>
              copied_upto perm (d0 :: tl) rds xs (k * d0 + j) rdata));
    [lia|by rewrite Z.add_0_r|].
  intros j rd0 Hj [Hrl Hcpj].
  (* the source entry *)
  assert (Hvj : valid_index (d0 :: tl) (j :: it)) by (by constructor).
  assert (Hoj : offset (d0 :: tl) (j :: it) = k * d0 + j)
    by (simpl; lia).
  pose proof (offset_bound _ _ Hvj) as Hob.
  rewrite Hoj, prodZ_cons in Hob.
  destruct (lookup_lt_is_Some_2 xs (Z.to_nat (k * d0 + j))) as [c Hc].
  { pose proof (it_len _ _ _ Ht) as Hxl. rewrite prodZ_cons in Hxl. lia. }
  simpl. rewrite (wrap_small (k * d0 + j)) by lia.
  unfold rdp. rewrite (it_data _ _ _ Ht). simpl.
  rewrite (rd_Some _ _ c) by (done || lia). simpl.
  (* the destination *)
  pose proof (permuted_insert _ _ _ _ 0%nat p0 j Hperm Hp0 Hir) as Hxj.
  simpl in Hxj.
  set (xj := <[Z.to_nat p0 := j]> ir) in *.
  assert (Hvx : valid_index rds xj)
    by exact (permuted_valid _ _ _ _ _ _ Hperm Hlen Hrds Hvj Hxj).
  assert (Hvi0 : valid_index (d0 :: tl) (0 :: it))
    by (constructor; [lia|done]).
  assert (Hvr : valid_index rds ir)
    by exact (permuted_valid _ _ _ _ _ _ Hperm Hlen Hrds Hvi0 Hir).
  assert (Hir0 : ir !! Z.to_nat p0 = Some 0).
  { destruct Hir as [_ Hir]. by rewrite (Hir _ _ Hp0). }
  assert (Hox : offset rds xj
                = offset rds ir + j * prodZ (take (Z.to_nat p0) rds)).
  { unfold xj. rewrite (offset_insert _ _ _ _ 0).
    - lia.
    - by apply valid_index_length.
    - done. }
  pose proof (offset_bound _ _ Hvx) as Hxb.
  pose proof (offset_bound _ _ Hvr) as Hrb.
  pose proof (prodZ_take_le rds (Z.to_nat p0)
                (permuted_pos _ _ _ _ Hperm Hlen Hrds (it_pos _ _ _ Ht)))
    as Hst.
  rewrite (wrap_small (j * _)) by nia.
  rewrite <- Hox. rewrite wrap_small by lia.
  rewrite wr_Some by (rewrite prodZ_cons in *; lia).
  eexists; split; [done|].
  split; [by rewrite length_insert|].
  intros i x Hvi Hpx Hlt. unfold entry.
  destruct (decide (offset (d0 :: tl) i = k * d0 + j)) as [Heq|Hne].
  - assert (i = j :: it)
      by (apply (offset_inj (d0 :: tl)); [done|done|lia]).
    subst i.
    assert (x = xj).
    { pose proof (valid_index_length _ _ Hvj) as Hlj.
      apply (permuted_inj_r (ndim t) perm (j :: it)); [done|lia|done|done]. }
    subst x. rewrite Heq, Hc.
    apply list_lookup_insert_eq. rewrite prodZ_cons in *. lia.
  - rewrite list_lookup_insert_ne.
    + apply Hcpj; [done|done|lia].
    + intros Heq.
      assert (Hvx' : valid_index rds x)
        by exact (permuted_valid _ _ _ _ _ _ Hperm Hlen Hrds Hvi Hpx).
      pose proof (offset_bound _ _ Hvx').
      assert (xj = x) by (apply (offset_inj rds); [done|done|lia]).
      subst x.
      assert (i = j :: it).
      { pose proof (valid_index_length _ _ Hvi) as Hli.
        pose proof (valid_index_length _ _ Hvj) as Hlj.
        apply (permuted_inj_l (ndim t) perm i (j :: it) xj);
          [done|lia|lia|done|done]. }
      subst i. lia.
Qed.

Local Lemma tr_tl_small : Forall (fun d => d < 2 ^ SIZE_WIDTH) tl.
Proof.
  apply Forall_lookup_2. intros i d Hd.
  pose proof (prodZ_lookup_le _ _ _ tr_tl Hd).
  pose proof tr_small as Hs. rewrite prodZ_cons in Hs.
  pose proof tr_d0. nia.
Qed.

Local Lemma tr_rds_len : Z.of_nat (length rds) = ndim t.
Proof. destruct Hrds as [-> _]. exact tr_len. Qed.

(** the loop over the positions of the remaining axes *)
Lemma transpose_loop_ok :
  ∀ (rem : nat) (k : Z) (fuel : nat) (it ir : list Z) (rdata : list C),
    0 ≤ k → Z.of_nat rem = prodZ tl - k → (rem ≤ fuel)%nat →
    valid_index tl it → (k < prodZ tl → offset tl it = k) →
    Z.of_nat (length ir) = ndim t →
    copied_upto perm (d0 :: tl) rds xs (k * d0) rdata →
    ∃ rdata',
      transpose_loop fuel perm t r (prodZ (take (Z.to_nat p0) rds))
        (prodZ (d0 :: tl)) (k * d0) (0 :: it) ir rdata = Ok rdata'
      ∧ copied_upto perm (d0 :: tl) rds xs (prodZ (d0 :: tl)) rdata'.
Proof.
  pose proof tr_len as Hlen. pose proof tr_d0 as Hd0.
  pose proof tr_small as Hsmall. pose proof tr_rds_len as Hrl.
  induction rem as [|rem IH]; intros k fuel it ir rdata Hk Hrem Hfuel Hit Hoff
    Hirl Hcp.
  - assert (Hkd : k * d0 = prodZ (d0 :: tl)) by (rewrite prodZ_cons; nia).
    rewrite Hkd in *.
    exists rdata. split; [|done].
    destruct fuel; simpl; by rewrite bool_decide_eq_false_2 by lia.
  - destruct fuel as [|fuel]; [lia|].
    specialize (Hoff ltac:(lia)).
    simpl. rewrite bool_decide_eq_true_2 by (rewrite prodZ_cons; nia).
    (* the index in r *)
    assert (Hvi0 : valid_index (d0 :: tl) (0 :: it))
      by (constructor; [lia|done]).
    pose proof (valid_index_length _ _ Hvi0) as Hl0.
    destruct (scatter_loop (ndim t) perm (0 :: it)
                (fun i index_r =>
                   p ← rd perm i; v ← rd (0 :: it) i; wr index_r p v) ir)
      as (ir' & -> & Hir'); [done|lia|done| |].
    { intros i p v acc Hp Hv Hacc.
      rewrite (views_rd _ _ _ Hp). simpl.
      rewrite (views_rd _ _ _ Hv). simpl.
      pose proof (is_perm_range _ _ _ _ Hperm Hp).
      apply wr_Some. lia. }
    simpl.
    assert (Hvr : valid_index rds ir')
      by exact (permuted_valid _ _ _ _ _ _ Hperm Hlen Hrds Hvi0 Hir').
    rewrite Hrn, Hrd, <- Hrl.
    rewrite (IndexToOffset_ok _ _ rds ir');
      [|apply views_rdp|apply views_rd|done|rewrite tr_prod; exact Hsmall].
    simpl.
    (* the copy loop *)
    assert (Hdim : dim t = Live (d0 :: tl)) by (by apply (it_dim _ _ _ Ht)).
    assert (Hd0r : rdp (dim t) 0 = Ok d0) by (by rewrite Hdim).
    rewrite Hd0r. simpl.
    destruct (copy_loop_ok k it ir' rdata Hit Hoff Hir' Hcp)
      as (rdata' & -> & Hcp').
    simpl.
    (* the next index *)
    unfold NextIndex.
    replace (Z.to_nat (Z.of_nat (length rds) - 1)) with (length tl)
      by (rewrite Hrl, <- Hlen; simpl; lia).
    rewrite Hdim.
    pose proof (NextIndex_loop_ok (shift (rdp (Live (d0 :: tl))) 1) tl 1
                  ltac:(exact (views_shift _ (d0 :: tl) 1 (views_rdp _)))
                  tr_tl_small tl it [0] 0 eq_refl Hit eq_refl) as Hnx.
    change (Z.of_nat 0) with 0 in Hnx.
    change ([0] ++ it) with (0 :: it) in Hnx.
    rewrite Hnx. simpl.
    rewrite wrap_small by (rewrite prodZ_cons in Hsmall; nia).
    replace (k * d0 + d0) with ((k + 1) * d0) in * by lia.
    apply (IH (k + 1)); try lia; try done.
    + by apply next_index_valid.
    + intros Hlt. rewrite next_index_offset by (done || lia). lia.
    + destruct Hir' as [-> _]. lia.
Qed.

End Transpose.

Lemma NumTensorElements_ok (t : tensor_t) (ds : list Z) (xs : list C) :
  is_tensor t ds xs → NumTensorElements t = Ok (prodZ ds).
Proof.
  intros Ht. unfold NumTensorElements. rewrite (it_ndim _ _ _ Ht).
  destruct ds as [|d ds].
  - unfold IntProduct. by rewrite for_range_nil.
  - rewrite (it_dim _ _ _ Ht) by done.
    rewrite (IntProduct_ok _ (d :: ds)).
    + by rewrite take_ge.
    + apply views_rdp.
    + lia.
    + apply Ht.
    + apply Ht.
Qed.

Lemma valid_index_zeros (ds : list Z) :
  Forall (fun d => 0 < d) ds → valid_index ds (replicate (length ds) 0).
Proof. induction 1; simpl; constructor; (lia || done). Qed.

Lemma offset_zeros (ds : list Z) : offset ds (replicate (length ds) 0) = 0.
Proof. induction ds as [|d ds IH]; simpl; [done|]. rewrite IH. lia. Qed.

(** TransposeTensor on a tensor of rank at least 1 *)
Lemma TransposeTensor_ok (perm : list Z) (t : tensor_t) (ds : list Z)
    (xs : list C) :
  is_tensor t ds xs → ds ≠ [] → is_perm (ndim t) perm →
  ∃ rds rxs,
    TransposeTensor perm t
    = Ok {| ndim := ndim t; dim := Live rds; data := Live rxs |}
    ∧ permuted perm ds rds
    ∧ is_tensor {| ndim := ndim t; dim := Live rds; data := Live rxs |}
        rds rxs
    ∧ ∀ i x, valid_index ds i → permuted perm i x →
             entry rxs rds x = entry xs ds i.
Proof.
  intros Ht Hne Hperm.
  destruct ds as [|d0 tl]; [done|].
  pose proof (it_ndim _ _ _ Ht) as Hn.
  pose proof (it_pos _ _ _ Ht) as Hpos.
  pose proof (tr_small t d0 tl xs Ht) as Hsmall.
  assert (Hdim : dim t = Live (d0 :: tl)) by (by apply (it_dim _ _ _ Ht)).
  unfold TransposeTensor.
  (* dimensions of r *)
  destruct (scatter_loop (ndim t) perm (d0 :: tl)
              (fun i rdim =>
                 p ← rd perm i;
                 assert (bool_decide (0 ≤ p < ndim t));;
                 d ← rdp (dim t) i;
                 wr rdim p d)
              (algn_malloc 0 (ndim t)))
    as (rds & -> & Hrds); [done|lia| | |].
  { unfold algn_malloc. rewrite length_replicate. lia. }
  { intros i p v acc Hp Hv Hacc.
    rewrite (views_rd _ _ _ Hp). simpl.
    pose proof (is_perm_range _ _ _ _ Hperm Hp).
    rewrite assert_true by done. simpl.
    rewrite Hdim, (views_rdp _ _ _ Hv). simpl.
    apply wr_Some. lia. }
  simpl.
  pose proof (permuted_prodZ _ _ _ _ Hperm (eq_sym Hn) Hrds) as Hprod.
  pose proof (permuted_pos _ _ _ _ Hperm (eq_sym Hn) Hrds Hpos) as Hrpos.
  assert (Hrl : ndim t = Z.of_nat (length rds)).
  { destruct Hrds as [-> _]. done. }
  pose proof (AllocateTensor_ok rds) as Hal. rewrite <- Hrl in Hal.
  rewrite Hal; [|destruct rds; [simpl in *; lia|done]|done|lia].
  clear Hal. simpl.
  (* the stride *)
  destruct (lookup_lt_is_Some_2 perm 0) as [p0 Hp0].
  { destruct Hperm as (Hl & _). simpl in *. lia. }
  rewrite (rd_Some _ _ p0) by done. simpl.
  pose proof (is_perm_range _ _ _ _ Hperm Hp0) as Hp0r.
  pose proof (IntProduct_ok (rdp (Live rds)) rds (Z.to_nat p0)
                (views_rdp _) ltac:(lia) Hrpos ltac:(lia)) as Hst.
  rewrite Z2Nat.id in Hst by lia. rewrite Hst. clear Hst.
  simpl.
  rewrite (NumTensorElements_ok _ _ _ Ht). simpl.
  (* the copy *)
  set (r := {| ndim := ndim t; dim := Live rds;
               data := Live (replicate (Z.to_nat (prodZ rds)) c0) |}).
  assert (Hz : algn_calloc 0 (ndim t) = 0 :: replicate (length tl) 0).
  { unfold algn_calloc. rewrite Hn, Nat2Z.id. done. }
  rewrite Hz.
  destruct (transpose_loop_ok perm t r d0 tl rds xs p0 Ht Hperm Hrds
              eq_refl eq_refl Hp0
              (Z.to_nat (prodZ tl)) 0 (Z.to_nat (prodZ (d0 :: tl)))
              (replicate (length tl) 0) (algn_malloc 0 (ndim t))
              (replicate (Z.to_nat (prodZ rds)) c0))
    as (rxs & Hloop & Hlen & Hcp).
  - lia.
  - inversion Hpos; subst. pose proof (prodZ_pos tl ltac:(done)). lia.
  - inversion Hpos; subst. pose proof (prodZ_pos tl ltac:(done)).
    rewrite prodZ_cons. nia.
  - apply valid_index_zeros. by inversion Hpos.
  - intros _. apply offset_zeros.
  - unfold algn_malloc. rewrite length_replicate. lia.
  - split.
    + rewrite length_replicate.
      pose proof (prodZ_pos _ Hrpos). lia.
    + intros i x Hi _ Hlt. pose proof (offset_bound _ _ Hi). lia.
  - change (0 * d0) with 0 in Hloop. rewrite Hloop. simpl.
    exists rds, rxs.
    split; [done|]. split; [done|]. split.
    + constructor; simpl; try done.
      * pose proof (it_rank _ _ _ Ht). lia.
      * lia.
      * lia.
    + intros i x Hi Hx. apply Hcp; [done|done|].
      apply offset_bound. done.
Qed.

Lemma entry_is_Some (t : tensor_t) (ds : list Z) (xs : list C) (i : list Z) :
  is_tensor t ds xs → valid_index ds i → is_Some (entry xs ds i).
Proof.
  intros Ht Hi. unfold entry. apply lookup_lt_is_Some_2.
  pose proof (offset_bound _ _ Hi). pose proof (it_len _ _ _ Ht). lia.
Qed.

Lemma is_tensor_eta (t : tensor_t) (ds : list Z) (xs : list C) :
  is_tensor t ds xs → ds ≠ [] →
  t = {| ndim := Z.of_nat (length ds); dim := Live ds; data := Live xs |}.
Proof.
  intros Ht Hne. destruct t as [n d a].
  pose proof (it_ndim _ _ _ Ht). pose proof (it_dim _ _ _ Ht Hne).
  pose proof (it_data _ _ _ Ht). simpl in *. by subst.
Qed.

(** C2 (as amended): for every tensor T of rank at least 1 and every
    permutation perm of its axes, TransposeTensor returns a tensor R of the
    same rank with R.dim[perm[k]] = T.dim[k] and R[x] = T[i] for every
    multi-index i of T, where x[perm[k]] = i[k]; such an x exists for every
    i and is a multi-index of R.  For T of shape (2,3) with
    column-major data [x1,...,x6] and perm = (1,0), R has shape (3,2) and
    data [x1,x3,x5,x2,x4,x6]. *)
Theorem TransposeTensor_correct :
  (∀ (perm : list Z) (t : tensor_t) (ds : list Z) (xs : list C),
      is_tensor t ds xs → 1 ≤ ndim t → is_perm (ndim t) perm →
      ∃ r rds rxs,
        TransposeTensor perm t = Ok r
        ∧ is_tensor r rds rxs
        ∧ ndim r = ndim t
        ∧ (∀ (k : nat) p, perm !! k = Some p → rds !! Z.to_nat p = ds !! k)
        ∧ (∀ i x, valid_index ds i → permuted perm i x →
                  is_Some (entry xs ds i)
                  ∧ entry rxs rds x = entry xs ds i)
        ∧ (∀ i, valid_index ds i →
                ∃ x, permuted perm i x ∧ valid_index rds x))
  ∧ (∀ x1 x2 x3 x4 x5 x6 : C,
        TransposeTensor [1; 0]
          {| ndim := 2; dim := Live [2; 3];
             data := Live [x1; x2; x3; x4; x5; x6] |}
        = Ok {| ndim := 2; dim := Live [3; 2];
                data := Live [x1; x3; x5; x2; x4; x6] |}).
Proof.
  split.
  - intros perm t ds xs Ht Hrank Hperm.
    assert (Hne : ds ≠ []).
    { intros ->. pose proof (it_ndim _ _ _ Ht). simpl in *. lia. }
    destruct (TransposeTensor_ok perm t ds xs Ht Hne Hperm)
      as (rds & rxs & Hrun & Hrds & Hr & Hent).
    eexists _, rds, rxs. split; [exact Hrun|].
    split; [exact Hr|]. split; [done|]. split; [apply Hrds|]. split.
    + intros i x Hi Hx. split; [by eapply entry_is_Some|by apply Hent].
    + intros i Hi.
      pose proof (it_ndim _ _ _ Ht) as Hn.
      pose proof (valid_index_length _ _ Hi) as Hli.
      destruct (permuted_exists (ndim t) perm i Hperm ltac:(lia)) as [x Hx].
      exists x. split; [done|].
      by apply (permuted_valid (ndim t) perm ds rds i x).
  - intros. vm_compute. reflexivity.
Qed.

(** ** Transposing back *)

Lemma inverse_perm_is_perm (n : Z) (perm pinv : list Z) :
  is_perm n perm → inverse_perm perm pinv → is_perm n pinv.
Proof.
  intros Hp [Hl Hinv].
  assert (Hq : ∀ (q : nat) k, pinv !! q = Some k →
                 0 ≤ k ∧ perm !! Z.to_nat k = Some (Z.of_nat q)).
  { intros q k Hk.
    destruct (is_perm_surj n perm (Z.of_nat q) Hp) as [k' Hk'].
    { apply lookup_lt_Some in Hk. destruct Hp as (Hlen & _). lia. }
    pose proof (Hinv _ _ Hk') as Hk''. rewrite Nat2Z.id, Hk in Hk''.
    injection Hk'' as ->. rewrite Nat2Z.id. split; [lia|done]. }
  split; [|split].
  - destruct Hp as (Hlen & _). lia.
  - apply NoDup_alt. intros q q' k Hk Hk'.
    destruct (Hq _ _ Hk) as [_ H1]. destruct (Hq _ _ Hk') as [_ H2].
    rewrite H1 in H2. injection H2. lia.
  - apply Forall_lookup_2. intros q k Hk.
    destruct (Hq _ _ Hk) as [Hk0 H1].
    apply lookup_lt_Some in H1. destruct Hp as (Hlen & _). lia.
Qed.

Lemma permuted_back {A} (n : Z) (perm pinv : list Z) (i x : list A) :
  is_perm n perm → inverse_perm perm pinv → Z.of_nat (length i) = n →
  permuted perm i x → permuted pinv x i.
Proof.
  intros Hp [Hl Hinv] Hn [Hlx Hx]. split; [done|].
  intros q k Hk.
  destruct (is_perm_surj n perm (Z.of_nat q) Hp) as [k' Hk'].
  { apply lookup_lt_Some in Hk. destruct Hp as (Hlen & _). lia. }
  pose proof (Hinv _ _ Hk') as Hk''. rewrite Nat2Z.id, Hk in Hk''.
  injection Hk'' as ->. rewrite Nat2Z.id.
  rewrite <- (Hx _ _ Hk'). by rewrite Nat2Z.id.
Qed.

(** X20: TransposeTensor with the inverse permutation undoes TransposeTensor,
    for rank at least 1 *)
Lemma TransposeTensor_roundtrip (perm pinv : list Z) (t : tensor_t)
    (ds : list Z) (xs : list C) :
  is_tensor t ds xs → 1 ≤ ndim t →
  is_perm (ndim t) perm → inverse_perm perm pinv →
  ∃ r, TransposeTensor perm t = Ok r ∧ TransposeTensor pinv r = Ok t.
Proof.
  intros Ht Hrank Hperm Hinv.
  assert (Hne : ds ≠ []).
  { intros ->. pose proof (it_ndim _ _ _ Ht). simpl in *. lia. }
  pose proof (it_ndim _ _ _ Ht) as Hn.
  destruct (TransposeTensor_ok perm t ds xs Ht Hne Hperm)
    as (rds & rxs & Hrun & Hrds & Hr & Hent).
  eexists. split; [exact Hrun|].
  pose proof (inverse_perm_is_perm _ _ _ Hperm Hinv) as Hpinv.
  assert (Hrne : rds ≠ []).
  { destruct Hrds as [Hl _]. destruct rds, ds; simpl in *; done. }
  destruct (TransposeTensor_ok pinv _ rds rxs Hr Hrne Hpinv)
    as (ds' & xs' & Hrun' & Hds' & Hr' & Hent').
  rewrite Hrun'. f_equal. simpl.
  assert (Hdd : ds' = ds).
  { apply (permuted_inj_r (ndim t) pinv rds); [done| |done|].
    - destruct Hrds as [-> _]. lia.
    - apply (permuted_back (ndim t) perm); [done|done|lia|done]. }
  subst ds'.
  assert (Hxx : xs' = xs).
  { apply list_eq. intros o.
    destruct (decide (Z.of_nat o < prodZ ds)) as [Ho|Ho].
    - pose proof (index_of_valid ds (Z.of_nat o) (it_pos _ _ _ Ht)) as Hvi.
      pose proof (valid_index_length _ _ Hvi) as Hli.
      assert (Hli' : Z.of_nat (length (index_of ds (Z.of_nat o))) = ndim t)
        by lia.
      destruct (permuted_exists (ndim t) perm (index_of ds (Z.of_nat o)))
        as [x Hx]; [done|done|].
      assert (Hvx : valid_index rds x).
      { eapply (permuted_valid (ndim t) perm ds); eauto. }
      pose proof (Hent' x (index_of ds (Z.of_nat o)) Hvx
                    (permuted_back _ _ _ _ _ Hperm Hinv Hli' Hx)) as H1.
      pose proof (Hent _ x Hvi Hx) as H2.
      unfold entry in H1, H2.
      rewrite offset_index_of in H1, H2 by (apply Ht || lia).
      rewrite Nat2Z.id in H1, H2. congruence.
    - rewrite !lookup_ge_None_2; [done| |].
      + pose proof (it_len _ _ _ Ht). lia.
      + pose proof (it_len _ _ _ Hr'). lia. }
  subst xs'. symmetry. rewrite Hn. by apply (is_tensor_eta t ds xs).
Qed.

(** C9 (the code at the failing input): for a rank-0 tensor and the empty
    permutation, which is its own inverse, the first TransposeTensor already
    fails, so transposing and transposing back does not return the tensor.
    For rank at least 1 the round trip returns the tensor
    ([TransposeTensor_roundtrip]). *)
Theorem TransposeTensor_roundtrip_rank0_fault (x : C) :
  let t := {| ndim := 0; dim := NULL; data := Live [x] |} in
  is_tensor t [] [x] ∧ is_perm (ndim t) [] ∧ inverse_perm [] [] ∧
  (r ← TransposeTensor [] t; TransposeTensor [] r) = Fault.
Proof.
  simpl. split; [|split; [|split]].
  - constructor; simpl; done.
  - split; [done|]. split; constructor.
  - split; [done|]. intros k p Hk. done.
  - reflexivity.
Qed.

(** ** Loops that fill an array *)

Lemma write_loop {A} (L : nat) (pos : Z → Z) (val : Z → A) (lo hi : Z)
    (body : Z → list A → result (list A)) (acc0 : list A) :
  lo ≤ hi → length acc0 = L →
  (∀ i, lo ≤ i < hi → 0 ≤ pos i < Z.of_nat L) →
  (∀ i i', lo ≤ i < hi → lo ≤ i' < hi → pos i = pos i' → i = i') →
  (∀ i acc, lo ≤ i < hi → length acc = L →
            body i acc = Ok (<[Z.to_nat (pos i) := val i]> acc)) →
  ∃ acc,
    for_range lo hi body acc0 = Ok acc
    ∧ length acc = L
    ∧ (∀ i, lo ≤ i < hi → acc !! Z.to_nat (pos i) = Some (val i))
    ∧ (∀ j : nat, (∀ i, lo ≤ i < hi → Z.of_nat j ≠ pos i) →
                  acc !! j = acc0 !! j).
Proof.
  intros Hle Hlen Hpos Hinj Hbody.
  destruct (for_range_inv
    (fun k acc =>
       length acc = L
       ∧ (∀ i, lo ≤ i < k → acc !! Z.to_nat (pos i) = Some (val i))
       ∧ (∀ j : nat, (∀ i, lo ≤ i < k → Z.of_nat j ≠ pos i) →
                     acc !! j = acc0 !! j))
    lo hi body acc0) as (acc & Hrun & Hacc); [done| | |by exists acc].
  - split; [done|]. split; [intros; lia|done].
  - intros k acc Hk (Hl & Hw & Hu).
    rewrite (Hbody k acc Hk Hl). eexists; split; [done|].
    pose proof (Hpos k Hk) as Hpk.
    split; [by rewrite length_insert|]. split.
    + intros i Hi. destruct (decide (i = k)) as [->|Hne].
      * apply list_lookup_insert_eq. lia.
      * rewrite list_lookup_insert_ne; [apply Hw; lia|].
        intros Heq. apply Hne. symmetry. apply Hinj; [lia|lia|].
        pose proof (Hpos i ltac:(lia)). lia.
    + intros j Hj. rewrite list_lookup_insert_ne.
      * apply Hu. intros i Hi. apply Hj. lia.
      * intros Heq. apply (Hj k); lia.
Qed.

(** ** IdentityTensor and TensorTrace *)

Lemma prodZ_replicate (n : Z) (r : nat) :
  prodZ (replicate r n) = n ^ Z.of_nat r.
Proof.
  induction r as [|r IH]; [done|].
  simpl replicate. rewrite prodZ_cons, IH, Nat2Z.inj_succ, Z.pow_succ_r by lia.
  done.
Qed.

Lemma geom_0 (n : Z) : geom n 0 = 0.
Proof. reflexivity. Qed.

Lemma geom_S (n : Z) (r : nat) : geom n (S r) = geom n r + n ^ Z.of_nat r.
Proof. reflexivity. Qed.

Lemma geom_succ (n : Z) (r : nat) : geom n (S r) = 1 + n * geom n r.
Proof.
  induction r as [|r IH]; [rewrite geom_S, geom_0; simpl; lia|].
  rewrite (geom_S n (S r)), Nat2Z.inj_succ, Z.pow_succ_r by lia.
  rewrite IH at 1. rewrite geom_S. lia.
Qed.

Lemma geom_closed (n : Z) (r : nat) : (n - 1) * geom n r = n ^ Z.of_nat r - 1.
Proof.
  induction r as [|r IH]; [rewrite geom_0; simpl; lia|].
  rewrite geom_S, Nat2Z.inj_succ, Z.pow_succ_r by lia. lia.
Qed.

Lemma geom_mono (n : Z) (k r : nat) :
  0 < n → (k ≤ r)%nat → 0 ≤ geom n k ≤ geom n r.
Proof.
  intros Hn Hk. induction Hk as [|r Hk IH].
  - split; [|lia]. induction k as [|k IHk]; [rewrite geom_0; lia|].
    rewrite geom_S. pose proof (Z.pow_pos_nonneg n (Z.of_nat k)). lia.
  - rewrite geom_S. pose proof (Z.pow_pos_nonneg n (Z.of_nat r)). lia.
Qed.

Lemma geom_bound (n : Z) (r : nat) :
  0 < n → (1 ≤ r)%nat → geom n r ≤ Z.max (Z.of_nat r) (n ^ Z.of_nat r - 1).
Proof.
  intros Hn Hr. destruct (decide (n = 1)) as [->|Hn1].
  - assert (geom 1 r = Z.of_nat r); [|lia].
    clear Hr. induction r as [|r IH]; [done|].
    rewrite geom_S, Z.pow_1_l by lia. lia.
  - pose proof (geom_closed n r).
    pose proof (geom_mono n 0 r Hn ltac:(lia)). rewrite geom_0 in *. nia.
Qed.

Lemma offset_diag (n j : Z) (r : nat) :
  offset (replicate r n) (replicate r j) = j * geom n r.
Proof.
  induction r as [|r IH]; [rewrite geom_0; simpl; lia|].
  simpl offset. rewrite IH, geom_succ. lia.
Qed.

Lemma valid_index_diag (n j : Z) (r : nat) :
  0 ≤ j < n → valid_index (replicate r n) (replicate r j).
Proof. intros Hj. induction r; simpl; constructor; done. Qed.

(** the loop that computes the stride, in IdentityTensor and TensorTrace *)
Lemma stride_loop_ok (t : tensor_t) (n : Z) (r : nat) (xs : list C) :
  is_tensor t (replicate (S r) n) xs →
  for_range 1 (ndim t)
    (fun i '(stride, dp) =>
       d ← rdp (dim t) i;
       assert (bool_decide (d = n));;
       let dp := wrap (dp * n) in
       Ok (wrap (stride + dp), dp))
    (1, 1)
  = Ok (geom n (S r), n ^ Z.of_nat r).
Proof.
  intros Ht.
  pose proof (it_pos _ _ _ Ht) as Hpos.
  assert (Hn : 0 < n) by (by inversion Hpos).
  pose proof (it_size _ _ _ Ht) as Hsz. rewrite prodZ_replicate in Hsz.
  pose proof (it_rank _ _ _ Ht) as Hrk. rewrite length_replicate in Hrk.
  rewrite (it_ndim _ _ _ Ht), length_replicate.
  rewrite (it_dim _ _ _ Ht) by done.
  destruct (for_range_inv
    (fun i (st : Z * Z) =>
       st.1 = geom n (Z.to_nat i) ∧ st.2 = n ^ (i - 1))
    1 (Z.of_nat (S r))
    (fun i '(stride, dp) =>
       d ← rdp (Live (replicate (S r) n)) i;
       assert (bool_decide (d = n));;
       let dp := wrap (dp * n) in
       Ok (wrap (stride + dp), dp))
    (1, 1)) as ([st dp] & -> & Hst & Hdp); [lia|done| |].
  - intros i [st dp] Hi [Hst Hdp]. simpl in Hst, Hdp. subst st dp.
    unfold rdp. simpl deref. simpl mbind.
    rewrite (rd_Some _ _ n);
      [|lia|apply (lookup_replicate_2 (S r) n); lia].
    simpl. rewrite assert_true by done. simpl.
    eexists; split; [done|]. simpl.
    replace (i + 1 - 1) with (Z.succ (i - 1)) by lia.
    rewrite Z.pow_succ_r by lia.
    assert (Hpw : 0 < n ^ (i - 1)) by (apply Z.pow_pos_nonneg; lia).
    assert (Hle : n * n ^ (i - 1) ≤ n ^ Z.of_nat r).
    { rewrite <- Z.pow_succ_r by lia. apply Z.pow_le_mono_r; lia. }
    assert (Hnr : n ^ Z.of_nat r ≤ n ^ Z.of_nat (S r))
      by (apply Z.pow_le_mono_r; lia).
    rewrite (wrap_small (n ^ (i - 1) * n)) by lia.
    replace (Z.to_nat (i + 1)) with (S (Z.to_nat i)) by lia.
    rewrite geom_S, Z2Nat.id by lia.
    pose proof (geom_mono n (S (Z.to_nat i)) (S r) Hn ltac:(lia)) as Hgm.
    pose proof (geom_bound n (S r) Hn ltac:(lia)) as Hgb.
    rewrite (geom_S n (Z.to_nat i)), Z2Nat.id in Hgm by lia.
    assert (Hni : n ^ i = n * n ^ (i - 1)).
    { replace i with (Z.succ (i - 1)) at 1 by lia.
      rewrite Z.pow_succ_r by lia. lia. }
    replace (n ^ (i - 1) * n) with (n ^ i) by lia.
    split; [|done]. apply wrap_small.
    unfold INT_MAX, SIZE_WIDTH in *. lia.
  - cbn [fst snd] in Hst, Hdp. rewrite Hst, Hdp, Nat2Z.id.
    do 3 f_equal. lia.
Qed.

Lemma geom_diag_bound (n j : Z) (r : nat) :
  0 ≤ j < n → (1 ≤ r)%nat →
  0 < geom n r ∧ 0 ≤ j * geom n r < n ^ Z.of_nat r.
Proof.
  intros Hj Hr.
  pose proof (geom_closed n r) as Hc.
  pose proof (geom_mono n 1 r ltac:(lia) Hr) as Hm.
  rewrite geom_S, geom_0 in Hm. simpl in Hm. nia.
Qed.

Lemma IdentityTensor_ok (t : tensor_t) (n : Z) (r : nat) (xs : list C) :
  is_tensor t (replicate (S r) n) xs →
  n ^ Z.of_nat (S r) * SIZEOF_COMPLEX < 2 ^ SIZE_WIDTH →
  ∃ xs',
    IdentityTensor t = Ok {| ndim := ndim t; dim := dim t; data := Live xs' |}
    ∧ length xs' = length xs
    ∧ (∀ j, 0 ≤ j < n → xs' !! Z.to_nat (j * geom n (S r)) = Some c1)
    ∧ (∀ o, 0 ≤ o < n ^ Z.of_nat (S r) →
            (∀ j, 0 ≤ j < n → o ≠ j * geom n (S r)) →
            xs' !! Z.to_nat o = Some c0).
Proof.
  intros Ht Hbytes.
  pose proof (it_pos _ _ _ Ht) as Hpos.
  assert (Hn : 0 < n) by (by inversion Hpos).
  pose proof (it_len _ _ _ Ht) as Hlen. rewrite prodZ_replicate in Hlen.
  pose proof (it_ndim _ _ _ Ht) as Hnd. rewrite length_replicate in Hnd.
  assert (Hpw : n * n ^ Z.of_nat r = n ^ Z.of_nat (S r))
    by (rewrite Nat2Z.inj_succ, Z.pow_succ_r by lia; done).
  assert (H0 : 0 < n ^ Z.of_nat (S r)) by (apply Z.pow_pos_nonneg; lia).
  unfold IdentityTensor.
  rewrite assert_true by lia. simpl mbind.
  assert (Hd0 : rdp (dim t) 0 = Ok n).
  { rewrite (it_dim _ _ _ Ht) by done. done. }
  rewrite Hd0. simpl mbind.
  pose proof (stride_loop_ok t n r xs Ht) as Hsl. cbv zeta in Hsl.
  rewrite Hsl. clear Hsl. simpl mbind.
  rewrite (NumTensorElements_ok _ _ _ Ht), prodZ_replicate. simpl mbind.
  unfold SIZEOF_COMPLEX in *.
  rewrite Hpw, (wrap_small (n ^ _)) by lia.
  rewrite assert_true by done. simpl mbind.
  rewrite (it_data _ _ _ Ht). simpl mbind.
  rewrite wrap_small by lia.
  unfold memset_zero, SIZEOF_COMPLEX, holds_.
  rewrite Z.div_mul by lia.
  rewrite bool_decide_eq_true_2 by lia. simpl mbind.
  assert (Hz : upd_prefix (n ^ Z.of_nat (S r)) (fun _ => c0) xs
               = replicate (length xs) c0).
  { unfold upd_prefix. rewrite drop_ge, app_nil_r by lia.
    rewrite (const_fmap _ _ c0) by done. rewrite length_seqZ.
    f_equal. lia. }
  rewrite Hz.
  destruct (write_loop (length xs) (fun j => j * geom n (S r))
              (fun _ => c1) 0 n
              (fun j td => wr td (wrap (j * geom n (S r))) c1)
              (replicate (length xs) c0))
    as (xs' & -> & Hl & Hw & Hu).
  - lia.
  - by rewrite length_replicate.
  - intros j Hj. pose proof (geom_diag_bound n j (S r) Hj ltac:(lia)). lia.
  - intros j j' Hj Hj' Heq.
    pose proof (geom_diag_bound n j (S r) Hj ltac:(lia)). nia.
  - intros j acc Hj Hacc.
    pose proof (geom_diag_bound n j (S r) Hj ltac:(lia)).
    rewrite wrap_small by lia. apply wr_Some. lia.
  - simpl mbind. exists xs'. split; [done|]. split; [done|].
    split; [exact Hw|].
    intros o Ho Hne. rewrite Hu.
    + apply lookup_replicate_2. lia.
    + intros j Hj. rewrite Z2Nat.id by lia. by apply Hne.
Qed.

Lemma TensorTrace_diag (t : tensor_t) (n : Z) (r : nat) (xs : list C) :
  is_tensor t (replicate (S r) n) xs →
  (∀ j, 0 ≤ j < n → xs !! Z.to_nat (j * geom n (S r)) = Some c1) →
  TensorTrace t = Ok (c_of_nat (Z.to_nat n)).
Proof.
  intros Ht Hdiag.
  pose proof (it_pos _ _ _ Ht) as Hpos.
  assert (Hn : 0 < n) by (by inversion Hpos).
  pose proof (it_size _ _ _ Ht) as Hsz. rewrite prodZ_replicate in Hsz.
  pose proof (it_ndim _ _ _ Ht) as Hnd. rewrite length_replicate in Hnd.
  unfold TensorTrace.
  rewrite assert_true by lia. simpl mbind.
  assert (Hd0 : rdp (dim t) 0 = Ok n).
  { rewrite (it_dim _ _ _ Ht) by done. done. }
  rewrite Hd0. simpl mbind.
  pose proof (stride_loop_ok t n r xs Ht) as Hsl. cbv zeta in Hsl.
  rewrite Hsl. clear Hsl. simpl mbind.
  destruct (for_range_inv
    (fun j tr => tr = c_of_nat (Z.to_nat j)) 0 n
    (fun j tr => x ← rdp (data t) (wrap (j * geom n (S r))); Ok (cadd tr x))
    c0) as (tr & -> & ->); [lia|done| |done].
  intros j tr Hj ->.
  pose proof (geom_diag_bound n j (S r) Hj ltac:(lia)).
  rewrite wrap_small by lia.
  unfold rdp. rewrite (it_data _ _ _ Ht). simpl mbind.
  rewrite (rd_Some _ _ c1) by (lia || by apply Hdiag). simpl mbind.
  eexists; split; [done|].
  by replace (Z.to_nat (j + 1)) with (S (Z.to_nat j)) by lia.
Qed.

(** C5: for a tensor of rank r >= 1 whose extents all equal n, IdentityTensor
    overwrites the data so that the entry at every diagonal multi-index
    (j,...,j), j in [0,n), is 1 and every other entry is 0; equivalently the
    data is 1 exactly at the flat offsets j*s, s = 1 + n + ... + n^(r-1); and
    TensorTrace of the result returns n.  The data buffer of the tensor
    exists, so its size in bytes is a [size_t]. *)
Theorem IdentityTensor_TensorTrace (t : tensor_t) (n : Z) (r : nat)
    (xs : list C) :
  (1 ≤ r)%nat →
  is_tensor t (replicate r n) xs →
  n ^ Z.of_nat r * SIZEOF_COMPLEX < 2 ^ SIZE_WIDTH →
  ∃ t' xs',
    IdentityTensor t = Ok t'
    ∧ is_tensor t' (replicate r n) xs'
    ∧ (∀ j, 0 ≤ j < n →
            entry xs' (replicate r n) (replicate r j) = Some c1)
    ∧ (∀ i, valid_index (replicate r n) i → (∀ j, i ≠ replicate r j) →
            entry xs' (replicate r n) i = Some c0)
    ∧ (∀ j, 0 ≤ j < n → xs' !! Z.to_nat (j * geom n r) = Some c1)
    ∧ (∀ o, 0 ≤ o < n ^ Z.of_nat r →
            (∀ j, 0 ≤ j < n → o ≠ j * geom n r) →
            xs' !! Z.to_nat o = Some c0)
    ∧ TensorTrace t' = Ok (c_of_nat (Z.to_nat n)).
Proof.
  intros Hr Ht Hbytes. destruct r as [|r]; [lia|].
  destruct (IdentityTensor_ok t n r xs Ht Hbytes)
    as (xs' & Hrun & Hlen & Hdiag & Hoff).
  assert (Ht' : is_tensor {| ndim := ndim t; dim := dim t; data := Live xs' |}
                  (replicate (S r) n) xs').
  { destruct Ht as [H1 H2 H3 H4 H5 H6 H7].
    constructor; try done. by rewrite Hlen. }
  eexists _, xs'. split; [exact Hrun|]. split; [exact Ht'|].
  split; [|split; [|split; [exact Hdiag|split; [exact Hoff|]]]].
  - intros j Hj. unfold entry. rewrite offset_diag. by apply Hdiag.
  - intros i Hi Hnd. unfold entry.
    pose proof (offset_bound _ _ Hi) as Hb. rewrite prodZ_replicate in Hb.
    apply Hoff; [done|].
    intros j Hj Heq. apply (Hnd j).
    apply (offset_inj (replicate (S r) n)); [done|by apply valid_index_diag|].
    by rewrite offset_diag.
  - by apply (TensorTrace_diag _ n r xs').
Qed.

(** ** Kernels *)

Lemma foldl_ext_in {A B} (f g : A → B → A) (l : list B) (a : A) :
  (∀ x acc, x ∈ l → f acc x = g acc x) → foldl f a l = foldl g a l.
Proof.
  revert a. induction l as [|x l IH]; intros a H; simpl; [done|].
  rewrite (H x a) by (by left). apply IH.
  intros y acc Hy. apply H. by right.
Qed.

Lemma csum_ext (n : Z) (f g : Z → C) :
  (∀ k, 0 ≤ k < n → f k = g k) → csum n f = csum n g.
Proof.
  intros H. unfold csum. apply foldl_ext_in.
  intros k acc Hk. apply elem_of_seqZ in Hk. rewrite H by lia. done.
Qed.

Lemma csum_list_all_indices (ds : list Z) (f : list Z → C) :
  csum_list f (all_indices ds) = csum (prodZ ds) (fun k => f (index_of ds k)).
Proof. unfold csum_list, all_indices, csum. by rewrite foldl_fmap. Qed.

Lemma at_replicate (n : nat) (i : Z) : at_ (replicate n c0) i = c0.
Proof.
  unfold at_. destruct (replicate n c0 !! Z.to_nat i) as [x|] eqn:H; [|done].
  apply lookup_replicate in H. simpl. by destruct H.
Qed.

Lemma length_upd_prefix (n : Z) (f : Z → C) (y : list C) :
  n ≤ Z.of_nat (length y) → length (upd_prefix n f y) = length y.
Proof.
  intros H. unfold upd_prefix.
  rewrite length_app, length_fmap, length_seqZ, length_drop. lia.
Qed.

Lemma lookup_upd_prefix (n : Z) (f : Z → C) (y : list C) (i : Z) :
  0 ≤ i < n → upd_prefix n f y !! Z.to_nat i = Some (f i).
Proof.
  intros H. unfold upd_prefix.
  rewrite lookup_app_l by (rewrite length_fmap, length_seqZ; lia).
  rewrite list_lookup_fmap, lookup_seqZ_lt by lia. simpl.
  f_equal. f_equal. lia.
Qed.

Lemma length_upd_block (m n ld : Z) (f : Z → Z → C → C) (c : list C) :
  length (upd_block m n ld f c) = length c.
Proof. unfold upd_block. rewrite length_fmap, length_seqZ. lia. Qed.

Lemma lookup_upd_block (m n ld : Z) (f : Z → Z → C → C) (c : list C)
    (i j : Z) :
  0 ≤ i < m → 0 ≤ j < n → m ≤ ld → i + ld * j < Z.of_nat (length c) →
  upd_block m n ld f c !! Z.to_nat (i + ld * j)
  = Some (f i j (at_ c (i + ld * j))).
Proof.
  intros Hi Hj Hld Hlen. unfold upd_block.
  rewrite list_lookup_fmap, lookup_seqZ_lt by nia. simpl.
  rewrite Z2Nat.id by nia.
  assert (Hmod : (i + ld * j) mod ld = i).
  { rewrite (Z.mul_comm ld j), Z.mod_add by lia.
    apply Z.mod_small. lia. }
  assert (Hdiv : (i + ld * j) / ld = j).
  { rewrite (Z.mul_comm ld j), Z.div_add by lia.
    rewrite (Z.div_small i ld) by lia. lia. }
  rewrite Z.add_0_l, Hmod, Hdiv. rewrite bool_decide_eq_true_2 by lia. done.
Qed.

Section Arithmetic.

(** exact arithmetic on the scalars *)
Hypothesis SR : semi_ring_theory c0 c1 cadd cmul eq.

Lemma axpby_1_0 (x y : C) : cadd (cmul c1 x) (cmul c0 y) = x.
Proof.
  rewrite (SRmul_1_l SR), (SRmul_0_l SR), (SRadd_comm SR).
  apply (SRadd_0_l SR).
Qed.

Lemma axpy_1_0 (x : C) : cadd (cmul c1 x) c0 = x.
Proof.
  rewrite (SRmul_1_l SR), (SRadd_comm SR). apply (SRadd_0_l SR).
Qed.

End Arithmetic.

Lemma AllocateTensor_shape (ds : list Z) :
  Forall (fun d => 0 < d) ds → prodZ ds < 2 ^ SIZE_WIDTH →
  AllocateTensor (Z.of_nat (length ds)) ds
  = Ok {| ndim := Z.of_nat (length ds); dim := dim_ptr ds;
          data := Live (replicate (Z.to_nat (prodZ ds)) c0) |}.
Proof.
  intros Hpos Hsz. destruct ds as [|d ds]; [done|].
  by apply AllocateTensor_ok.
Qed.

Lemma is_tensor_alloc (ds : list Z) (xs : list C) :
  Forall (fun d => 0 < d) ds → prodZ ds < 2 ^ SIZE_WIDTH →
  Z.of_nat (length ds) ≤ INT_MAX →
  Z.of_nat (length xs) = prodZ ds →
  is_tensor {| ndim := Z.of_nat (length ds); dim := dim_ptr ds;
               data := Live xs |} ds xs.
Proof.
  intros Hpos Hsz Hrk Hlen. constructor; simpl; try done.
  intros Hne. by destruct ds.
Qed.

(** the loops [for (i = lo; i < hi; i++) dst[delta + i] = src[i]] *)
Lemma copy_dims_loop (src : Z → result Z) (vals : list Z) (lo hi delta : Z)
    (acc0 : list Z) :
  views src vals → 0 ≤ lo ≤ hi → hi ≤ Z.of_nat (length vals) →
  0 ≤ delta + lo → delta + hi ≤ Z.of_nat (length acc0) →
  ∃ acc,
    for_range lo hi (fun i acc => d ← src i; wr acc (delta + i) d) acc0
    = Ok acc
    ∧ length acc = length acc0
    ∧ (∀ j : nat, delta + lo ≤ Z.of_nat j < delta + hi →
                  acc !! j = vals !! Z.to_nat (Z.of_nat j - delta))
    ∧ (∀ j : nat, ¬ (delta + lo ≤ Z.of_nat j < delta + hi) →
                  acc !! j = acc0 !! j).
Proof.
  intros Hv Hlo Hhi Hd0 Hd1.
  destruct (write_loop (length acc0) (fun i => delta + i)
              (fun i => default 0 (vals !! Z.to_nat i)) lo hi
              (fun i acc => d ← src i; wr acc (delta + i) d) acc0)
    as (acc & Hrun & Hl & Hw & Hu); [lia|done|intros; lia|intros; lia| |].
  - intros i acc Hi Hacc.
    destruct (lookup_lt_is_Some_2 vals (Z.to_nat i)) as [d Hd]; [lia|].
    rewrite (views_at src vals i d) by (done || lia). simpl.
    rewrite Hd. simpl. apply wr_Some. lia.
  - exists acc. split; [done|]. split; [done|]. split.
    + intros j Hj.
      pose proof (Hw (Z.of_nat j - delta) ltac:(lia)) as H.
      replace (delta + (Z.of_nat j - delta)) with (Z.of_nat j) in H by lia.
      rewrite Nat2Z.id in H. rewrite H.
      destruct (lookup_lt_is_Some_2 vals (Z.to_nat (Z.of_nat j - delta)))
        as [d Hd]; [lia|]. by rewrite Hd.
    + intros j Hj. apply Hu. intros i Hi. lia.
Qed.

Lemma for_range_ext {St} (lo hi : Z) (body body' : Z → St → result St)
    (s : St) :
  (∀ i s, lo ≤ i < hi → body i s = body' i s) →
  for_range lo hi body s = for_range lo hi body' s.
Proof.
  intros H. unfold for_range.
  assert (Hg : ∀ (n : nat) (l : Z) (s : St),
             lo ≤ l → l + Z.of_nat n ≤ Z.max lo hi →
             for_loop n l body s = for_loop n l body' s).
  { induction n as [|n IH]; intros l s0 Hl Hn; simpl; [done|].
    rewrite H by lia. destruct (body' l s0); simpl; try done.
    apply IH; lia. }
  apply Hg; lia.
Qed.

(** ** MultiplyTensor *)

Section Contraction.

Hypothesis SR : semi_ring_theory c0 c1 cadd cmul eq.

Variables (s t : tensor_t) (A Kd Cd : list Z) (sxs txs : list C).
Hypothesis Hs : is_tensor s (A ++ Kd) sxs.
Hypothesis Ht : is_tensor t (Kd ++ Cd) txs.
Hypothesis HKd : Kd ≠ [].
Hypothesis Hranks :
  Z.of_nat (length (A ++ Kd)) + Z.of_nat (length (Kd ++ Cd)) ≤ INT_MAX.

Local Lemma mt_pos :
  Forall (fun d => 0 < d) A ∧ Forall (fun d => 0 < d) Kd
  ∧ Forall (fun d => 0 < d) Cd.
Proof.
  pose proof (it_pos _ _ _ Hs) as H1. pose proof (it_pos _ _ _ Ht) as H2.
  apply Forall_app in H1, H2. tauto.
Qed.

Local Lemma mt_dims : dim s = Live (A ++ Kd) ∧ dim t = Live (Kd ++ Cd).
Proof.
  split; [apply (it_dim _ _ _ Hs)|apply (it_dim _ _ _ Ht)];
    destruct Kd; [done| |done|]; by destruct A.
Qed.

(** the shape checks and the dimensions of the result *)
Lemma MultiplyTensor_shape :
  let m := Z.of_nat (length Kd) in
  (assert (bool_decide (1 ≤ m));;
   assert (bool_decide (m ≤ ndim s ∧ m ≤ ndim t));;
   for_range 0 m
     (fun i _ =>
        a ← rdp (dim s) (ndim s - m + i);
        b ← rdp (dim t) i;
        assert (bool_decide (a = b)))
     tt) = Ok tt
  ∧ ∃ rdim0,
      for_range 0 (ndim s - m)
        (fun i rdim => d ← rdp (dim s) i; wr rdim i d)
        (algn_malloc 0 (ndim s + ndim t - 2 * m)) = Ok rdim0
      ∧ for_range m (ndim t)
          (fun i rdim => d ← rdp (dim t) i; wr rdim (ndim s + i - 2 * m) d)
          rdim0 = Ok (A ++ Cd).
Proof.
  intros m.
  pose proof (it_ndim _ _ _ Hs) as Hns. pose proof (it_ndim _ _ _ Ht) as Hnt.
  destruct mt_dims as [Hds Hdt].
  rewrite length_app in Hns, Hnt.
  assert (Hm : 1 ≤ m) by (unfold m; destruct Kd; [done|simpl; lia]).
  split.
  - rewrite assert_true by (unfold m in *; lia). simpl mbind.
    rewrite assert_true by (unfold m; lia). simpl mbind.
    destruct (for_range_inv (fun _ (_ : ()) => True) 0 m
      (fun i _ =>
         a ← rdp (dim s) (ndim s - m + i);
         b ← rdp (dim t) i;
         assert (bool_decide (a = b))) tt) as ([] & -> & _);
      [lia|done| |done].
    intros i [] Hi _.
    destruct (lookup_lt_is_Some_2 Kd (Z.to_nat i)) as [d Hd];
      [unfold m in Hi; lia|].
    rewrite Hds, Hdt.
    rewrite (views_at _ (A ++ Kd) _ d (views_rdp _));
      [|unfold m in *; lia|].
    2:{ replace (Z.to_nat (ndim s - m + i))
          with (length A + Z.to_nat i)%nat by (unfold m in *; lia).
        by rewrite lookup_app_r, Nat.add_simpl_l by lia. }
    simpl mbind.
    rewrite (views_at _ (Kd ++ Cd) _ d (views_rdp _));
      [|lia|rewrite lookup_app_l by (unfold m in *; lia); done].
    simpl mbind. rewrite assert_true by done. by exists tt.
  - destruct (copy_dims_loop (rdp (dim s)) (A ++ Kd) 0 (ndim s - m) 0
                (algn_malloc 0 (ndim s + ndim t - 2 * m)))
      as (rdim0 & Hrun0 & Hl0 & Hw0 & Hu0).
    + rewrite Hds. apply views_rdp.
    + unfold m in *. lia.
    + rewrite length_app. unfold m in *. lia.
    + lia.
    + unfold algn_malloc. rewrite length_replicate. unfold m in *. lia.
    + exists rdim0. split.
      { rewrite <- Hrun0. apply for_range_ext. intros i acc Hi.
        by rewrite Z.add_0_l. }
      destruct (copy_dims_loop (rdp (dim t)) (Kd ++ Cd) m (ndim t)
                  (ndim s - 2 * m) rdim0)
        as (rdim & Hrun & Hl & Hw & Hu).
      * rewrite Hdt. apply views_rdp.
      * unfold m in *. lia.
      * rewrite length_app. unfold m in *. lia.
      * unfold m in *. lia.
      * rewrite Hl0. unfold algn_malloc. rewrite length_replicate.
        unfold m in *. lia.
      * erewrite for_range_ext; [rewrite Hrun|].
        2:{ intros i acc Hi. simpl.
            by replace (ndim s + i - 2 * m) with (ndim s - 2 * m + i) by lia. }
        f_equal. apply list_eq. intros j.
        unfold algn_malloc in *. rewrite length_replicate in *.
        destruct (decide (j < length A)%nat) as [HjA|HjA].
        -- rewrite Hu by (unfold m in *; lia).
           rewrite Hw0 by (unfold m in *; lia).
           rewrite Z.sub_0_r, Nat2Z.id.
           by rewrite !lookup_app_l by lia.
        -- destruct (decide (j < length A + length Cd)%nat) as [HjC|HjC].
           ++ rewrite Hw by (unfold m in *; lia).
              rewrite lookup_app_r by lia.
              replace (Z.to_nat (Z.of_nat j - (ndim s - 2 * m)))
                with (length Kd + (j - length A))%nat
                by (unfold m in *; lia).
              by rewrite lookup_app_r, Nat.add_simpl_l by lia.
           ++ rewrite !lookup_ge_None_2; [done| |].
              ** rewrite length_app. lia.
              ** rewrite Hl, Hl0. unfold m in *. lia.
Qed.

(** the matrix extents *)
Lemma MultiplyTensor_extents :
  let m := Z.of_nat (length Kd) in
  NumTensorElements s = Ok (prodZ A * prodZ Kd)
  ∧ NumTensorElements t = Ok (prodZ Kd * prodZ Cd)
  ∧ IntProduct (shift (rdp (dim s)) (ndim s - m)) m = Ok (prodZ Kd)
  ∧ IntProduct (rdp (dim t)) m = Ok (prodZ Kd).
Proof.
  intros m.
  pose proof (it_ndim _ _ _ Hs) as Hns. rewrite length_app in Hns.
  destruct mt_dims as [Hds Hdt].
  destruct mt_pos as (HpA & HpK & HpC).
  split; [|split; [|split]].
  - rewrite (NumTensorElements_ok _ _ _ Hs). by rewrite prodZ_app.
  - rewrite (NumTensorElements_ok _ _ _ Ht). by rewrite prodZ_app.
  - replace (ndim s - m) with (Z.of_nat (length A)) by (unfold m; lia).
    rewrite Hds. unfold m.
    rewrite (IntProduct_ok _ Kd).
    + by rewrite take_ge.
    + pose proof (views_shift _ _ (length A) (views_rdp (A ++ Kd))) as Hv.
      by rewrite drop_app_length in Hv.
    + done.
    + done.
    + pose proof (it_size _ _ _ Hs) as Hsz. rewrite prodZ_app in Hsz.
      pose proof (prodZ_pos _ HpA). pose proof (prodZ_pos _ HpK). nia.
  - rewrite Hdt. unfold m.
    rewrite (IntProduct_ok _ (Kd ++ Cd)).
    + by rewrite take_app_length.
    + apply views_rdp.
    + rewrite length_app. lia.
    + apply Ht.
    + apply Ht.
Qed.

(** MultiplyTensor up to the kernel call: no assert looks at the size of an
    extent; the extents reach the kernels through [to_int], whatever they
    are *)
Lemma MultiplyTensor_dispatch :
  prodZ A * prodZ Cd < 2 ^ SIZE_WIDTH →
  let r0 := replicate (Z.to_nat (prodZ (A ++ Cd))) c0 in
  MultiplyTensor s t (Z.of_nat (length Kd))
  = (rd_ ←
       (if bool_decide (prodZ A = 1) then
          if bool_decide (prodZ Cd = 1) then
            v ← cblas_zdotu_sub (to_int (prodZ A * prodZ Kd)) sxs txs;
            wr r0 0 v
          else
            cblas_zgemv true (to_int (prodZ Kd)) (to_int (prodZ Cd)) c1 txs
              (to_int (prodZ Kd)) sxs c0 r0
        else
          if bool_decide (prodZ Cd = 1) then
            cblas_zgemv false (to_int (prodZ A)) (to_int (prodZ Kd)) c1 sxs
              (to_int (prodZ A)) txs c0 r0
          else
            cblas_zgemm (to_int (prodZ A)) (to_int (prodZ Cd))
              (to_int (prodZ Kd)) c1 sxs (to_int (prodZ A)) txs
              (to_int (prodZ Kd)) c0 r0 (to_int (prodZ A)));
     Ok {| ndim := Z.of_nat (length (A ++ Cd)); dim := dim_ptr (A ++ Cd);
           data := Live rd_ |}).
Proof.
  intros HAC r0.
  pose proof (it_ndim _ _ _ Hs) as Hns. pose proof (it_ndim _ _ _ Ht) as Hnt.
  destruct mt_pos as (HpA & HpK & HpC).
  pose proof (prodZ_pos _ HpA) as H0A. pose proof (prodZ_pos _ HpK) as H0K.
  pose proof (prodZ_pos _ HpC) as H0C.
  destruct MultiplyTensor_shape as (Hchk & rdim0 & Hrd0 & Hrd).
  destruct MultiplyTensor_extents as (HnS & HnT & Hk & Hldt).
  cbv zeta in Hchk, Hrd0, Hrd, Hk, Hldt.
  assert (Hnr : ndim s + ndim t - 2 * Z.of_nat (length Kd)
                = Z.of_nat (length (A ++ Cd))).
  { rewrite Hns, Hnt, !length_app. lia. }
  assert (HAC' : prodZ (A ++ Cd) < 2 ^ SIZE_WIDTH) by (by rewrite prodZ_app).
  assert (HpAC : Forall (fun d => 0 < d) (A ++ Cd)) by (by apply Forall_app).
  unfold MultiplyTensor.
  apply bind_Ok_inv in Hchk as ([] & H1 & Hchk).
  apply bind_Ok_inv in Hchk as ([] & H2 & Hchk).
  rewrite H1. simpl mbind. rewrite H2. simpl mbind.
  rewrite Hchk. simpl mbind.
  unfold int_chk. rewrite bool_decide_eq_true_2
    by (rewrite Hns, Hnt; unfold INT_MIN; lia).
  simpl mbind. rewrite Hrd0. simpl mbind. rewrite Hrd. simpl mbind.
  rewrite Hnr, (AllocateTensor_shape _ HpAC HAC'). simpl mbind.
  rewrite HnS, HnT. simpl mbind. rewrite Hk. simpl mbind.
  rewrite (bool_decide_eq_false_2 (prodZ Kd = 0)) by lia. simpl mbind.
  rewrite Z.div_mul by lia.
  rewrite (assert_true (0 < prodZ A)) by lia. simpl mbind.
  rewrite Hldt. simpl mbind.
  rewrite (assert_true (0 < prodZ Kd)) by lia. simpl mbind.
  rewrite (Z.mul_comm (prodZ Kd) (prodZ Cd)), Z.div_mul by lia.
  rewrite (it_data _ _ _ Hs), (it_data _ _ _ Ht). simpl mbind.
  fold r0.
  destruct (decide (prodZ A = 1)) as [HA1|HA1];
    destruct (decide (prodZ Cd = 1)) as [HC1|HC1].
  - rewrite !(bool_decide_eq_true_2 (prodZ A = 1)) by done.
    rewrite !(bool_decide_eq_true_2 (prodZ Cd = 1)) by done.
    rewrite assert_true by lia. simpl mbind.
    rewrite (NumTensorElements_ok _ (A ++ Cd) r0).
    2:{ apply is_tensor_alloc; try done.
        - rewrite !length_app in *. lia.
        - unfold r0. rewrite length_replicate.
          pose proof (prodZ_pos _ HpAC). lia. }
    simpl mbind. rewrite prodZ_app, HA1, HC1.
    rewrite assert_true by lia. done.
  - rewrite !(bool_decide_eq_true_2 (prodZ A = 1)) by done.
    rewrite !(bool_decide_eq_false_2 (prodZ Cd = 1)) by done. done.
  - rewrite !(bool_decide_eq_false_2 (prodZ A = 1)) by done.
    rewrite !(bool_decide_eq_true_2 (prodZ Cd = 1)) by done. done.
  - rewrite !(bool_decide_eq_false_2 (prodZ A = 1)) by done.
    rewrite !(bool_decide_eq_false_2 (prodZ Cd = 1)) by done. done.
Qed.

(** MultiplyTensor aborts for no conforming arguments, however large their
    extents: the inner product returns, the other kernels return or are
    called outside their contract *)
Lemma MultiplyTensor_no_abort :
  prodZ A * prodZ Cd < 2 ^ SIZE_WIDTH →
  MultiplyTensor s t (Z.of_nat (length Kd)) ≠ Abort.
Proof.
  intros HAC. rewrite (MultiplyTensor_dispatch HAC). cbv zeta.
  set (r0 := replicate (Z.to_nat (prodZ (A ++ Cd))) c0).
  repeat case_bool_decide.
  - unfold cblas_zdotu_sub.
    repeat (case_bool_decide || destruct (_ && _)); simpl; try done.
    all: unfold wr; case_bool_decide; done.
  - unfold cblas_zgemv.
    repeat (case_bool_decide || destruct (_ && _)); simpl; done.
  - unfold cblas_zgemv.
    repeat (case_bool_decide || destruct (_ && _)); simpl; done.
  - unfold cblas_zgemm.
    repeat (case_bool_decide || destruct (_ && _)); simpl; done.
Qed.

Hypothesis HA : prodZ A ≤ INT_MAX.
Hypothesis HK : prodZ Kd ≤ INT_MAX.
Hypothesis HC : prodZ Cd ≤ INT_MAX.

(** MultiplyTensor computes the product of the matrix of [s], of extents
    [prodZ A] by [prodZ Kd], with the matrix of [t], of extents [prodZ Kd] by
    [prodZ Cd], both column-major *)
Lemma MultiplyTensor_ok :
  ∃ rxs,
    MultiplyTensor s t (Z.of_nat (length Kd))
    = Ok {| ndim := Z.of_nat (length (A ++ Cd)); dim := dim_ptr (A ++ Cd);
            data := Live rxs |}
    ∧ Z.of_nat (length rxs) = prodZ A * prodZ Cd
    ∧ ∀ ao co, 0 ≤ ao < prodZ A → 0 ≤ co < prodZ Cd →
        rxs !! Z.to_nat (ao + prodZ A * co)
        = Some (csum (prodZ Kd)
                  (fun b => cmul (at_ sxs (ao + prodZ A * b))
                                 (at_ txs (b + prodZ Kd * co)))).
Proof.
  pose proof (it_ndim _ _ _ Hs) as Hns. pose proof (it_ndim _ _ _ Ht) as Hnt.
  pose proof (it_len _ _ _ Hs) as Hsl. pose proof (it_len _ _ _ Ht) as Htl.
  rewrite prodZ_app in Hsl, Htl.
  destruct mt_pos as (HpA & HpK & HpC).
  pose proof (prodZ_pos _ HpA) as H0A. pose proof (prodZ_pos _ HpK) as H0K.
  pose proof (prodZ_pos _ HpC) as H0C.
  destruct MultiplyTensor_shape as (Hchk & rdim0 & Hrd0 & Hrd).
  destruct MultiplyTensor_extents as (HnS & HnT & Hk & Hldt).
  cbv zeta in Hchk, Hrd0, Hrd, Hk, Hldt.
  assert (Hnr : ndim s + ndim t - 2 * Z.of_nat (length Kd)
                = Z.of_nat (length (A ++ Cd))).
  { rewrite Hns, Hnt, !length_app. lia. }
  assert (HAC : prodZ (A ++ Cd) < 2 ^ SIZE_WIDTH).
  { rewrite prodZ_app. unfold INT_MAX, SIZE_WIDTH in *. nia. }
  assert (HpAC : Forall (fun d => 0 < d) (A ++ Cd)) by (by apply Forall_app).
  unfold MultiplyTensor.
  apply bind_Ok_inv in Hchk as ([] & H1 & Hchk).
  apply bind_Ok_inv in Hchk as ([] & H2 & Hchk).
  rewrite H1. simpl mbind. rewrite H2. simpl mbind.
  rewrite Hchk. simpl mbind.
  unfold int_chk. rewrite bool_decide_eq_true_2
    by (rewrite Hns, Hnt; unfold INT_MIN; lia).
  simpl mbind. rewrite Hrd0. simpl mbind. rewrite Hrd. simpl mbind.
  rewrite Hnr, (AllocateTensor_shape _ HpAC HAC). simpl mbind.
  rewrite HnS, HnT. simpl mbind. rewrite Hk. simpl mbind.
  rewrite (bool_decide_eq_false_2 (prodZ Kd = 0)) by lia. simpl mbind.
  rewrite Z.div_mul by lia.
  rewrite (assert_true (0 < prodZ A)) by lia. simpl mbind.
  rewrite Hldt. simpl mbind.
  rewrite (assert_true (0 < prodZ Kd)) by lia. simpl mbind.
  rewrite (Z.mul_comm (prodZ Kd) (prodZ Cd)), Z.div_mul by lia.
  rewrite (it_data _ _ _ Hs), (it_data _ _ _ Ht). simpl mbind.
  set (r0 := replicate (Z.to_nat (prodZ (A ++ Cd))) c0).
  assert (Hr0 : Z.of_nat (length r0) = prodZ A * prodZ Cd).
  { unfold r0. rewrite length_replicate, prodZ_app. lia. }
  assert (Hint : ∀ z, 0 < z ≤ INT_MAX → to_int z = z).
  { intros z Hz. apply to_int_small. unfold INT_MIN, INT_MAX in *. lia. }
  destruct (decide (prodZ A = 1)) as [HA1|HA1];
    destruct (decide (prodZ Cd = 1)) as [HC1|HC1].
  - (* inner product *)
    rewrite (bool_decide_eq_true_2 (prodZ A = 1)) by done.
    rewrite (bool_decide_eq_true_2 (prodZ Cd = 1)) by done.
    rewrite assert_true by lia. simpl mbind.
    rewrite (NumTensorElements_ok _ (A ++ Cd) r0).
    2:{ apply is_tensor_alloc; try done.
        - rewrite !length_app in *. lia.
        - by rewrite prodZ_app. }
    simpl mbind. rewrite prodZ_app, HA1, HC1.
    rewrite assert_true by lia. simpl mbind.
    rewrite Z.mul_1_l, Hint by lia.
    unfold cblas_zdotu_sub, holds_.
    rewrite bool_decide_eq_false_2 by lia.
    rewrite !bool_decide_eq_true_2 by lia. simpl mbind.
    rewrite wr_Some by lia. simpl mbind.
    eexists. split; [done|]. split.
    { rewrite length_insert. lia. }
    intros ao co Hao Hco.
    assert (ao = 0) by lia. assert (co = 0) by lia. subst ao co.
    simpl Z.to_nat.
    rewrite list_lookup_insert_eq by lia. f_equal.
    apply csum_ext. intros b Hb. do 2 f_equal; lia.
  - (* vector times matrix *)
    rewrite (bool_decide_eq_true_2 (prodZ A = 1)) by done.
    rewrite (bool_decide_eq_false_2 (prodZ Cd = 1)) by done.
    rewrite !Hint by lia.
    unfold cblas_zgemv, holds_.
    rewrite bool_decide_eq_false_2 by lia.
    rewrite bool_decide_eq_false_2 by lia.
    rewrite !bool_decide_eq_true_2 by nia. simpl mbind.
    eexists. split; [done|]. split.
    { rewrite length_upd_prefix by nia. done. }
    intros ao co Hao Hco. assert (ao = 0) by lia. subst ao.
    rewrite HA1, Z.add_0_l, Z.mul_1_l.
    rewrite lookup_upd_prefix by lia. f_equal.
    rewrite (axpby_1_0 SR). apply csum_ext. intros b Hb.
    rewrite (SRmul_comm SR). do 2 f_equal; lia.
  - (* matrix times vector *)
    rewrite (bool_decide_eq_false_2 (prodZ A = 1)) by done.
    rewrite (bool_decide_eq_true_2 (prodZ Cd = 1)) by done.
    rewrite !Hint by lia.
    unfold cblas_zgemv, holds_.
    rewrite bool_decide_eq_false_2 by lia.
    rewrite bool_decide_eq_false_2 by lia.
    rewrite !bool_decide_eq_true_2 by nia. simpl mbind.
    eexists. split; [done|]. split.
    { rewrite length_upd_prefix by nia. done. }
    intros ao co Hao Hco. assert (co = 0) by lia. subst co.
    rewrite Z.mul_0_r, Z.add_0_r.
    rewrite lookup_upd_prefix by lia. f_equal.
    rewrite (axpby_1_0 SR). apply csum_ext. intros b Hb.
    do 2 f_equal; lia.
  - (* matrix times matrix *)
    rewrite (bool_decide_eq_false_2 (prodZ A = 1)) by done.
    rewrite (bool_decide_eq_false_2 (prodZ Cd = 1)) by done.
    rewrite !Hint by lia.
    unfold cblas_zgemm, holds_.
    rewrite bool_decide_eq_false_2 by lia.
    rewrite bool_decide_eq_false_2 by lia.
    rewrite !bool_decide_eq_true_2 by nia. simpl mbind.
    eexists. split; [done|]. split.
    { rewrite length_upd_block. done. }
    intros ao co Hao Hco.
    rewrite lookup_upd_block by nia. f_equal.
    apply (axpby_1_0 SR).
Qed.

End Contraction.

Lemma elem_of_all_indices (ds b : list Z) :
  Forall (fun d => 0 < d) ds → b ∈ all_indices ds ↔ valid_index ds b.
Proof.
  intros Hpos. unfold all_indices. rewrite list_elem_of_fmap. split.
  - intros (k & -> & _). by apply index_of_valid.
  - intros Hb. exists (offset ds b). split; [by rewrite index_of_offset|].
    apply elem_of_seqZ. pose proof (offset_bound _ _ Hb). lia.
Qed.

Lemma NoDup_all_indices (ds : list Z) :
  Forall (fun d => 0 < d) ds → NoDup (all_indices ds).
Proof.
  intros Hpos. unfold all_indices.
  apply NoDup_fmap_2_strong; [|apply NoDup_seqZ].
  intros k k' Hk Hk' Heq. apply elem_of_seqZ in Hk, Hk'.
  rewrite <- (offset_index_of ds k), <- (offset_index_of ds k') by (done || lia).
  by rewrite Heq.
Qed.

(** C1 (as amended): for conforming tensors S of rank p and T of rank q and
    1 <= m <= min(p,q) with S.dim[p-m+i] = T.dim[i] for i < m, whose matrix
    extents LDS, K and TDT and whose rank sum p+q are at most INT_MAX, and
    for a result whose buffer, 16 bytes per entry, has a size that fits
    size_t and is granted by the allocator (a failing allocation makes
    AllocateTensor abort, and is not modelled), MultiplyTensor returns a
    tensor R of rank p+q-2m whose dimensions are the first p-m of S followed
    by the last q-m of T, with R[a,c] = sum over the multi-indices b of the
    shared axes of S[a,b] * T[b,c]; equivalently R is the column-major matrix
    product of S viewed as LDS x K and T viewed as K x TDT.  The sum ranges
    over each multi-index of the shared axes exactly once.  The scalars form
    a commutative semiring. *)
Theorem MultiplyTensor_correct (s t : tensor_t) (sds tds : list Z)
    (sxs txs : list C) (m : nat) :
  semi_ring_theory c0 c1 cadd cmul eq →
  is_tensor s sds sxs → is_tensor t tds txs →
  (1 ≤ m ≤ length sds)%nat → (m ≤ length tds)%nat →
  (∀ i : nat, (i < m)%nat → sds !! (length sds - m + i)%nat = tds !! i) →
  Z.of_nat (length sds) + Z.of_nat (length tds) ≤ INT_MAX →
  prodZ (take (length sds - m) sds) ≤ INT_MAX →
  prodZ (take m tds) ≤ INT_MAX →
  prodZ (drop m tds) ≤ INT_MAX →
  prodZ (take (length sds - m) sds) * prodZ (drop m tds) * SIZEOF_COMPLEX
  < 2 ^ SIZE_WIDTH →
  let A := take (length sds - m) sds in
  let Kd := take m tds in
  let Cd := drop m tds in
  ∃ r rxs,
    MultiplyTensor s t (Z.of_nat m) = Ok r
    ∧ is_tensor r (A ++ Cd) rxs
    ∧ ndim r = Z.of_nat (length sds) + Z.of_nat (length tds) - 2 * Z.of_nat m
    ∧ (∀ a c, valid_index A a → valid_index Cd c →
         entry rxs (A ++ Cd) (a ++ c)
         = Some (csum_list
                   (fun b => cmul (tensor_at sxs sds (a ++ b))
                                  (tensor_at txs tds (b ++ c)))
                   (all_indices Kd)))
    ∧ (∀ ao co, 0 ≤ ao < prodZ A → 0 ≤ co < prodZ Cd →
         rxs !! Z.to_nat (ao + prodZ A * co)
         = Some (csum (prodZ Kd)
                   (fun b => cmul (at_ sxs (ao + prodZ A * b))
                                  (at_ txs (b + prodZ Kd * co)))))
    ∧ (∀ b, b ∈ all_indices Kd ↔ valid_index Kd b)
    ∧ NoDup (all_indices Kd).
Proof.
  intros SR Hs Ht Hm Hmt Hmatch Hranks HA HK HC Hbytes A Kd Cd.
  fold A in HA, Hbytes. fold Kd in HK. fold Cd in HC, Hbytes.
  assert (Hsds : sds = A ++ Kd).
  { unfold A, Kd. rewrite <- (take_drop (length sds - m) sds) at 1.
    f_equal. apply list_eq. intros i.
    rewrite lookup_drop.
    destruct (decide (i < m)%nat) as [Hi|Hi].
    - rewrite lookup_take_lt by done. by apply Hmatch.
    - rewrite lookup_take_ge by lia. apply lookup_ge_None_2. lia. }
  assert (Htds : tds = Kd ++ Cd) by (unfold Kd, Cd; by rewrite take_drop).
  assert (HlK : length Kd = m) by (unfold Kd; rewrite length_take; lia).
  assert (HlA : (length A + m = length sds)%nat)
    by (unfold A; rewrite length_take; lia).
  clearbody A Kd Cd. subst sds tds.
  assert (HKd : Kd ≠ []) by (destruct Kd; simpl in *; [lia|done]).
  destruct (MultiplyTensor_ok SR s t A Kd Cd sxs txs Hs Ht HKd Hranks HA HK HC)
    as (rxs & Hrun & Hrl & Hent).
  rewrite HlK in Hrun.
  pose proof (it_pos _ _ _ Hs) as HpS. pose proof (it_pos _ _ _ Ht) as HpT.
  apply Forall_app in HpS as [HpA HpK]. apply Forall_app in HpT as [_ HpC].
  pose proof (prodZ_pos _ HpA). pose proof (prodZ_pos _ HpK).
  pose proof (prodZ_pos _ HpC).
  eexists _, rxs. split; [exact Hrun|].
  split; [|split; [|split; [|split; [|split]]]].
  - apply is_tensor_alloc.
    + by apply Forall_app.
    + rewrite prodZ_app. unfold SIZEOF_COMPLEX in Hbytes. lia.
    + rewrite !length_app in *. lia.
    + by rewrite prodZ_app.
  - simpl. rewrite !length_app. lia.
  - intros a c Ha Hc. unfold entry.
    pose proof (valid_index_length _ _ Ha) as Hla.
    rewrite offset_app by done.
    rewrite Hent by (by apply offset_bound). f_equal.
    rewrite csum_list_all_indices. apply csum_ext. intros k Hk.
    pose proof (index_of_valid Kd k HpK) as Hvk.
    pose proof (valid_index_length _ _ Hvk) as Hlk.
    unfold tensor_at, at_.
    rewrite !offset_app by done.
    rewrite offset_index_of by done. done.
  - exact Hent.
  - intros b. by apply elem_of_all_indices.
  - by apply NoDup_all_indices.
Qed.

(** ** TensorKroneckerProduct *)

Lemma length_interleave {A} (a b : list A) :
  length a = length b → length (interleave a b) = (2 * length a)%nat.
Proof.
  revert b. induction a as [|x a IH]; intros [|y b] Hl; simpl in *;
    try done.
  rewrite IH by lia. lia.
Qed.

Lemma lookup_interleave_even {A} (a b : list A) (k : nat) :
  length a = length b → interleave a b !! (2 * k)%nat = a !! k.
Proof.
  revert b k. induction a as [|x a IH]; intros [|y b] k Hl; simpl in *;
    try done.
  destruct k as [|k]; [done|].
  replace (S k + (S k + 0))%nat with (S (S (2 * k))) by lia. simpl.
  apply IH. lia.
Qed.

Lemma lookup_interleave_odd {A} (a b : list A) (k : nat) :
  length a = length b → interleave a b !! (2 * k + 1)%nat = b !! k.
Proof.
  revert b k. induction a as [|x a IH]; intros [|y b] k Hl; simpl in *;
    try done.
  destruct k as [|k]; [done|].
  replace (S k + (S k + 0) + 1)%nat with (S (S (2 * k + 1))) by lia. simpl.
  apply IH. lia.
Qed.

Lemma lookup_kron_perm_lo (n : Z) (k : nat) :
  Z.of_nat k < n → kron_perm n !! k = Some (2 * Z.of_nat k).
Proof.
  intros Hk. unfold kron_perm.
  rewrite lookup_app_l by (rewrite length_fmap, length_seqZ; lia).
  rewrite list_lookup_fmap, lookup_seqZ_lt by lia. done.
Qed.

Lemma lookup_kron_perm_hi (n : Z) (k : nat) :
  Z.of_nat k < n →
  kron_perm n !! (Z.to_nat n + k)%nat = Some (2 * Z.of_nat k + 1).
Proof.
  intros Hk. unfold kron_perm.
  rewrite lookup_app_r by (rewrite length_fmap, length_seqZ; lia).
  rewrite length_fmap, length_seqZ.
  replace (Z.to_nat n + k - Z.to_nat n)%nat with k by lia.
  rewrite list_lookup_fmap, lookup_seqZ_lt by lia. done.
Qed.

Lemma length_kron_perm (n : Z) : length (kron_perm n) = (2 * Z.to_nat n)%nat.
Proof.
  unfold kron_perm. rewrite length_app, !length_fmap, !length_seqZ. lia.
Qed.

Lemma kron_perm_is_perm (n : Z) : 0 ≤ n → is_perm (2 * n) (kron_perm n).
Proof.
  intros Hn. split; [rewrite length_kron_perm; lia|]. split.
  - unfold kron_perm. apply NoDup_app. split; [|split].
    + apply NoDup_fmap_2; [intros x y; lia|apply NoDup_seqZ].
    + intros p Hp Hq. apply list_elem_of_fmap in Hp as (k & -> & _).
      apply list_elem_of_fmap in Hq as (k' & Hq & _). lia.
    + apply NoDup_fmap_2; [intros x y; lia|apply NoDup_seqZ].
  - unfold kron_perm. apply Forall_app. split; apply Forall_fmap, Forall_seqZ;
      intros k Hk; simpl; lia.
Qed.

Lemma permuted_interleave {A} (a b : list A) :
  length a = length b →
  permuted (kron_perm (Z.of_nat (length a))) (a ++ b) (interleave a b).
Proof.
  intros Hl. split.
  - rewrite length_interleave, length_app by done. lia.
  - intros k p Hk.
    destruct (decide (k < length a)%nat) as [Hlt|Hge].
    + rewrite lookup_kron_perm_lo in Hk by lia. injection Hk as <-.
      replace (Z.to_nat (2 * Z.of_nat k)) with (2 * k)%nat by lia.
      rewrite lookup_interleave_even by done.
      by rewrite lookup_app_l.
    + pose proof (lookup_lt_Some _ _ _ Hk) as Hkl.
      rewrite length_kron_perm in Hkl.
      replace k with (Z.to_nat (Z.of_nat (length a)) + (k - length a))%nat
        in Hk by lia.
      rewrite lookup_kron_perm_hi in Hk by lia. injection Hk as <-.
      replace (Z.to_nat (2 * Z.of_nat (k - length a) + 1))
        with (2 * (k - length a) + 1)%nat by lia.
      rewrite lookup_interleave_odd by done.
      by rewrite lookup_app_r by lia.
Qed.

Lemma offset_interleave (sds tds i j : list Z) :
  length tds = length sds → length i = length sds → length j = length sds →
  offset (interleave sds tds) (interleave i j)
  = offset (kron_dims sds tds) (kron_index sds i j).
Proof.
  revert tds i j.
  induction sds as [|d sds IH]; intros [|e tds] [|x i] [|y j] H1 H2 H3;
    simpl in *; try done.
  rewrite IH by lia. fold (kron_dims sds tds). lia.
Qed.

Lemma prodZ_kron_dims (sds tds : list Z) :
  length tds = length sds →
  prodZ (kron_dims sds tds) = prodZ sds * prodZ tds.
Proof.
  revert tds. induction sds as [|d sds IH]; intros [|e tds] Hl;
    simpl in *; try done.
  fold (kron_dims sds tds). rewrite !prodZ_cons, IH by lia. lia.
Qed.

Lemma lookup_kron_dims (sds tds : list Z) (k : nat) (a b : Z) :
  sds !! k = Some a → tds !! k = Some b → kron_dims sds tds !! k = Some (a * b).
Proof.
  intros Ha Hb. unfold kron_dims. rewrite lookup_zip_with, Ha. simpl.
  by rewrite Hb.
Qed.

Lemma kron_dims_pos (sds tds : list Z) :
  Forall (fun d => 0 < d) sds → Forall (fun d => 0 < d) tds →
  Forall (fun d => 0 < d) (kron_dims sds tds).
Proof.
  intros Hs. revert tds. induction Hs as [|d sds Hd _ IH]; intros tds Ht;
    [constructor|].
  destruct Ht as [|e tds He Ht]; [constructor|].
  simpl. constructor; [nia|by apply IH].
Qed.


(** the rank-1 update kernel returns an array of the length of [a], or is
    called outside its contract *)
Lemma zgeru_result (m n : Z) (alpha : C) (x y a : list C) (lda : Z) :
  cblas_zgeru m n alpha x y a lda = Fault
  ∨ ∃ ud, cblas_zgeru m n alpha x y a lda = Ok ud ∧ length ud = length a.
Proof.
  unfold cblas_zgeru.
  repeat (case_bool_decide || destruct (_ && _)); eauto.
  right. eexists. split; [done|]. apply length_upd_block.
Qed.

Section Kronecker.

Hypothesis SR : semi_ring_theory c0 c1 cadd cmul eq.

Variables (s t : tensor_t) (sds tds : list Z) (sxs txs : list C).
Hypothesis Hs : is_tensor s sds sxs.
Hypothesis Ht : is_tensor t tds txs.
Hypothesis Hlen : length tds = length sds.
Hypothesis Hne : sds ≠ [].
Hypothesis Hrk : 2 * Z.of_nat (length sds) ≤ INT_MAX.

Local Lemma kr_dims : dim s = Live sds ∧ dim t = Live tds.
Proof.
  split; [by apply (it_dim _ _ _ Hs)|apply (it_dim _ _ _ Ht)].
  destruct tds, sds; done.
Qed.

Local Lemma kr_ndim :
  ndim s = Z.of_nat (length sds) ∧ ndim t = Z.of_nat (length sds).
Proof.
  split; [apply Hs|]. rewrite <- Hlen. apply Ht.
Qed.

(** the dimensions of the outer product *)
Lemma kron_udim_loops :
  ∃ udim0,
    for_range 0 (ndim s)
      (fun i udim => d ← rdp (dim s) i; wr udim i d)
      (algn_malloc 0 (ndim s + ndim t)) = Ok udim0
    ∧ for_range 0 (ndim t)
        (fun i udim => d ← rdp (dim t) i; wr udim (ndim s + i) d)
        udim0 = Ok (sds ++ tds).
Proof.
  destruct kr_dims as [Hds Hdt]. destruct kr_ndim as [Hns Hnt].
  destruct (copy_dims_loop (rdp (dim s)) sds 0 (ndim s) 0
              (algn_malloc 0 (ndim s + ndim t)))
    as (udim0 & Hrun0 & Hl0 & Hw0 & Hu0).
  - rewrite Hds. apply views_rdp.
  - lia.
  - lia.
  - lia.
  - unfold algn_malloc. rewrite length_replicate. lia.
  - exists udim0. split.
    { rewrite <- Hrun0. apply for_range_ext. intros i acc Hi.
      by rewrite Z.add_0_l. }
    destruct (copy_dims_loop (rdp (dim t)) tds 0 (ndim t) (ndim s) udim0)
      as (udim & Hrun & Hl & Hw & Hu).
    + rewrite Hdt. apply views_rdp.
    + lia.
    + lia.
    + lia.
    + rewrite Hl0. unfold algn_malloc. rewrite length_replicate. lia.
    + rewrite Hrun. f_equal. apply list_eq. intros j.
      unfold algn_malloc in *. rewrite length_replicate in *.
      destruct (decide (j < length sds)%nat) as [Hj|Hj].
      * rewrite Hu by lia. rewrite Hw0 by lia.
        rewrite Z.sub_0_r, Nat2Z.id. by rewrite lookup_app_l by lia.
      * destruct (decide (j < length sds + length tds)%nat) as [Hj'|Hj'].
        -- rewrite Hw by lia. rewrite lookup_app_r by lia.
           f_equal. lia.
        -- rewrite !lookup_ge_None_2; [done| |].
           ++ rewrite length_app. lia.
           ++ rewrite Hl, Hl0. lia.
Qed.

(** the permutation that interleaves the axes *)
Lemma kron_perm_loops :
  ∃ perm0,
    for_range 0 (ndim s)
      (fun i perm => v ← int_chk (2 * i); wr perm i v)
      (algn_malloc 0 (ndim s + ndim t)) = Ok perm0
    ∧ for_range 0 (ndim t)
        (fun i perm => v ← int_chk (2 * i + 1); wr perm (ndim s + i) v)
        perm0 = Ok (kron_perm (ndim s)).
Proof.
  destruct kr_ndim as [Hns Hnt].
  set (L := (2 * length sds)%nat).
  destruct (write_loop L (fun i => i) (fun i => 2 * i) 0 (ndim s)
              (fun i perm => v ← int_chk (2 * i); wr perm i v)
              (algn_malloc 0 (ndim s + ndim t)))
    as (perm0 & Hrun0 & Hl0 & Hw0 & Hu0).
  - lia.
  - unfold algn_malloc, L. rewrite length_replicate. lia.
  - unfold L. lia.
  - intros; lia.
  - intros i acc Hi Hacc. unfold int_chk.
    rewrite bool_decide_eq_true_2 by (unfold INT_MIN, INT_MAX in *; lia).
    simpl. apply wr_Some. unfold L in *. lia.
  - exists perm0. split; [done|].
    destruct (write_loop L (fun i => ndim s + i) (fun i => 2 * i + 1) 0
                (ndim t)
                (fun i perm => v ← int_chk (2 * i + 1); wr perm (ndim s + i) v)
                perm0)
      as (perm & Hrun & Hl & Hw & Hu).
    + lia.
    + done.
    + unfold L. lia.
    + intros; lia.
    + intros i acc Hi Hacc. unfold int_chk.
      rewrite bool_decide_eq_true_2 by (unfold INT_MIN, INT_MAX in *; lia).
      simpl. apply wr_Some. unfold L in *. lia.
    + rewrite Hrun. f_equal. apply list_eq. intros j.
      destruct (decide (j < length sds)%nat) as [Hj|Hj].
      * rewrite Hu by (intros; lia).
        pose proof (Hw0 (Z.of_nat j) ltac:(lia)) as H.
        rewrite Nat2Z.id in H. rewrite H.
        by rewrite lookup_kron_perm_lo by lia.
      * destruct (decide (j < L)%nat) as [Hj'|Hj'].
        -- pose proof (Hw (Z.of_nat (j - length sds)) ltac:(unfold L in *; lia))
             as H.
           replace (Z.to_nat (ndim s + Z.of_nat (j - length sds))) with j
             in H by lia.
           rewrite H.
           replace j with (Z.to_nat (ndim s) + (j - length sds))%nat at 2
             by lia.
           by rewrite lookup_kron_perm_hi by (unfold L in *; lia).
        -- rewrite !lookup_ge_None_2; [done| |lia].
           rewrite length_kron_perm. unfold L in *. lia.
Qed.

(** the outer product *)
Lemma kron_outer_product :
  ∃ ud,
    cblas_zgeru (prodZ sds) (prodZ tds) c1 sxs txs
      (replicate (Z.to_nat (prodZ (sds ++ tds))) c0) (prodZ sds) = Ok ud
    ∧ Z.of_nat (length ud) = prodZ (sds ++ tds)
    ∧ ∀ i j, 0 ≤ i < prodZ sds → 0 ≤ j < prodZ tds →
             ud !! Z.to_nat (i + prodZ sds * j)
             = Some (cmul (at_ sxs i) (at_ txs j)).
Proof.
  pose proof (prodZ_pos _ (it_pos _ _ _ Hs)) as H0M.
  pose proof (prodZ_pos _ (it_pos _ _ _ Ht)) as H0N.
  pose proof (it_len _ _ _ Hs) as Hsl. pose proof (it_len _ _ _ Ht) as Htl.
  unfold cblas_zgeru, holds_.
  rewrite bool_decide_eq_false_2 by lia.
  rewrite bool_decide_eq_false_2 by lia.
  rewrite length_replicate, prodZ_app.
  rewrite !bool_decide_eq_true_2 by nia. simpl.
  eexists. split; [done|]. split.
  - rewrite length_upd_block, length_replicate. nia.
  - intros i j Hi Hj.
    rewrite lookup_upd_block;
      [|done|done|lia|rewrite length_replicate; nia].
    by rewrite at_replicate, (axpy_1_0 SR).
Qed.

(** the final dimensions *)
Lemma kron_rdim_loop (r : tensor_t) :
  prodZ sds * prodZ tds < 2 ^ SIZE_WIDTH →
  dim r = Live (interleave sds tds) →
  for_range 0 (ndim s)
    (fun i rdim =>
       a ← rdp (dim s) i;
       b ← rdp (dim t) i;
       rdim ← wr rdim i (wrap (a * b));
       x ← rdp (dim r) (2 * i);
       y ← rdp (dim r) (2 * i + 1);
       assert (bool_decide (wrap (a * b) = wrap (x * y)));;
       Ok rdim)
    (algn_malloc 0 (ndim s)) = Ok (kron_dims sds tds).
Proof.
  intros HU Hdr.
  destruct kr_dims as [Hds Hdt]. destruct kr_ndim as [Hns Hnt].
  pose proof (it_pos _ _ _ Hs) as HpS. pose proof (it_pos _ _ _ Ht) as HpT.
  set (body := fun i rdim =>
       a ← rdp (dim s) i;
       b ← rdp (dim t) i;
       rdim ← wr rdim i (wrap (a * b));
       x ← rdp (dim r) (2 * i);
       y ← rdp (dim r) (2 * i + 1);
       assert (bool_decide (wrap (a * b) = wrap (x * y)));;
       Ok rdim).
  destruct (write_loop (length sds) (fun i => i)
              (fun i => default 0 (sds !! Z.to_nat i)
                        * default 0 (tds !! Z.to_nat i))
              0 (ndim s) body (algn_malloc 0 (ndim s)))
    as (rdim & Hrun & Hl & Hw & Hu).
  - lia.
  - unfold algn_malloc. rewrite length_replicate. lia.
  - intros; lia.
  - intros; lia.
  - intros i acc Hi Hacc. unfold body.
    destruct (lookup_lt_is_Some_2 sds (Z.to_nat i)) as [a Ha]; [lia|].
    destruct (lookup_lt_is_Some_2 tds (Z.to_nat i)) as [b Hb]; [lia|].
    rewrite Hds, Hdt, Hdr.
    rewrite (views_at _ sds i a (views_rdp _)) by (done || lia). simpl mbind.
    rewrite (views_at _ tds i b (views_rdp _)) by (done || lia). simpl mbind.
    pose proof (prodZ_lookup_le _ _ _ HpS Ha).
    pose proof (prodZ_lookup_le _ _ _ HpT Hb).
    rewrite wrap_small by nia.
    rewrite wr_Some by lia. simpl mbind.
    rewrite (views_at _ (interleave sds tds) (2 * i) a (views_rdp _));
      [|lia|].
    2:{ replace (Z.to_nat (2 * i)) with (2 * Z.to_nat i)%nat by lia.
        by rewrite lookup_interleave_even. }
    simpl mbind.
    rewrite (views_at _ (interleave sds tds) (2 * i + 1) b (views_rdp _));
      [|lia|].
    2:{ replace (Z.to_nat (2 * i + 1)) with (2 * Z.to_nat i + 1)%nat by lia.
        by rewrite lookup_interleave_odd. }
    simpl mbind.
    rewrite wrap_small by nia.
    rewrite assert_true by done. simpl mbind.
    by rewrite Ha, Hb.
  - rewrite Hrun. f_equal. apply list_eq. intros k.
    destruct (decide (k < length sds)%nat) as [Hk|Hk].
    + pose proof (Hw (Z.of_nat k) ltac:(lia)) as H.
      rewrite Nat2Z.id in H. rewrite H.
      destruct (lookup_lt_is_Some_2 sds k) as [a Ha]; [lia|].
      destruct (lookup_lt_is_Some_2 tds k) as [b Hb]; [lia|].
      rewrite (lookup_kron_dims _ _ _ _ _ Ha Hb), Ha, Hb. done.
    + rewrite !lookup_ge_None_2; [done| |lia].
      unfold kron_dims. rewrite length_zip_with. lia.
Qed.

(** TensorKroneckerProduct around the kernel call: no assert looks at the
    size of [m] or [n]; they reach the kernel through [to_int], whatever they
    are.  When the kernel returns, so does TensorKroneckerProduct, with the
    cells of the kernel's result moved to their places *)
Lemma TensorKroneckerProduct_cases :
  prodZ sds * prodZ tds < 2 ^ SIZE_WIDTH →
  (cblas_zgeru (to_int (prodZ sds)) (to_int (prodZ tds)) c1 sxs txs
     (replicate (Z.to_nat (prodZ (sds ++ tds))) c0) (to_int (prodZ sds))
   = Fault
   ∧ TensorKroneckerProduct s t = Fault)
  ∨ ∃ ud rxs,
      cblas_zgeru (to_int (prodZ sds)) (to_int (prodZ tds)) c1 sxs txs
        (replicate (Z.to_nat (prodZ (sds ++ tds))) c0) (to_int (prodZ sds))
      = Ok ud
      ∧ TensorKroneckerProduct s t
        = Ok {| ndim := Z.of_nat (length sds); dim := Live (kron_dims sds tds);
                data := Live rxs |}
      ∧ Z.of_nat (length rxs) = prodZ sds * prodZ tds
      ∧ ∀ i j, valid_index sds i → valid_index tds j →
          entry rxs (kron_dims sds tds) (kron_index sds i j)
          = ud !! Z.to_nat (offset sds i + prodZ sds * offset tds j).
Proof.
  intros HU.
  destruct kr_dims as [Hds Hdt]. destruct kr_ndim as [Hns Hnt].
  pose proof (it_pos _ _ _ Hs) as HpS. pose proof (it_pos _ _ _ Ht) as HpT.
  pose proof (prodZ_pos _ HpS) as H0M. pose proof (prodZ_pos _ HpT) as H0N.
  destruct kron_udim_loops as (udim0 & Hu0 & Hu).
  destruct kron_perm_loops as (perm0 & Hp0 & Hp).
  assert (Hpu : Forall (fun d => 0 < d) (sds ++ tds)) by (by apply Forall_app).
  assert (Hsu : prodZ (sds ++ tds) < 2 ^ SIZE_WIDTH) by (by rewrite prodZ_app).
  assert (Hn2 : ndim s + ndim t = Z.of_nat (length (sds ++ tds))).
  { rewrite length_app. lia. }
  unfold TensorKroneckerProduct.
  rewrite assert_true by lia. simpl mbind.
  assert (Hchk : int_chk (ndim s + ndim t) = Ok (ndim s + ndim t)).
  { unfold int_chk.
    by rewrite bool_decide_eq_true_2 by (unfold INT_MIN, INT_MAX in *; lia). }
  rewrite Hchk. simpl mbind. rewrite Hn2 in Hu0, Hp0 |- *.
  rewrite Hu0. simpl mbind. rewrite Hu. simpl mbind.
  rewrite (AllocateTensor_shape _ Hpu Hsu). simpl mbind.
  rewrite (NumTensorElements_ok _ _ _ Hs), (NumTensorElements_ok _ _ _ Ht).
  simpl mbind.
  set (u0 := {| ndim := Z.of_nat (length (sds ++ tds));
                dim := dim_ptr (sds ++ tds);
                data := Live (replicate (Z.to_nat (prodZ (sds ++ tds))) c0) |}).
  assert (Hu0t : is_tensor u0 (sds ++ tds)
                   (replicate (Z.to_nat (prodZ (sds ++ tds))) c0)).
  { apply is_tensor_alloc; try done.
    - rewrite length_app. lia.
    - rewrite length_replicate. pose proof (prodZ_pos _ Hpu). lia. }
  rewrite (NumTensorElements_ok _ _ _ Hu0t). simpl mbind.
  rewrite wrap_small by nia.
  rewrite assert_true by (by rewrite prodZ_app). simpl mbind.
  rewrite (it_data _ _ _ Hs), (it_data _ _ _ Ht). simpl mbind.
  destruct (zgeru_result (to_int (prodZ sds)) (to_int (prodZ tds)) c1 sxs txs
              (replicate (Z.to_nat (prodZ (sds ++ tds))) c0)
              (to_int (prodZ sds))) as [Hger|(ud & Hger & Hudl)];
    rewrite Hger; simpl mbind; [by left|right].
  rewrite length_replicate in Hudl.
  assert (Hudl' : Z.of_nat (length ud) = prodZ (sds ++ tds)).
  { pose proof (prodZ_pos _ Hpu). lia. }
  clear Hudl.
  rewrite Hp0. simpl mbind. rewrite Hp. simpl mbind.
  (* the transposition *)
  set (u := {| ndim := Z.of_nat (length (sds ++ tds));
               dim := dim_ptr (sds ++ tds); data := Live ud |}).
  assert (Hut : is_tensor u (sds ++ tds) ud).
  { apply is_tensor_alloc; try done. rewrite length_app. lia. }
  assert (Hune : sds ++ tds ≠ []) by (destruct sds; done).
  assert (Hperm : is_perm (ndim u) (kron_perm (ndim s))).
  { simpl. rewrite length_app, Hns.
    replace (Z.of_nat (length sds + length tds)%nat)
      with (2 * Z.of_nat (length sds)) by lia.
    apply kron_perm_is_perm. lia. }
  destruct (TransposeTensor_ok _ u (sds ++ tds) ud Hut Hune Hperm)
    as (rds & rxs & Hrun & Hrds & Hr & Hent).
  rewrite Hrun. simpl mbind.
  assert (Hrds' : rds = interleave sds tds).
  { apply (permuted_inj_r (ndim u) (kron_perm (ndim s)) (sds ++ tds));
      [done|done|done|].
    rewrite Hns. apply permuted_interleave. done. }
  subst rds.
  (* DeleteTensor(&u) *)
  assert (Hdel : ∃ d, DeleteTensor u = Ok d).
  { unfold DeleteTensor, u. simpl.
    rewrite bool_decide_eq_true_2
      by (rewrite length_app; destruct sds; [done|simpl; lia]).
    destruct (sds ++ tds); [done|]. simpl. eauto. }
  destruct Hdel as [d ->]. simpl mbind.
  pose proof (kron_rdim_loop
                {| ndim := ndim u; dim := Live (interleave sds tds);
                   data := Live rxs |} HU eq_refl) as Hrdim.
  cbn [dim] in Hrdim. rewrite Hrdim. clear Hrdim. simpl mbind.
  (* ReshapeTensor *)
  pose proof (kron_dims_pos _ _ HpS HpT) as Hpk.
  pose proof (prodZ_kron_dims sds tds Hlen) as Hprk.
  assert (Hlk : length (kron_dims sds tds) = length sds).
  { unfold kron_dims. rewrite length_zip_with. lia. }
  unfold ReshapeTensor.
  assert (Hsk : prodZ (kron_dims sds tds) < 2 ^ SIZE_WIDTH) by lia.
  pose proof (IntProduct_ok (rd (kron_dims sds tds)) (kron_dims sds tds)
                (length sds) (views_rd _) ltac:(lia) Hpk Hsk) as Hip.
  rewrite <- Hns in Hip. rewrite Hip. clear Hip.
  simpl mbind. rewrite take_ge by lia.
  pose proof (NumTensorElements_ok _ _ _ Hr) as Hner.
  unfold u in Hner. cbn [ndim] in Hner. rewrite Hner. clear Hner.
  simpl mbind.
  rewrite assert_true.
  2:{ rewrite take_ge, Hprk by lia.
      rewrite (permuted_prodZ _ _ _ _ Hperm eq_refl Hrds).
      by rewrite prodZ_app. }
  simpl mbind.
  rewrite bool_decide_eq_true_2 by lia. simpl mbind.
  rewrite Hns.
  exists ud, rxs. split; [done|]. split; [done|]. split.
  { rewrite (it_len _ _ _ Hr), (permuted_prodZ _ _ _ _ Hperm eq_refl Hrds).
    by rewrite prodZ_app. }
  intros i j Hi Hj.
  pose proof (valid_index_length _ _ Hi) as Hli.
  pose proof (valid_index_length _ _ Hj) as Hlj.
  unfold entry.
  rewrite <- offset_interleave by lia.
  assert (Hpij : permuted (kron_perm (ndim s)) (i ++ j) (interleave i j)).
  { rewrite Hns, <- Hli. apply permuted_interleave. lia. }
  pose proof (Hent (i ++ j) (interleave i j)
                (valid_index_app _ _ _ _ Hi Hj) Hpij) as He.
  unfold entry in He. rewrite He.
  by rewrite offset_app by done.
Qed.

(** in particular no extent makes TensorKroneckerProduct abort *)
Lemma TensorKroneckerProduct_no_abort :
  prodZ sds * prodZ tds < 2 ^ SIZE_WIDTH →
  TensorKroneckerProduct s t ≠ Abort.
Proof.
  intros HU.
  destruct (TensorKroneckerProduct_cases HU)
    as [[_ ->]|(ud & rxs & _ & -> & _)]; done.
Qed.

Hypothesis HM : prodZ sds ≤ INT_MAX.
Hypothesis HN : prodZ tds ≤ INT_MAX.

Lemma TensorKroneckerProduct_ok :
  ∃ rxs,
    TensorKroneckerProduct s t
    = Ok {| ndim := Z.of_nat (length sds); dim := Live (kron_dims sds tds);
            data := Live rxs |}
    ∧ Z.of_nat (length rxs) = prodZ sds * prodZ tds
    ∧ ∀ i j, valid_index sds i → valid_index tds j →
        entry rxs (kron_dims sds tds) (kron_index sds i j)
        = Some (cmul (tensor_at sxs sds i) (tensor_at txs tds j)).
Proof.
  pose proof (prodZ_pos _ (it_pos _ _ _ Hs)) as H0M.
  pose proof (prodZ_pos _ (it_pos _ _ _ Ht)) as H0N.
  assert (HU : prodZ sds * prodZ tds < 2 ^ SIZE_WIDTH)
    by (unfold INT_MAX, SIZE_WIDTH in *; nia).
  assert (Hint : ∀ z, 0 < z ≤ INT_MAX → to_int z = z).
  { intros z Hz. apply to_int_small. unfold INT_MIN, INT_MAX in *. lia. }
  destruct kron_outer_product as (ud' & Hger' & _ & Hud).
  destruct (TensorKroneckerProduct_cases HU)
    as [[Hger _]|(ud & rxs & Hger & Hrun & Hrl & Hent)];
    rewrite !Hint, Hger' in Hger by lia; [done|].
  injection Hger as <-.
  exists rxs. split; [done|]. split; [done|].
  intros i j Hi Hj. rewrite (Hent i j Hi Hj).
  rewrite Hud by (by apply offset_bound).
  unfold tensor_at, at_. done.
Qed.

End Kronecker.

(** ** Lowering element counts to the kernels *)

Lemma to_int_le (z : Z) : 0 ≤ z → to_int z ≤ z.
Proof.
  intros Hz. unfold to_int.
  pose proof (Z.mod_le (z + 2 ^ 31) (2 ^ 32) ltac:(lia) ltac:(lia)). lia.
Qed.

Lemma ScalarMultiplyAddTensor_ok (alpha : C) (s t : tensor_t) (ds : list Z)
    (sxs txs : list C) :
  is_tensor s ds sxs → is_tensor t ds txs →
  ScalarMultiplyAddTensor alpha s t
  = Ok {| ndim := ndim t; dim := dim t;
          data := Live (if bool_decide (to_int (prodZ ds) ≤ 0) then txs
                        else upd_prefix (to_int (prodZ ds))
                               (fun i => cadd (cmul alpha (at_ sxs i))
                                              (at_ txs i))
                               txs) |}.
Proof.
  intros Hs Ht. unfold ScalarMultiplyAddTensor.
  rewrite (NumTensorElements_ok _ _ _ Hs), (NumTensorElements_ok _ _ _ Ht).
  simpl mbind.
  rewrite (assert_true (ndim s = ndim t))
    by (rewrite (it_ndim _ _ _ Hs), (it_ndim _ _ _ Ht); done).
  simpl mbind. rewrite assert_true by done. simpl mbind.
  rewrite (it_data _ _ _ Hs), (it_data _ _ _ Ht). simpl mbind.
  pose proof (prodZ_pos _ (it_pos _ _ _ Hs)) as H0.
  pose proof (to_int_le (prodZ ds) ltac:(lia)) as Hle.
  pose proof (it_len _ _ _ Hs). pose proof (it_len _ _ _ Ht).
  unfold cblas_zaxpy, holds_.
  case_bool_decide; [done|].
  rewrite !bool_decide_eq_true_2 by lia. done.
Qed.

Lemma ScaleTensor_ok (alpha : Rl) (t : tensor_t) (ds : list Z)
    (txs : list C) :
  is_tensor t ds txs →
  ScaleTensor alpha t
  = Ok {| ndim := ndim t; dim := dim t;
          data := Live (if bool_decide (to_int (prodZ ds) ≤ 0) then txs
                        else upd_prefix (to_int (prodZ ds))
                               (fun i => rscale alpha (at_ txs i)) txs) |}.
Proof.
  intros Ht. unfold ScaleTensor.
  rewrite (NumTensorElements_ok _ _ _ Ht). simpl mbind.
  rewrite (it_data _ _ _ Ht). simpl mbind.
  pose proof (prodZ_pos _ (it_pos _ _ _ Ht)) as H0.
  pose proof (to_int_le (prodZ ds) ltac:(lia)) as Hle.
  pose proof (it_len _ _ _ Ht).
  unfold cblas_zdscal, holds_.
  case_bool_decide; [done|].
  rewrite !bool_decide_eq_true_2 by lia. done.
Qed.

(** a count of 2^31 entries reaches the AXPY kernel as -2^31: nothing is
    added and the call returns *)
Lemma ScalarMultiplyAddTensor_2p31 (alpha : C) (xs ys : list C) :
  ScalarMultiplyAddTensor alpha
    {| ndim := 1; dim := Live [2 ^ 31]; data := Live xs |}
    {| ndim := 1; dim := Live [2 ^ 31]; data := Live ys |}
  = Ok {| ndim := 1; dim := Live [2 ^ 31]; data := Live ys |}.
Proof. vm_compute. reflexivity. Qed.

(** two vectors of 2^31 entries reach the dot kernel with the count -2^31:
    no entry is read and the scalar 0 is returned *)
Lemma MultiplyTensor_2p31 (xs ys : list C) :
  MultiplyTensor
    {| ndim := 1; dim := Live [2 ^ 31]; data := Live xs |}
    {| ndim := 1; dim := Live [2 ^ 31]; data := Live ys |} 1
  = Ok {| ndim := 0; dim := NULL; data := Live [c0] |}.
Proof. vm_compute. reflexivity. Qed.

(** C8 (as amended): no operation that lowers an element count to a kernel
    compares it with the range of [int], and none aborts on its account.  For
    conforming operands of whatever size, ScalarMultiplyAddTensor and
    ScaleTensor return, and when the count is at most INT_MAX they update
    every entry; MultiplyTensor and TensorKroneckerProduct do not abort,
    whatever the extents that they lower are, and return a tensor when these
    are at most INT_MAX.  For the two that allocate, the buffer of the
    result, 16 bytes per entry, has a size that fits size_t and the
    allocation is taken to succeed (a failing one makes AllocateTensor abort,
    and is not modelled).  Nothing is stated on what an operation computes
    from a count above INT_MAX. *)
Theorem kernel_counts_unchecked :
  semi_ring_theory c0 c1 cadd cmul eq →
  (∀ (alpha : C) (s t : tensor_t) (ds : list Z) (sxs txs : list C),
      is_tensor s ds sxs → is_tensor t ds txs →
      ∃ txs',
        ScalarMultiplyAddTensor alpha s t
        = Ok {| ndim := ndim t; dim := dim t; data := Live txs' |}
        ∧ length txs' = length txs
        ∧ (prodZ ds ≤ INT_MAX →
           ∀ i, 0 ≤ i < prodZ ds →
                txs' !! Z.to_nat i
                = Some (cadd (cmul alpha (at_ sxs i)) (at_ txs i))))
  ∧ (∀ (alpha : Rl) (t : tensor_t) (ds : list Z) (txs : list C),
      is_tensor t ds txs →
      ∃ txs',
        ScaleTensor alpha t
        = Ok {| ndim := ndim t; dim := dim t; data := Live txs' |}
        ∧ length txs' = length txs
        ∧ (prodZ ds ≤ INT_MAX →
           ∀ i, 0 ≤ i < prodZ ds →
                txs' !! Z.to_nat i = Some (rscale alpha (at_ txs i))))
  ∧ (∀ (s t : tensor_t) (A Kd Cd : list Z) (sxs txs : list C),
      is_tensor s (A ++ Kd) sxs → is_tensor t (Kd ++ Cd) txs → Kd ≠ [] →
      Z.of_nat (length (A ++ Kd)) + Z.of_nat (length (Kd ++ Cd)) ≤ INT_MAX →
      prodZ A * prodZ Cd * SIZEOF_COMPLEX < 2 ^ SIZE_WIDTH →
      MultiplyTensor s t (Z.of_nat (length Kd)) ≠ Abort
      ∧ (prodZ A ≤ INT_MAX → prodZ Kd ≤ INT_MAX → prodZ Cd ≤ INT_MAX →
         ∃ r, MultiplyTensor s t (Z.of_nat (length Kd)) = Ok r))
  ∧ (∀ (s t : tensor_t) (sds tds : list Z) (sxs txs : list C),
      is_tensor s sds sxs → is_tensor t tds txs →
      length tds = length sds → sds ≠ [] →
      2 * Z.of_nat (length sds) ≤ INT_MAX →
      prodZ sds * prodZ tds * SIZEOF_COMPLEX < 2 ^ SIZE_WIDTH →
      TensorKroneckerProduct s t ≠ Abort
      ∧ (prodZ sds ≤ INT_MAX → prodZ tds ≤ INT_MAX →
         ∃ r, TensorKroneckerProduct s t = Ok r)).
Proof.
  intros SR.
  assert (Hint : ∀ n, 0 ≤ n ≤ INT_MAX → to_int n = n).
  { intros n Hn. apply to_int_small. unfold INT_MIN, INT_MAX in *. lia. }
  split; [|split; [|split]].
  - intros alpha s t ds sxs txs Hs Ht.
    rewrite (ScalarMultiplyAddTensor_ok alpha s t ds sxs txs Hs Ht).
    eexists. split; [done|].
    pose proof (prodZ_pos _ (it_pos _ _ _ Hs)) as H0.
    pose proof (to_int_le (prodZ ds) ltac:(lia)) as Hle.
    pose proof (it_len _ _ _ Ht) as Hl.
    case_bool_decide as Hn.
    + split; [done|]. intros Hfit i Hi. rewrite Hint in Hn by lia. lia.
    + split; [apply length_upd_prefix; lia|].
      intros Hfit i Hi. rewrite Hint in Hn |- * by lia.
      by apply lookup_upd_prefix.
  - intros alpha t ds txs Ht.
    rewrite (ScaleTensor_ok alpha t ds txs Ht).
    eexists. split; [done|].
    pose proof (prodZ_pos _ (it_pos _ _ _ Ht)) as H0.
    pose proof (to_int_le (prodZ ds) ltac:(lia)) as Hle.
    pose proof (it_len _ _ _ Ht) as Hl.
    case_bool_decide as Hn.
    + split; [done|]. intros Hfit i Hi. rewrite Hint in Hn by lia. lia.
    + split; [apply length_upd_prefix; lia|].
      intros Hfit i Hi. rewrite Hint in Hn |- * by lia.
      by apply lookup_upd_prefix.
  - intros s t A Kd Cd sxs txs Hs Ht HKd Hrk Hbytes. split.
    + apply (MultiplyTensor_no_abort s t A Kd Cd sxs txs Hs Ht HKd Hrk).
      unfold SIZEOF_COMPLEX, SIZE_WIDTH in *. lia.
    + intros HA HK HC.
      destruct (MultiplyTensor_ok SR s t A Kd Cd sxs txs Hs Ht HKd Hrk
                  HA HK HC) as (rxs & Hrun & _). eauto.
  - intros s t sds tds sxs txs Hs Ht Hl Hne Hrk Hbytes. split.
    + apply (TensorKroneckerProduct_no_abort s t sds tds sxs txs Hs Ht Hl
               Hne Hrk).
      unfold SIZEOF_COMPLEX, SIZE_WIDTH in *. lia.
    + intros HM HN.
      destruct (TensorKroneckerProduct_ok SR s t sds tds sxs txs Hs Ht Hl Hne
                  Hrk HM HN) as (rxs & Hrun & _). eauto.
Qed.

(** ** The claims on the Kronecker product and on the inner product *)


(** C3 (the code at the failing input): for two rank-0 tensors, which have
    equal rank, TensorKroneckerProduct does not return their product: it
    forms the outer product and then calls TransposeTensor on the rank-0
    tensor u, which reads perm[0] of the empty permutation.  For equal rank
    at least 1 the contract holds ([TensorKroneckerProduct_correct]). *)
Theorem TensorKroneckerProduct_rank0_fault (x y : C) :
  TensorKroneckerProduct
    {| ndim := 0; dim := NULL; data := Live [x] |}
    {| ndim := 0; dim := NULL; data := Live [y] |} = Fault.
Proof. vm_compute. reflexivity. Qed.

(** the contraction of all entries: LDS = TDT = 1 *)
Lemma MultiplyTensor_dot (s t : tensor_t) (A Kd Cd : list Z)
    (sxs txs : list C) :
  semi_ring_theory c0 c1 cadd cmul eq →
  is_tensor s (A ++ Kd) sxs → is_tensor t (Kd ++ Cd) txs → Kd ≠ [] →
  Z.of_nat (length (A ++ Kd)) + Z.of_nat (length (Kd ++ Cd)) ≤ INT_MAX →
  prodZ A = 1 → prodZ Cd = 1 → prodZ Kd ≤ INT_MAX →
  MultiplyTensor s t (Z.of_nat (length Kd))
  = Ok {| ndim := Z.of_nat (length (A ++ Cd)); dim := dim_ptr (A ++ Cd);
          data := Live [csum (prodZ Kd)
                          (fun k => cmul (at_ sxs k) (at_ txs k))] |}.
Proof.
  intros SR Hs Ht HKd Hrk HA HC HK.
  destruct (MultiplyTensor_ok SR s t A Kd Cd sxs txs Hs Ht HKd Hrk)
    as (rxs & Hrun & Hrl & Hent);
    [unfold INT_MAX; lia|done|unfold INT_MAX; lia|].
  rewrite Hrun. do 3 f_equal.
  specialize (Hent 0 0 ltac:(lia) ltac:(lia)).
  rewrite HA, HC in *. simpl in Hent.
  destruct rxs as [|v [|w rxs]]; simpl in *; try lia.
  injection Hent as ->. f_equal.
  apply csum_ext. intros k Hk. do 2 f_equal; lia.
Qed.

(** ** Further properties of the operations *)

(** *** Loops that stop at a failed assert *)

Lemma for_loop_app {St} (body : Z → St → result St) :
  ∀ (n m : nat) (l : Z) (s : St),
    for_loop (n + m) l body s
    = (s' ← for_loop n l body s; for_loop m (l + Z.of_nat n) body s').
Proof.
  induction n as [|n IH]; intros m l s; simpl.
  - by rewrite Z.add_0_r.
  - destruct (body l s) as [s1| | |]; simpl; try done.
    rewrite IH. do 2 f_equal. lia.
Qed.

Lemma for_range_split {St} (lo k hi : Z) (body : Z → St → result St) (s : St) :
  lo ≤ k ≤ hi →
  for_range lo hi body s
  = (s' ← for_range lo k body s; for_range k hi body s').
Proof.
  intros H. unfold for_range.
  replace (Z.to_nat (hi - lo))
    with (Z.to_nat (k - lo) + Z.to_nat (hi - k))%nat by lia.
  rewrite for_loop_app.
  by replace (lo + Z.of_nat (Z.to_nat (k - lo))) with k by lia.
Qed.

Lemma for_range_abort {St} (I : Z → St → Prop) (lo hi k : Z)
    (body : Z → St → result St) (s : St) :
  lo ≤ k < hi → I lo s →
  (∀ i s, lo ≤ i < k → I i s →
          body i s = Abort ∨ ∃ s', body i s = Ok s' ∧ I (i + 1) s') →
  (∀ s, I k s → body k s = Abort) →
  for_range lo hi body s = Abort.
Proof.
  intros Hk Hs Hstep Hab.
  rewrite (for_range_split lo k hi) by lia.
  assert (Hpre : ∀ (n : nat) (l : Z) (s : St),
             l + Z.of_nat n = k → lo ≤ l → I l s →
             for_loop n l body s = Abort
             ∨ ∃ s', for_loop n l body s = Ok s' ∧ I k s').
  { induction n as [|n IH]; intros l s0 Hl Hlo Hs0; simpl.
    - right. exists s0. split; [done|]. by replace k with l by lia.
    - destruct (Hstep l s0 ltac:(lia) Hs0) as [->|(s1 & -> & Hs1)];
        [by left|]. simpl. apply IH; [lia|lia|done]. }
  unfold for_range at 2.
  destruct (Hpre (Z.to_nat (k - lo)) lo s ltac:(lia) ltac:(lia) Hs)
    as [->|(s' & -> & Hs')]; [done|]. simpl.
  rewrite for_range_step by lia. by rewrite (Hab s' Hs').
Qed.

(** *** The element count in [size_t] arithmetic *)

Lemma IntProduct_wrap (v : Z → result Z) (ds : list Z) (n : nat) :
  views v ds → (n ≤ length ds)%nat →
  IntProduct v (Z.of_nat n) = Ok (wrap (prodZ (take n ds))).
Proof.
  intros Hv Hn. unfold IntProduct.
  destruct (for_range_inv
              (fun i p => p = wrap (prodZ (take (Z.to_nat i) ds))) 0
              (Z.of_nat n)
              (fun i prod => d ← v i; Ok (wrap (prod * d))) 1)
    as (p & -> & ->); [lia|done| |by rewrite Nat2Z.id].
  intros i p Hi ->.
  destruct (lookup_lt_is_Some_2 ds (Z.to_nat i)) as [d Hd]; [lia|].
  rewrite (views_at v ds i d) by (done || lia). simpl.
  eexists. split; [done|].
  replace (Z.to_nat (i + 1)) with (S (Z.to_nat i)) by lia.
  rewrite (prodZ_take_S _ _ _ Hd). unfold wrap.
  by rewrite Z.mul_mod_idemp_l.
Qed.

Lemma prodZ_zero (ds : list Z) : 0 ∈ ds → prodZ ds = 0.
Proof.
  induction ds as [|d ds IH]; intros H; [by apply elem_of_nil in H|].
  rewrite prodZ_cons. apply elem_of_cons in H as [<-|H]; [lia|].
  rewrite IH by done. lia.
Qed.

(** *** AllocateTensor *)

(** X1: AllocateTensor refuses a negative rank and every shape with an extent
    0: the assert on the rank, respectively the assert on the element count,
    fails. *)
Theorem AllocateTensor_rejects (nd : Z) (dm : list Z) :
  (nd < 0 → AllocateTensor nd dm = Abort)
  ∧ (0 < nd ≤ Z.of_nat (length dm) → 0 ∈ take (Z.to_nat nd) dm →
     AllocateTensor nd dm = Abort).
Proof.
  unfold AllocateTensor. split.
  - intros H. rewrite (bool_decide_eq_false_2 (0 ≤ nd)) by lia. reflexivity.
  - intros H H0.
    rewrite assert_true by lia. simpl mbind.
    rewrite !bool_decide_eq_true_2 by lia. simpl mbind.
    unfold NumTensorElements. cbn [ndim dim].
    pose proof (IntProduct_wrap (rdp (Live (take (Z.to_nat nd) dm)))
                  (take (Z.to_nat nd) dm) (Z.to_nat nd) (views_rdp _)) as Hp.
    rewrite Z2Nat.id in Hp by lia.
    rewrite Hp by (rewrite length_take; lia). simpl mbind.
    rewrite take_take, Nat.min_id, (prodZ_zero _ H0).
    reflexivity.
Qed.

(** X2: AllocateTensor computes the element count modulo 2^64 and does not
    notice an overflow: for a shape whose wrapped count is positive it returns
    a tensor of this shape with as many cells as the wrapped count. *)
Theorem AllocateTensor_count_wraps (ds : list Z) :
  ds ≠ [] → 0 < wrap (prodZ ds) →
  AllocateTensor (Z.of_nat (length ds)) ds
  = Ok {| ndim := Z.of_nat (length ds); dim := Live ds;
          data := Live (replicate (Z.to_nat (wrap (prodZ ds))) c0) |}.
Proof.
  intros Hne Hpos. unfold AllocateTensor.
  assert (0 < length ds)%nat by (destruct ds; [done|simpl; lia]).
  rewrite assert_true by lia. simpl mbind.
  rewrite !bool_decide_eq_true_2 by lia. simpl mbind.
  rewrite Nat2Z.id, take_ge by lia.
  unfold NumTensorElements. cbn [ndim dim].
  rewrite (IntProduct_wrap (rdp (Live ds)) ds) by (done || apply views_rdp).
  simpl mbind. rewrite take_ge by lia.
  rewrite assert_true by done. reflexivity.
Qed.

(** X3: For a shape of positive extents whose data buffer has a size in
    bytes, 16 per entry, that fits size_t, and provided the allocation
    succeeds (a failing allocation makes AllocateTensor abort at its assert
    on the data pointer, and is not modelled), a tensor from AllocateTensor
    has the requested shape and the entry 0 at every multi-index; DeleteTensor
    releases exactly the buffers it owns: the dimension vector and the data
    for rank at least 1, only the data for rank 0. *)
Theorem AllocateTensor_DeleteTensor (ds : list Z) :
  Forall (fun d => 0 < d) ds →
  prodZ ds * SIZEOF_COMPLEX < 2 ^ SIZE_WIDTH →
  Z.of_nat (length ds) ≤ INT_MAX →
  ∃ t xs t',
    AllocateTensor (Z.of_nat (length ds)) ds = Ok t
    ∧ is_tensor t ds xs
    ∧ (∀ i, valid_index ds i → entry xs ds i = Some c0)
    ∧ DeleteTensor t = Ok (t', if decide (ds = []) then 1%nat else 2%nat)
    ∧ ndim t' = 0 ∧ data t' = NULL.
Proof.
  intros Hpos Hbytes Hrk.
  pose proof (prodZ_pos _ Hpos) as H0.
  assert (Hsz : prodZ ds < 2 ^ SIZE_WIDTH) by (unfold SIZEOF_COMPLEX in *; lia).
  rewrite (AllocateTensor_shape ds Hpos Hsz).
  eexists _, (replicate (Z.to_nat (prodZ ds)) c0),
    {| ndim := 0; dim := match ds with [] => NULL | _ => Dangling end;
       data := NULL |}.
  split; [reflexivity|]. split; [|split; [|split; [|done]]].
  - apply is_tensor_alloc; try done. rewrite length_replicate. lia.
  - intros i Hi. unfold entry. apply lookup_replicate_2.
    pose proof (offset_bound _ _ Hi). lia.
  - unfold DeleteTensor. cbn [ndim dim data].
    destruct ds as [|d ds]; simpl; done.
Qed.

(** *** CopyTensor *)

Lemma memcpy_all (dst src : list C) :
  length dst = length src →
  Z.of_nat (length src) * SIZEOF_COMPLEX < 2 ^ SIZE_WIDTH →
  memcpy dst src (wrap (Z.of_nat (length src) * SIZEOF_COMPLEX)) = Ok src.
Proof.
  intros Hl Hb. unfold memcpy, holds_, SIZEOF_COMPLEX in *.
  rewrite wrap_small by lia. rewrite Z.div_mul by lia.
  rewrite !bool_decide_eq_true_2 by lia. simpl.
  rewrite Nat2Z.id, take_ge, drop_ge by lia. by rewrite app_nil_r.
Qed.

Lemma CopyTensor_ok (src : tensor_t) (ds : list Z) (xs : list C) :
  is_tensor src ds xs →
  prodZ ds * SIZEOF_COMPLEX < 2 ^ SIZE_WIDTH →
  CopyTensor src
  = Ok {| ndim := Z.of_nat (length ds); dim := dim_ptr ds; data := Live xs |}.
Proof.
  intros Ht Hb. unfold CopyTensor.
  pose proof (it_len _ _ _ Ht) as Hlen.
  assert (Hal : AllocateTensor (ndim src) (cells (dim src))
                = Ok {| ndim := Z.of_nat (length ds); dim := dim_ptr ds;
                        data := Live (replicate (Z.to_nat (prodZ ds)) c0) |}).
  { rewrite (it_ndim _ _ _ Ht). destruct ds as [|d ds]; [done|].
    rewrite (it_dim _ _ _ Ht) by done. simpl cells.
    apply AllocateTensor_shape; apply Ht. }
  rewrite Hal. simpl mbind.
  rewrite (NumTensorElements_ok _ _ _ Ht). simpl mbind.
  rewrite (it_data _ _ _ Ht). simpl mbind.
  rewrite <- Hlen, memcpy_all; [|rewrite length_replicate; lia|lia].
  done.
Qed.

(** X4: CopyTensor returns a tensor of the same shape with the same entries,
    for every rank, rank 0 included; the copy owns fresh buffers.  The data
    buffer of the source exists, so its size in bytes is a [size_t]. *)
Theorem CopyTensor_correct (src : tensor_t) (ds : list Z) (xs : list C) :
  is_tensor src ds xs →
  prodZ ds * SIZEOF_COMPLEX < 2 ^ SIZE_WIDTH →
  ∃ dst,
    CopyTensor src = Ok dst
    ∧ is_tensor dst ds xs
    ∧ dim dst = dim_ptr ds.
Proof.
  intros Ht Hb. rewrite (CopyTensor_ok src ds xs Ht Hb).
  eexists. split; [done|]. split; [|done].
  apply is_tensor_alloc; apply Ht.
Qed.

(** *** ReshapeTensor *)

Lemma ReshapeTensor_ok (t : tensor_t) (ds ds' : list Z) (xs : list C) :
  is_tensor t ds xs → dim t = dim_ptr ds →
  Forall (fun d => 0 < d) ds' → prodZ ds' = prodZ ds →
  ReshapeTensor (Z.of_nat (length ds')) ds' t
  = Ok {| ndim := Z.of_nat (length ds'); dim := Live ds'; data := Live xs |}.
Proof.
  intros Ht Hdim Hpos Hprod. unfold ReshapeTensor.
  pose proof (it_size _ _ _ Ht) as Hsz.
  pose proof (IntProduct_ok (rd ds') ds' (length ds') (views_rd _)
                ltac:(lia) Hpos ltac:(lia)) as Hp.
  rewrite take_ge in Hp by lia. rewrite Hp. simpl mbind.
  rewrite (NumTensorElements_ok _ _ _ Ht). simpl mbind.
  rewrite assert_true by done. simpl mbind.
  rewrite Hdim.
  assert (Hfree : ∃ r, algn_free (dim_ptr ds) = Ok r)
    by (destruct ds; simpl; eauto).
  destruct Hfree as [r ->]. simpl mbind.
  rewrite bool_decide_eq_true_2 by lia. simpl mbind.
  rewrite Nat2Z.id, take_ge by lia. by rewrite (it_data _ _ _ Ht).
Qed.

(** X7: ReshapeTensor to a shape with the same number of entries changes the
    rank and the extents only: the data stay in place, so the entry at a flat
    position is the same before and after, at the multi-index of that position
    in the old and in the new shape. *)
Theorem ReshapeTensor_correct (t : tensor_t) (ds ds' : list Z) (xs : list C) :
  is_tensor t ds xs → dim t = dim_ptr ds →
  Forall (fun d => 0 < d) ds' → prodZ ds' = prodZ ds →
  Z.of_nat (length ds') ≤ INT_MAX →
  ∃ t',
    ReshapeTensor (Z.of_nat (length ds')) ds' t = Ok t'
    ∧ is_tensor t' ds' xs
    ∧ data t' = data t
    ∧ (∀ o, 0 ≤ o < prodZ ds →
            valid_index ds' (index_of ds' o)
            ∧ entry xs ds' (index_of ds' o) = entry xs ds (index_of ds o)).
Proof.
  intros Ht Hdim Hpos Hprod Hrk.
  rewrite (ReshapeTensor_ok t ds ds' xs Ht Hdim Hpos Hprod).
  eexists. split; [done|]. split; [|split].
  - constructor; simpl; try done.
    + rewrite Hprod. apply Ht.
    + rewrite Hprod. apply Ht.
  - simpl. symmetry. apply Ht.
  - intros o Ho. split; [by apply index_of_valid|].
    unfold entry.
    rewrite !offset_index_of by (done || apply Ht || lia). done.
Qed.

(** X8: ReshapeTensor aborts when the new shape has another number of entries
    than the tensor; the new count is taken modulo 2^64. *)
Theorem ReshapeTensor_mismatch (t : tensor_t) (ds ds' : list Z)
    (xs : list C) :
  is_tensor t ds xs → wrap (prodZ ds') ≠ prodZ ds →
  ReshapeTensor (Z.of_nat (length ds')) ds' t = Abort.
Proof.
  intros Ht Hne. unfold ReshapeTensor.
  pose proof (IntProduct_wrap (rd ds') ds' (length ds') (views_rd _)
                ltac:(lia)) as Hp.
  rewrite take_ge in Hp by lia. rewrite Hp. simpl mbind.
  rewrite (NumTensorElements_ok _ _ _ Ht). simpl mbind.
  by rewrite (bool_decide_eq_false_2 (wrap (prodZ ds') = prodZ ds)).
Qed.

(** X9: Reshaping a tensor of rank at least 1 and reshaping it back to its
    shape returns the tensor. *)
Theorem ReshapeTensor_roundtrip (t : tensor_t) (ds ds' : list Z)
    (xs : list C) :
  is_tensor t ds xs → ds ≠ [] →
  Forall (fun d => 0 < d) ds' → prodZ ds' = prodZ ds →
  Z.of_nat (length ds') ≤ INT_MAX →
  ∃ t',
    ReshapeTensor (Z.of_nat (length ds')) ds' t = Ok t'
    ∧ ReshapeTensor (Z.of_nat (length ds)) ds t' = Ok t.
Proof.
  intros Ht Hne Hpos Hprod Hrk.
  assert (Hdim : dim t = dim_ptr ds).
  { rewrite (it_dim _ _ _ Ht) by done. by destruct ds. }
  rewrite (ReshapeTensor_ok t ds ds' xs Ht Hdim Hpos Hprod).
  eexists. split; [done|].
  unfold ReshapeTensor.
  pose proof (it_size _ _ _ Ht) as Hsz.
  pose proof (IntProduct_ok (rd ds) ds (length ds) (views_rd _)
                ltac:(lia) (it_pos _ _ _ Ht) Hsz) as Hp.
  rewrite take_ge in Hp by lia. rewrite Hp. simpl mbind.
  assert (Ht' : is_tensor {| ndim := Z.of_nat (length ds'); dim := Live ds';
                             data := Live xs |} ds' xs).
  { constructor; simpl; try done.
    - rewrite Hprod. apply Ht.
    - rewrite Hprod. apply Ht. }
  rewrite (NumTensorElements_ok _ _ _ Ht'), Hprod. simpl mbind.
  rewrite assert_true by done. simpl mbind.
  rewrite bool_decide_eq_true_2 by lia. simpl mbind.
  rewrite Nat2Z.id, take_ge by lia.
  f_equal. symmetry. by apply is_tensor_eta.
Qed.

(** *** ScalarMultiplyAddTensor *)

(** X10: ScalarMultiplyAddTensor compares the ranks and the element counts of
    its arguments, not their extents: for tensors of equal rank and count, of
    whatever shapes, it adds alpha times the flat data of s to the flat data
    of t and leaves the shape of t as it is. *)
Theorem ScalarMultiplyAddTensor_flat (alpha : C) (s t : tensor_t)
    (sds tds : list Z) (sxs txs : list C) :
  is_tensor s sds sxs → is_tensor t tds txs →
  length sds = length tds → prodZ sds = prodZ tds → prodZ sds ≤ INT_MAX →
  ∃ t' txs',
    ScalarMultiplyAddTensor alpha s t = Ok t'
    ∧ is_tensor t' tds txs'
    ∧ dim t' = dim t
    ∧ (∀ o, 0 ≤ o < prodZ tds →
            txs' !! Z.to_nat o
            = Some (cadd (cmul alpha (at_ sxs o)) (at_ txs o))).
Proof.
  intros Hs Ht Hl Hp Hmax. unfold ScalarMultiplyAddTensor.
  rewrite (NumTensorElements_ok _ _ _ Hs), (NumTensorElements_ok _ _ _ Ht).
  simpl mbind.
  rewrite (assert_true (ndim s = ndim t))
    by (rewrite (it_ndim _ _ _ Hs), (it_ndim _ _ _ Ht); lia).
  simpl mbind. rewrite assert_true by done. simpl mbind.
  rewrite (it_data _ _ _ Hs), (it_data _ _ _ Ht). simpl mbind.
  pose proof (prodZ_pos _ (it_pos _ _ _ Hs)) as H0.
  pose proof (it_len _ _ _ Hs). pose proof (it_len _ _ _ Ht) as Htl.
  rewrite to_int_small by (unfold INT_MIN, INT_MAX in *; lia).
  unfold cblas_zaxpy, holds_.
  rewrite bool_decide_eq_false_2 by lia.
  rewrite !bool_decide_eq_true_2 by lia. simpl mbind.
  eexists _, _. split; [done|]. split; [|split; [done|]].
  - destruct Ht as [H1 H2 H3 H4 H5 H6 H7].
    constructor; simpl; try done.
    rewrite length_upd_prefix by lia. done.
  - intros o Ho. by rewrite lookup_upd_prefix by lia.
Qed.

(** X11: ScalarMultiplyAddTensor aborts when the ranks or the element counts
    of its arguments differ. *)
Theorem ScalarMultiplyAddTensor_mismatch (alpha : C) (s t : tensor_t)
    (sds tds : list Z) (sxs txs : list C) :
  is_tensor s sds sxs → is_tensor t tds txs →
  length sds ≠ length tds ∨ prodZ sds ≠ prodZ tds →
  ScalarMultiplyAddTensor alpha s t = Abort.
Proof.
  intros Hs Ht Hne. unfold ScalarMultiplyAddTensor.
  rewrite (NumTensorElements_ok _ _ _ Hs), (NumTensorElements_ok _ _ _ Ht).
  simpl mbind.
  rewrite (it_ndim _ _ _ Hs), (it_ndim _ _ _ Ht).
  destruct (decide (length sds = length tds)) as [Hl|Hl].
  - rewrite (assert_true (Z.of_nat (length sds) = Z.of_nat (length tds)))
      by lia.
    simpl mbind. destruct Hne as [Hne|Hne]; [done|].
    by rewrite (bool_decide_eq_false_2 (prodZ sds = prodZ tds)).
  - by rewrite (bool_decide_eq_false_2
                  (Z.of_nat (length sds) = Z.of_nat (length tds))) by lia.
Qed.

(** *** IndexToOffset and NextIndex *)

(** X12: IndexToOffset is a bijection between the multi-indices of a shape and
    the flat positions below the element count: it returns a position in
    range, distinct multi-indices get distinct positions, and every position
    is the image of the multi-index obtained by successive division. *)
Theorem IndexToOffset_bijection (ds : list Z) :
  Forall (fun d => 0 < d) ds → prodZ ds < 2 ^ SIZE_WIDTH →
  let n := Z.of_nat (length ds) in
  (∀ idx, valid_index ds idx →
     ∃ o, IndexToOffset n (rd ds) (rd idx) = Ok o
          ∧ 0 ≤ o < prodZ ds ∧ index_of ds o = idx)
  ∧ (∀ i j o, valid_index ds i → valid_index ds j →
       IndexToOffset n (rd ds) (rd i) = Ok o →
       IndexToOffset n (rd ds) (rd j) = Ok o → i = j)
  ∧ (∀ o, 0 ≤ o < prodZ ds →
       valid_index ds (index_of ds o)
       ∧ IndexToOffset n (rd ds) (rd (index_of ds o)) = Ok o).
Proof.
  intros Hpos Hsz n. unfold n. split; [|split].
  - intros idx Hv. exists (offset ds idx).
    split; [apply IndexToOffset_ok; auto using views_rd|].
    split; [by apply offset_bound|by apply index_of_offset].
  - intros i j o Hi Hj Ho Ho'.
    rewrite (IndexToOffset_ok _ _ ds i) in Ho by auto using views_rd.
    rewrite (IndexToOffset_ok _ _ ds j) in Ho' by auto using views_rd.
    apply (offset_inj ds); [done|done|congruence].
  - intros o Ho.
    pose proof (index_of_valid ds o Hpos) as Hv. split; [done|].
    rewrite (IndexToOffset_ok _ _ ds (index_of ds o))
      by auto using views_rd.
    by rewrite offset_index_of.
Qed.

Lemma next_index_last (ds idx : list Z) :
  valid_index ds idx → offset ds idx + 1 = prodZ ds →
  offset ds (next_index ds idx) = 0.
Proof.
  induction 1 as [|d i ds idx Hi Hv IH]; simpl; intros Hlast; [done|].
  rewrite prodZ_cons in Hlast.
  pose proof (offset_bound _ _ Hv) as Hb.
  case_bool_decide; simpl; [nia|].
  rewrite IH; nia.
Qed.

(** X13: NextIndex turns a multi-index into its successor in column-major
    order: the flat position grows by one, and from the last multi-index it
    returns to the first one, all zeros. *)
Theorem NextIndex_successor (ds idx : list Z) :
  valid_index ds idx → prodZ ds < 2 ^ SIZE_WIDTH →
  let n := Z.of_nat (length ds) in
  ∃ idx' o,
    NextIndex n (rd ds) 0 idx = Ok idx'
    ∧ valid_index ds idx'
    ∧ IndexToOffset n (rd ds) (rd idx) = Ok o
    ∧ IndexToOffset n (rd ds) (rd idx') = Ok ((o + 1) mod prodZ ds)
    ∧ (o + 1 = prodZ ds → idx' = replicate (length ds) 0).
Proof.
  intros Hv Hsz n. unfold n.
  assert (Hpos : Forall (fun d => 0 < d) ds).
  { clear -Hv. induction Hv; constructor; [lia|done]. }
  assert (Hsm : Forall (fun d => d < 2 ^ SIZE_WIDTH) ds).
  { apply Forall_lookup_2. intros i d Hd.
    pose proof (prodZ_lookup_le _ _ _ Hpos Hd). lia. }
  pose proof (NextIndex_loop_ok (rd ds) ds 0 (views_rd _) Hsm ds idx [] 0
                eq_refl Hv eq_refl) as Hnx.
  simpl in Hnx.
  exists (next_index ds idx), (offset ds idx).
  pose proof (next_index_valid _ _ Hv) as Hv'.
  pose proof (offset_bound _ _ Hv) as Hb.
  split; [|split; [done|split; [|split]]].
  - unfold NextIndex. by rewrite Nat2Z.id.
  - apply IndexToOffset_ok; auto using views_rd.
  - rewrite (IndexToOffset_ok _ _ ds (next_index ds idx))
      by auto using views_rd.
    f_equal.
    destruct (decide (offset ds idx + 1 < prodZ ds)) as [Hlt|Hge].
    + rewrite next_index_offset by done. by rewrite Z.mod_small by lia.
    + assert (Hlast : offset ds idx + 1 = prodZ ds) by lia.
      rewrite next_index_last, Hlast by done.
      by rewrite Z.mod_same by lia.
  - intros Hlast. apply (offset_inj ds); [done|by apply valid_index_zeros|].
    rewrite next_index_last, offset_zeros by done. done.
Qed.

(** *** TensorTrace *)

Lemma csum_succ (n : Z) (f : Z → C) :
  0 ≤ n → csum (n + 1) f = cadd (csum n f) (f n).
Proof.
  intros Hn. unfold csum.
  rewrite seqZ_app by lia. rewrite foldl_app. simpl.
  by rewrite Z.add_0_l.
Qed.

Lemma TensorTrace_ok (t : tensor_t) (n : Z) (r : nat) (xs : list C) :
  is_tensor t (replicate (S r) n) xs →
  TensorTrace t
  = Ok (csum n (fun j => tensor_at xs (replicate (S r) n)
                           (replicate (S r) j))).
Proof.
  intros Ht.
  pose proof (it_pos _ _ _ Ht) as Hpos.
  assert (Hn : 0 < n) by (by inversion Hpos).
  pose proof (it_size _ _ _ Ht) as Hsz. rewrite prodZ_replicate in Hsz.
  pose proof (it_len _ _ _ Ht) as Hlen. rewrite prodZ_replicate in Hlen.
  pose proof (it_ndim _ _ _ Ht) as Hnd. rewrite length_replicate in Hnd.
  unfold TensorTrace.
  rewrite assert_true by lia. simpl mbind.
  assert (Hd0 : rdp (dim t) 0 = Ok n).
  { rewrite (it_dim _ _ _ Ht) by done. done. }
  rewrite Hd0. simpl mbind.
  pose proof (stride_loop_ok t n r xs Ht) as Hsl. cbv zeta in Hsl.
  rewrite Hsl. clear Hsl. simpl mbind.
  destruct (for_range_inv
    (fun j tr =>
       tr = csum j (fun j => tensor_at xs (replicate (S r) n)
                               (replicate (S r) j))) 0 n
    (fun j tr => x ← rdp (data t) (wrap (j * geom n (S r))); Ok (cadd tr x))
    c0) as (tr & -> & ->); [lia|done| |done].
  intros j tr Hj ->.
  pose proof (geom_diag_bound n j (S r) Hj ltac:(lia)).
  rewrite wrap_small by lia.
  unfold rdp. rewrite (it_data _ _ _ Ht). simpl mbind.
  destruct (lookup_lt_is_Some_2 xs (Z.to_nat (j * geom n (S r)))) as [x Hx];
    [lia|].
  rewrite (rd_Some _ _ x) by (lia || done). simpl mbind.
  eexists; split; [done|].
  rewrite csum_succ by lia. f_equal.
  unfold tensor_at. by rewrite offset_diag, Hx.
Qed.

(** X14: TensorTrace of a tensor of rank at least 1 whose extents all equal n
    is the sum of the diagonal entries T[j,...,j], j = 0, ..., n-1, added in
    this order to 0; each of them is an entry of the tensor. *)
Theorem TensorTrace_sum (t : tensor_t) (n : Z) (r : nat) (xs : list C) :
  (1 ≤ r)%nat →
  is_tensor t (replicate r n) xs →
  TensorTrace t
  = Ok (csum n (fun j => tensor_at xs (replicate r n) (replicate r j)))
  ∧ ∀ j, 0 ≤ j < n →
         valid_index (replicate r n) (replicate r j)
         ∧ entry xs (replicate r n) (replicate r j)
           = Some (tensor_at xs (replicate r n) (replicate r j)).
Proof.
  intros Hr Ht. destruct r as [|r]; [lia|].
  split; [by apply TensorTrace_ok|].
  intros j Hj.
  pose proof (valid_index_diag n j (S r) Hj) as Hv.
  split; [done|].
  destruct (entry_is_Some _ _ _ _ Ht Hv) as [x Hx].
  unfold tensor_at. unfold entry in Hx |- *. by rewrite Hx.
Qed.

(** X15: IdentityTensor and TensorTrace abort on a tensor of rank 0 and on a
    tensor with an extent that differs from the first one. *)
Theorem IdentityTensor_TensorTrace_reject (t : tensor_t) (ds : list Z)
    (xs : list C) :
  is_tensor t ds xs →
  (ds = [] ∨ ∃ (k : nat) d d0, ds !! 0%nat = Some d0 ∧ ds !! k = Some d
                               ∧ d ≠ d0) →
  IdentityTensor t = Abort ∧ TensorTrace t = Abort.
Proof.
  intros Ht [->|(k & d & d0 & H0 & Hk & Hne)].
  - unfold IdentityTensor, TensorTrace.
    rewrite (it_ndim _ _ _ Ht). simpl. done.
  - assert (Hnil : ds ≠ []) by (by intros ->).
    pose proof (it_ndim _ _ _ Ht) as Hnd.
    pose proof (it_dim _ _ _ Ht Hnil) as Hdim.
    pose proof (lookup_lt_Some _ _ _ Hk) as Hkl.
    assert (Hk0 : (1 ≤ k)%nat).
    { destruct k; [|lia]. rewrite H0 in Hk. by injection Hk as ->. }
    assert (Hloop :
      for_range 1 (ndim t)
        (fun i '(stride, dp) =>
           d ← rdp (dim t) i;
           assert (bool_decide (d = d0));;
           let dp := wrap (dp * d0) in
           Ok (wrap (stride + dp), dp))
        (1, 1) = Abort).
    { apply (for_range_abort (fun _ _ => True) 1 (ndim t) (Z.of_nat k));
        [lia|done| |].
      - intros i [st dp] Hi _.
        destruct (lookup_lt_is_Some_2 ds (Z.to_nat i)) as [di Hdi]; [lia|].
        rewrite Hdim. unfold rdp. simpl deref. simpl mbind.
        rewrite (rd_Some _ _ di) by (lia || done). simpl mbind.
        unfold assert. case_bool_decide; simpl; eauto.
      - intros [st dp] _.
        rewrite Hdim. unfold rdp. simpl deref. simpl mbind.
        rewrite (rd_Some _ _ d) by (lia || by rewrite Nat2Z.id).
        simpl mbind. by rewrite bool_decide_eq_false_2. }
    assert (Hd0 : rdp (dim t) 0 = Ok d0).
    { rewrite Hdim. unfold rdp. simpl deref. simpl mbind.
      by apply rd_Some. }
    unfold IdentityTensor, TensorTrace.
    rewrite assert_true by lia. simpl mbind.
    rewrite Hd0. simpl mbind. cbv zeta in Hloop.
    rewrite Hloop. done.
Qed.

(** *** MultiplyTensor: arguments that do not conform *)

(** X16: MultiplyTensor aborts when fewer than one axis is to be contracted,
    when more axes are to be contracted than one of the tensors has, and when
    a trailing extent of S differs from the leading extent of T it is paired
    with. *)
Theorem MultiplyTensor_rejects (s t : tensor_t) (sds tds : list Z)
    (sxs txs : list C) (m : Z) :
  is_tensor s sds sxs → is_tensor t tds txs →
  (m < 1 ∨ Z.of_nat (length sds) < m ∨ Z.of_nat (length tds) < m
   ∨ ∃ i : nat, Z.of_nat i < m
                ∧ sds !! (length sds - Z.to_nat m + i)%nat ≠ tds !! i) →
  MultiplyTensor s t m = Abort.
Proof.
  intros Hs Ht Hbad. unfold MultiplyTensor.
  pose proof (it_ndim _ _ _ Hs) as Hns. pose proof (it_ndim _ _ _ Ht) as Hnt.
  destruct (decide (m < 1)) as [Hm|Hm].
  { by rewrite (bool_decide_eq_false_2 (1 ≤ m)) by lia. }
  rewrite (assert_true (1 ≤ m)) by lia. simpl mbind.
  destruct (decide (m ≤ ndim s ∧ m ≤ ndim t)) as [Hle|Hgt].
  2:{ by rewrite (bool_decide_eq_false_2 (m ≤ ndim s ∧ m ≤ ndim t)). }
  rewrite (assert_true (m ≤ ndim s ∧ m ≤ ndim t)) by done. simpl mbind.
  destruct Hbad as [?|[?|[?|(i & Hi & Hne)]]]; try lia.
  assert (Hds : dim s = Live sds).
  { apply (it_dim _ _ _ Hs). intros ->. simpl in *. lia. }
  assert (Hdt : dim t = Live tds).
  { apply (it_dim _ _ _ Ht). intros ->. simpl in *. lia. }
  rewrite Hds, Hdt.
  assert (Hrd : ∀ j, 0 ≤ j < m →
            ∃ a b, sds !! (length sds - Z.to_nat m + Z.to_nat j)%nat = Some a
                   ∧ tds !! Z.to_nat j = Some b
                   ∧ rdp (Live sds) (ndim s - m + j) = Ok a
                   ∧ rdp (Live tds) j = Ok b).
  { intros j Hj.
    destruct (lookup_lt_is_Some_2 sds
                (length sds - Z.to_nat m + Z.to_nat j)) as [a Ha]; [lia|].
    destruct (lookup_lt_is_Some_2 tds (Z.to_nat j)) as [b Hb]; [lia|].
    exists a, b. split; [done|]. split; [done|].
    unfold rdp. simpl deref. simpl mbind.
    split; apply rd_Some; try lia; [|done].
    by replace (Z.to_nat (ndim s - m + j))
      with (length sds - Z.to_nat m + Z.to_nat j)%nat by lia. }
  rewrite (for_range_abort (fun _ _ => True) 0 m (Z.of_nat i)); [done|lia|done| |].
  - intros j [] Hj _.
    destruct (Hrd j ltac:(lia)) as (a & b & _ & _ & -> & ->). simpl mbind.
    unfold assert. case_bool_decide; eauto.
  - intros [] _.
    destruct (Hrd (Z.of_nat i) ltac:(lia)) as (a & b & Ha & Hb & -> & ->).
    simpl mbind. rewrite Nat2Z.id in Ha, Hb.
    rewrite bool_decide_eq_false_2; [done|]. intros ->.
    by rewrite Ha, Hb in Hne.
Qed.

(** *** TransposeTensor: permutations *)

(** X17: TransposeTensor aborts when an entry of [perm] is not the number of
    an axis. *)
Theorem TransposeTensor_bad_perm (perm : list Z) (t : tensor_t)
    (ds : list Z) (xs : list C) (k : nat) (p : Z) :
  is_tensor t ds xs → (k < length ds)%nat →
  perm !! k = Some p → ¬ (0 ≤ p < ndim t) →
  TransposeTensor perm t = Abort.
Proof.
  intros Ht Hk Hp Hbad. unfold TransposeTensor.
  pose proof (it_ndim _ _ _ Ht) as Hn.
  assert (Hdim : dim t = Live ds).
  { apply (it_dim _ _ _ Ht). intros ->. simpl in *. lia. }
  rewrite (for_range_abort
             (fun _ rdim => Z.of_nat (length rdim) = ndim t)
             0 (ndim t) (Z.of_nat k)); [done|lia| | |].
  - unfold algn_malloc. rewrite length_replicate. lia.
  - intros i rdim Hi Hl.
    destruct (lookup_lt_is_Some_2 perm (Z.to_nat i)) as [q Hq].
    { apply lookup_lt_Some in Hp. lia. }
    rewrite (rd_Some _ _ q) by (lia || done). simpl mbind.
    unfold assert. case_bool_decide as Hr; [|by left]. right.
    simpl mbind.
    destruct (lookup_lt_is_Some_2 ds (Z.to_nat i)) as [d Hd]; [lia|].
    rewrite Hdim. unfold rdp. simpl deref. simpl mbind.
    rewrite (rd_Some _ _ d) by (lia || done). simpl mbind.
    rewrite wr_Some by lia. eexists. split; [done|].
    by rewrite length_insert.
  - intros rdim _.
    rewrite (rd_Some _ _ p) by (lia || by rewrite Nat2Z.id). simpl mbind.
    by rewrite bool_decide_eq_false_2.
Qed.

Lemma permuted_preimage (n : Z) (perm x : list Z) :
  is_perm n perm → Z.of_nat (length x) = n → ∃ i, permuted perm i x.
Proof.
  intros Hp Hx.
  exists ((fun p => default 0 (x !! Z.to_nat p)) <$> perm).
  split.
  - rewrite length_fmap. destruct Hp as (Hl & _). lia.
  - intros k p Hk. rewrite list_lookup_fmap, Hk. simpl.
    pose proof (is_perm_range _ _ _ _ Hp Hk).
    destruct (lookup_lt_is_Some_2 x (Z.to_nat p)) as [v Hv]; [lia|].
    by rewrite Hv.
Qed.

Lemma permuted_valid_back (n : Z) (perm ds rds i x : list Z) :
  is_perm n perm → Z.of_nat (length ds) = n →
  permuted perm ds rds → permuted perm i x → valid_index rds x →
  valid_index ds i.
Proof.
  intros Hp Hn [Hl1 H1] [Hl2 H2] Hv.
  pose proof (valid_index_length _ _ Hv) as Hlx.
  apply Forall2_same_length_lookup. split; [lia|].
  intros k d v Hd Hi.
  destruct Hp as (Hlen & Hp').
  destruct (lookup_lt_is_Some_2 perm k) as [p Hpk].
  { apply lookup_lt_Some in Hd. lia. }
  specialize (H1 _ _ Hpk). specialize (H2 _ _ Hpk).
  rewrite Hd in H1. rewrite Hi in H2.
  eapply valid_index_lookup; eauto.
Qed.

Lemma entries_ext (ds : list Z) (xs ys : list C) :
  Forall (fun d => 0 < d) ds →
  Z.of_nat (length xs) = prodZ ds → Z.of_nat (length ys) = prodZ ds →
  (∀ i, valid_index ds i → entry xs ds i = entry ys ds i) → xs = ys.
Proof.
  intros Hpos Hx Hy Hent. apply list_eq. intros o.
  destruct (decide (Z.of_nat o < prodZ ds)) as [Ho|Ho].
  - pose proof (Hent _ (index_of_valid ds (Z.of_nat o) Hpos)) as H.
    unfold entry in H. rewrite offset_index_of in H by (done || lia).
    by rewrite Nat2Z.id in H.
  - rewrite !lookup_ge_None_2 by lia. done.
Qed.

Lemma is_perm_id (n : Z) : 0 ≤ n → is_perm n (seqZ 0 n).
Proof.
  intros Hn. split; [rewrite length_seqZ; lia|]. split.
  - apply NoDup_seqZ.
  - apply Forall_forall. intros p Hp. apply elem_of_seqZ in Hp. lia.
Qed.

Lemma permuted_id {A} (n : Z) (i : list A) : permuted (seqZ 0 n) i i.
Proof.
  split; [done|]. intros k p Hk.
  apply lookup_seqZ in Hk as [-> _]. by rewrite Z.add_0_l, Nat2Z.id.
Qed.

(** X18: TransposeTensor with the identity permutation returns a tensor equal
    to its argument, for rank at least 1. *)
Theorem TransposeTensor_identity (t : tensor_t) (ds : list Z) (xs : list C) :
  is_tensor t ds xs → 1 ≤ ndim t →
  TransposeTensor (seqZ 0 (ndim t)) t = Ok t.
Proof.
  intros Ht Hrank.
  assert (Hne : ds ≠ []).
  { intros ->. pose proof (it_ndim _ _ _ Ht). simpl in *. lia. }
  pose proof (it_ndim _ _ _ Ht) as Hn.
  pose proof (is_perm_id (ndim t) ltac:(lia)) as Hperm.
  destruct (TransposeTensor_ok _ t ds xs Ht Hne Hperm)
    as (rds & rxs & Hrun & Hrds & Hr & Hent).
  rewrite Hrun. f_equal.
  assert (rds = ds) as ->.
  { apply (permuted_inj_r (ndim t) (seqZ 0 (ndim t)) ds);
      [done|lia|done|apply permuted_id]. }
  assert (rxs = xs) as ->.
  { apply (entries_ext ds); [apply Ht|apply Hr|apply Ht|].
    intros i Hi. apply Hent; [done|apply permuted_id]. }
  symmetry. rewrite Hn. by apply is_tensor_eta.
Qed.

Lemma is_perm_compose (n : Z) (q p : list Z) :
  is_perm n p → is_perm n q → is_perm n (compose_perm q p).
Proof.
  intros Hp Hq. unfold compose_perm.
  assert (Hlk : ∀ (k : nat) c,
            ((fun pk => default 0 (q !! Z.to_nat pk)) <$> p) !! k = Some c →
            ∃ pk, p !! k = Some pk ∧ q !! Z.to_nat pk = Some c).
  { intros k c Hk. rewrite list_lookup_fmap in Hk.
    destruct (p !! k) as [pk|] eqn:Hpk; [|done]. simpl in Hk.
    pose proof (is_perm_range _ _ _ _ Hp Hpk).
    destruct (lookup_lt_is_Some_2 q (Z.to_nat pk)) as [qk Hqk].
    { destruct Hq as (Hl & _). lia. }
    rewrite Hqk in Hk. simpl in Hk. injection Hk as <-. eauto. }
  split; [|split].
  - rewrite length_fmap. apply Hp.
  - apply NoDup_alt. intros k k' c Hk Hk'.
    destruct (Hlk _ _ Hk) as (pk & Hpk & Hqk).
    destruct (Hlk _ _ Hk') as (pk' & Hpk' & Hqk').
    pose proof (is_perm_range _ _ _ _ Hp Hpk).
    pose proof (is_perm_range _ _ _ _ Hp Hpk').
    assert (Z.to_nat pk = Z.to_nat pk')
      by exact (is_perm_inj n q _ _ c Hq Hqk Hqk').
    assert (pk = pk') by lia. subst pk'.
    exact (is_perm_inj n p _ _ pk Hp Hpk Hpk').
  - apply Forall_lookup_2. intros k c Hk.
    destruct (Hlk _ _ Hk) as (pk & Hpk & Hqk).
    eapply is_perm_range; eauto.
Qed.

Lemma permuted_compose {A} (n : Z) (q p : list Z) (i x y : list A) :
  is_perm n p → is_perm n q →
  permuted p i x → permuted q x y → permuted (compose_perm q p) i y.
Proof.
  intros Hp Hq [Hl1 H1] [Hl2 H2]. split; [lia|].
  intros k c Hk. unfold compose_perm in Hk.
  rewrite list_lookup_fmap in Hk.
  destruct (p !! k) as [pk|] eqn:Hpk; [|done]. simpl in Hk.
  pose proof (is_perm_range _ _ _ _ Hp Hpk).
  destruct (lookup_lt_is_Some_2 q (Z.to_nat pk)) as [qk Hqk].
  { destruct Hq as (Hl & _). lia. }
  rewrite Hqk in Hk. simpl in Hk. injection Hk as <-.
  rewrite (H2 _ _ Hqk). by apply H1.
Qed.

(** X19: Two TransposeTensor calls in a row are one: transposing by [p] and
    then by [q] gives the tensor that transposing by the composed permutation
    [k -> q[p[k]]] gives, for rank at least 1. *)
Theorem TransposeTensor_compose (p q : list Z) (t : tensor_t) (ds : list Z)
    (xs : list C) :
  is_tensor t ds xs → 1 ≤ ndim t →
  is_perm (ndim t) p → is_perm (ndim t) q →
  ∃ r r',
    TransposeTensor p t = Ok r
    ∧ TransposeTensor q r = Ok r'
    ∧ TransposeTensor (compose_perm q p) t = Ok r'.
Proof.
  intros Ht Hrank Hp Hq.
  assert (Hne : ds ≠ []).
  { intros ->. pose proof (it_ndim _ _ _ Ht). simpl in *. lia. }
  pose proof (it_ndim _ _ _ Ht) as Hn.
  destruct (TransposeTensor_ok p t ds xs Ht Hne Hp)
    as (rds & rxs & Hrun & Hrds & Hr & Hent).
  assert (Hrl : length rds = length ds) by apply Hrds.
  assert (Hrne : rds ≠ []).
  { destruct rds, ds; simpl in *; done. }
  destruct (TransposeTensor_ok q _ rds rxs Hr Hrne Hq)
    as (yds & yxs & Hrun' & Hyds & Hr' & Hent').
  pose proof (is_perm_compose _ _ _ Hp Hq) as Hc.
  destruct (TransposeTensor_ok _ t ds xs Ht Hne Hc)
    as (cds & cxs & Hrunc & Hcds & Hrc & Hentc).
  eexists _, _. split; [exact Hrun|]. split; [exact Hrun'|].
  rewrite Hrunc. cbn [ndim].
  assert (cds = yds) as ->.
  { apply (permuted_inj_r (ndim t) (compose_perm q p) ds); [done|lia|done|].
    by apply (permuted_compose (ndim t) q p ds rds yds). }
  assert (Hyl : length yds = length rds) by apply Hyds.
  enough (cxs = yxs) as -> by done.
  apply (entries_ext yds); [apply Hr'|apply Hrc|apply Hr'|].
  intros y Hy.
  pose proof (valid_index_length _ _ Hy) as Hly.
  destruct (permuted_preimage (ndim t) (compose_perm q p) y Hc ltac:(lia))
    as [i Hi].
  assert (Hvi : valid_index ds i)
    by (eapply (permuted_valid_back (ndim t)); eauto; lia).
  pose proof (valid_index_length _ _ Hvi) as Hli.
  destruct (permuted_exists (ndim t) p i Hp ltac:(lia)) as [x Hx].
  assert (Hvx : valid_index rds x)
    by (eapply (permuted_valid (ndim t) p ds); eauto; lia).
  pose proof (valid_index_length _ _ Hvx) as Hlx.
  destruct (permuted_exists (ndim t) q x Hq ltac:(lia)) as [y' Hy'].
  assert (y' = y) as ->.
  { apply (permuted_inj_r (ndim t) (compose_perm q p) i); [done|lia| |done].
    by apply (permuted_compose (ndim t) q p i x y'). }
  rewrite (Hentc i y Hvi Hi), (Hent' x y Hvx Hy'). symmetry. by apply Hent.
Qed.

(** *** ConjugateTensor *)

Section ConjugateProps.

Context (cconj : C → C).

Lemma ConjugateTensor_ok (t : tensor_t) (ds : list Z) (xs : list C) :
  is_tensor t ds xs →
  ConjugateTensor cconj t
  = Ok {| ndim := ndim t; dim := dim t; data := Live (cconj <$> xs) |}.
Proof.
  intros Ht. unfold ConjugateTensor.
  rewrite (NumTensorElements_ok _ _ _ Ht). simpl mbind.
  pose proof (it_len _ _ _ Ht) as Hlen.
  destruct (for_range_inv
    (fun i p => p = Live ((cconj <$> take (Z.to_nat i) xs)
                          ++ drop (Z.to_nat i) xs))
    0 (prodZ ds)
    (fun i p =>
       a ← deref p; x ← rd a i; a ← wr a i (cconj x); Ok (Live a))
    (data t)) as (p & -> & ->).
  - pose proof (prodZ_pos _ (it_pos _ _ _ Ht)). lia.
  - by rewrite (it_data _ _ _ Ht).
  - intros i p Hi ->. simpl mbind.
    destruct (lookup_lt_is_Some_2 xs (Z.to_nat i)) as [x Hx]; [lia|].
    assert (Hli : length (cconj <$> take (Z.to_nat i) xs) = Z.to_nat i)
      by (rewrite length_fmap, length_take; lia).
    rewrite (rd_Some _ _ x); [|lia|].
    2:{ rewrite lookup_app_r by lia. rewrite Hli, lookup_drop.
        by replace (Z.to_nat i + (Z.to_nat i - Z.to_nat i))%nat
          with (Z.to_nat i) by lia. }
    simpl mbind.
    rewrite wr_Some
      by (rewrite length_app, Hli, length_drop; lia).
    simpl mbind. eexists. split; [done|]. f_equal.
    replace (Z.to_nat (i + 1)) with (S (Z.to_nat i)) by lia.
    rewrite (take_S_r _ _ _ Hx), fmap_app. simpl.
    rewrite <- app_assoc. simpl.
    replace (Z.to_nat i) with (length (cconj <$> take (Z.to_nat i) xs) + 0)%nat
      at 1 by lia.
    rewrite insert_app_r.
    rewrite (drop_S _ _ _ Hx). done.
  - simpl mbind. rewrite take_ge, drop_ge by lia. by rewrite app_nil_r.
Qed.

(** X5: ConjugateTensor replaces every entry by its conjugate and keeps the
    shape; when conj is an involution, conjugating twice gives the tensor
    back. *)
Theorem ConjugateTensor_correct (t : tensor_t) (ds : list Z) (xs : list C) :
  is_tensor t ds xs →
  ∃ t' xs',
    ConjugateTensor cconj t = Ok t'
    ∧ is_tensor t' ds xs'
    ∧ dim t' = dim t
    ∧ (∀ i, valid_index ds i →
            entry xs' ds i = Some (cconj (tensor_at xs ds i)))
    ∧ ((∀ x, cconj (cconj x) = x) → ConjugateTensor cconj t' = Ok t).
Proof.
  intros Ht. rewrite (ConjugateTensor_ok t ds xs Ht).
  assert (Ht' : is_tensor {| ndim := ndim t; dim := dim t;
                             data := Live (cconj <$> xs) |} ds (cconj <$> xs)).
  { destruct Ht as [H1 H2 H3 H4 H5 H6 H7].
    constructor; try done. by rewrite length_fmap. }
  eexists _, (cconj <$> xs). split; [done|]. split; [done|]. split; [done|].
  split.
  - intros i Hi. unfold entry, tensor_at. rewrite list_lookup_fmap.
    destruct (entry_is_Some _ _ _ _ Ht Hi) as [x Hx].
    unfold entry in Hx. by rewrite Hx.
  - intros Hinv. rewrite (ConjugateTensor_ok _ ds _ Ht'). cbn [ndim dim].
    rewrite <- list_fmap_compose.
    rewrite (list_fmap_ext (cconj ∘ cconj) id xs) by (intros; simpl; auto).
    rewrite list_fmap_id. destruct t as [n d a].
    pose proof (it_data _ _ _ Ht) as Hd. simpl in *. by subst.
Qed.

(** X6: ConjugateTransposeTensor returns the transposed tensor with every
    entry conjugated: R[x] = conj(T[i]) where x[perm[k]] = i[k], for rank at
    least 1. Conjugating first and transposing then gives the same tensor. *)
Theorem ConjugateTransposeTensor_correct (perm : list Z) (t : tensor_t)
    (ds : list Z) (xs : list C) :
  is_tensor t ds xs → 1 ≤ ndim t → is_perm (ndim t) perm →
  ∃ r rds rxs,
    ConjugateTransposeTensor cconj perm t = Ok r
    ∧ is_tensor r rds rxs
    ∧ permuted perm ds rds
    ∧ (∀ i x, valid_index ds i → permuted perm i x →
              entry rxs rds x = Some (cconj (tensor_at xs ds i)))
    ∧ (t' ← ConjugateTensor cconj t; TransposeTensor perm t') = Ok r.
Proof.
  intros Ht Hrank Hperm.
  assert (Hne : ds ≠ []).
  { intros ->. pose proof (it_ndim _ _ _ Ht). simpl in *. lia. }
  pose proof (it_ndim _ _ _ Ht) as Hn.
  destruct (TransposeTensor_ok perm t ds xs Ht Hne Hperm)
    as (rds & rxs & Hrun & Hrds & Hr & Hent).
  unfold ConjugateTransposeTensor. rewrite Hrun. simpl mbind.
  rewrite (ConjugateTensor_ok _ rds rxs Hr). cbn [ndim dim].
  assert (Hr' : is_tensor {| ndim := ndim t; dim := Live rds;
                             data := Live (cconj <$> rxs) |}
                  rds (cconj <$> rxs)).
  { destruct Hr as [H1 H2 H3 H4 H5 H6 H7].
    constructor; try done. by rewrite length_fmap. }
  assert (Hent' : ∀ i x, valid_index ds i → permuted perm i x →
            entry (cconj <$> rxs) rds x = Some (cconj (tensor_at xs ds i))).
  { intros i x Hi Hx. unfold entry, tensor_at. rewrite list_lookup_fmap.
    pose proof (Hent i x Hi Hx) as He. unfold entry in He. rewrite He.
    destruct (entry_is_Some _ _ _ _ Ht Hi) as [v Hv].
    unfold entry in Hv. by rewrite Hv. }
  eexists _, rds, (cconj <$> rxs).
  split; [done|]. split; [done|]. split; [done|]. split; [done|].
  rewrite (ConjugateTensor_ok t ds xs Ht). simpl mbind.
  assert (Ht' : is_tensor {| ndim := ndim t; dim := dim t;
                             data := Live (cconj <$> xs) |} ds (cconj <$> xs)).
  { destruct Ht as [H1 H2 H3 H4 H5 H6 H7].
    constructor; try done. by rewrite length_fmap. }
  destruct (TransposeTensor_ok perm _ ds _ Ht' Hne Hperm)
    as (rds2 & rxs2 & Hrun2 & Hrds2 & Hr2 & Hent2).
  rewrite Hrun2. cbn [ndim].
  assert (rds2 = rds) as ->.
  { apply (permuted_inj_r (ndim t) perm ds); [done|lia|done|done]. }
  enough (rxs2 = cconj <$> rxs) as -> by done.
  apply (entries_ext rds); [apply Hr|apply Hr2|apply Hr'|].
  intros x Hx.
  pose proof (valid_index_length _ _ Hx) as Hlx.
  assert (Hrl : length rds = length ds) by apply Hrds.
  destruct (permuted_preimage (ndim t) perm x Hperm ltac:(lia)) as [i Hi].
  assert (Hvi : valid_index ds i)
    by (eapply (permuted_valid_back (ndim t)); eauto; lia).
  rewrite (Hent2 i x Hvi Hi), (Hent' i x Hvi Hi).
  unfold entry, tensor_at. rewrite list_lookup_fmap.
  destruct (entry_is_Some _ _ _ _ Ht Hvi) as [v Hv].
  unfold entry in Hv. by rewrite Hv.
Qed.

End ConjugateProps.

(** *** SubTensor *)

Lemma sub_index_lookup (idx : list (list Z)) (j : list Z) (k : nat)
    (row : list Z) (jk : Z) :
  idx !! k = Some row → j !! k = Some jk →
  sub_index idx j !! k = Some (default 0 (row !! Z.to_nat jk)).
Proof.
  intros H1 H2. unfold sub_index. rewrite lookup_zip_with, H1. simpl.
  by rewrite H2.
Qed.

Lemma length_sub_index (idx : list (list Z)) (j : list Z) :
  length idx = length j → length (sub_index idx j) = length j.
Proof. intros H. unfold sub_index. rewrite length_zip_with. lia. Qed.

Lemma selects_tail (row0 : list Z) (rows : list (list Z)) (d0 : Z)
    (tl : list Z) (sd0 : Z) (stl : list Z) :
  selects (row0 :: rows) (d0 :: tl) (sd0 :: stl) → selects rows tl stl.
Proof.
  intros (H1 & H2 & H3). split; [simpl in *; lia|].
  split; [simpl in *; lia|].
  intros k row d sd Hr Hd Hs. by apply (H3 (S k)).
Qed.

Lemma sub_index_valid (idx : list (list Z)) (ds sds j : list Z) :
  selects idx ds sds → valid_index sds j →
  valid_index ds (sub_index idx j).
Proof.
  intros (H1 & H2 & H3) Hv.
  pose proof (valid_index_length _ _ Hv) as Hl.
  apply Forall2_same_length_lookup.
  split; [rewrite length_sub_index; lia|].
  intros k d v Hd Hk.
  pose proof (lookup_lt_Some _ _ _ Hd) as Hkl.
  destruct (lookup_lt_is_Some_2 idx k) as [row Hrow]; [lia|].
  destruct (lookup_lt_is_Some_2 sds k) as [sd Hsd]; [lia|].
  destruct (lookup_lt_is_Some_2 j k) as [jk Hjk]; [lia|].
  rewrite (sub_index_lookup _ _ _ _ _ Hrow Hjk) in Hk. injection Hk as <-.
  pose proof (valid_index_lookup _ _ _ _ _ Hv Hsd Hjk) as Hb.
  destruct (H3 _ _ _ _ Hrow Hd Hsd) as [Hlen Hrng].
  destruct (lookup_lt_is_Some_2 row (Z.to_nat jk)) as [v Hv']; [lia|].
  rewrite Hv'. simpl. apply (Hrng (Z.to_nat jk) v); [lia|done].
Qed.

Section Sub.

Variables (t s : tensor_t) (d0 : Z) (tl : list Z) (sd0 : Z) (stl : list Z).
Variables (xs : list C) (row0 : list Z) (rows : list (list Z)).
Hypothesis Ht : is_tensor t (d0 :: tl) xs.
Hypothesis Hsel : selects (row0 :: rows) (d0 :: tl) (sd0 :: stl).
Hypothesis Hspos : Forall (fun d => 0 < d) (sd0 :: stl).
Hypothesis Hssz : prodZ (sd0 :: stl) < 2 ^ SIZE_WIDTH.
Hypothesis Hsn : ndim s = ndim t.
Hypothesis Hsd : dim s = Live (sd0 :: stl).

Local Lemma sb_len : Z.of_nat (S (length tl)) = ndim t.
Proof. symmetry. apply Ht. Qed.

Local Lemma sb_lens : length stl = length tl ∧ length rows = length tl.
Proof. destruct Hsel as (H1 & H2 & _). simpl in *. lia. Qed.

Local Lemma sb_sd0 : 0 < sd0.
Proof. by inversion Hspos. Qed.

Local Lemma sb_stl : Forall (fun d => 0 < d) stl.
Proof. by inversion Hspos. Qed.

Local Lemma sb_stl_small : Forall (fun d => d < 2 ^ SIZE_WIDTH) stl.
Proof.
  apply Forall_lookup_2. intros i d Hd.
  pose proof (prodZ_lookup_le _ _ _ sb_stl Hd).
  pose proof Hssz as Hs. rewrite prodZ_cons in Hs.
  pose proof sb_sd0. nia.
Qed.

Local Lemma sb_row0 (j : Z) :
  0 ≤ j < sd0 → ∃ v, row0 !! Z.to_nat j = Some v ∧ 0 ≤ v < d0.
Proof.
  intros Hj. destruct Hsel as (_ & _ & H3).
  destruct (H3 0%nat row0 d0 sd0 eq_refl eq_refl eq_refl) as [Hlen Hrng].
  destruct (lookup_lt_is_Some_2 row0 (Z.to_nat j)) as [v Hv]; [lia|].
  exists v. split; [done|]. apply (Hrng (Z.to_nat j)); [lia|done].
Qed.

Local Lemma sb_rows (k : nat) (row : list Z) (jk sd : Z) :
  rows !! k = Some row → stl !! k = Some sd → 0 ≤ jk < sd →
  ∃ v, row !! Z.to_nat jk = Some v.
Proof.
  intros Hrow Hsdk Hj. destruct Hsel as (_ & _ & H3).
  destruct (lookup_lt_is_Some_2 tl k) as [d Hd].
  { apply lookup_lt_Some in Hrow. pose proof sb_lens. lia. }
  destruct (H3 (S k) row d sd Hrow Hd Hsdk) as [Hlen _].
  apply lookup_lt_is_Some_2. lia.
Qed.

(** the loops that compute the index in T from the index in S, on the axes
    after the first *)
Lemma sub_map_loop (js : list Z) (body : Z → list Z → result (list Z))
    (acc0 : list Z) :
  valid_index stl js →
  Z.of_nat (length acc0) = ndim t → acc0 !! 0%nat = Some 0 →
  (∀ (k : nat) row jk v acc,
      rows !! k = Some row → js !! k = Some jk →
      row !! Z.to_nat jk = Some v → Z.of_nat (length acc) = ndim t →
      body (Z.of_nat (S k)) acc = Ok (<[S k := v]> acc)) →
  for_range 1 (ndim t) body acc0 = Ok (0 :: sub_index rows js).
Proof.
  intros Hjs Hl0 Hh0 Hbody.
  pose proof sb_len as Hlen. pose proof sb_lens as [Hls Hlr].
  pose proof (valid_index_length _ _ Hjs) as Hlj.
  destruct (write_loop (length acc0) (fun i => i)
              (fun i => default 0 (sub_index rows js !! (Z.to_nat i - 1)%nat))
              1 (ndim t) body acc0)
    as (acc & -> & Hl & Hw & Hu); [lia|done|intros; lia|intros; lia| |].
  - intros i acc Hi Hacc.
    destruct (lookup_lt_is_Some_2 rows (Z.to_nat i - 1)) as [row Hrow];
      [lia|].
    destruct (lookup_lt_is_Some_2 js (Z.to_nat i - 1)) as [jk Hjk]; [lia|].
    destruct (lookup_lt_is_Some_2 stl (Z.to_nat i - 1)) as [sd Hsdk]; [lia|].
    pose proof (valid_index_lookup _ _ _ _ _ Hjs Hsdk Hjk) as Hb.
    destruct (sb_rows _ _ _ _ Hrow Hsdk Hb) as [v Hv].
    rewrite (sub_index_lookup _ _ _ _ _ Hrow Hjk), Hv. simpl.
    replace i with (Z.of_nat (S (Z.to_nat i - 1))) at 1 by lia.
    rewrite (Hbody _ _ _ _ _ Hrow Hjk Hv) by lia.
    do 2 f_equal. lia.
  - f_equal. apply list_eq. intros [|k].
    + simpl. rewrite (Hu 0%nat); [done|]. intros i Hi. lia.
    + simpl. destruct (decide (k < length js)%nat) as [Hk|Hk].
      * pose proof (Hw (Z.of_nat (S k)) ltac:(lia)) as H.
        rewrite Nat2Z.id in H. rewrite H.
        replace (S k - 1)%nat with k by lia.
        destruct (lookup_lt_is_Some_2 (sub_index rows js) k) as [v Hv];
          [rewrite length_sub_index; lia|].
        by rewrite Hv.
      * rewrite !lookup_ge_None_2; [done| |lia].
        rewrite length_sub_index; lia.
Qed.

(** the copy loop along the first axis *)
Lemma sub_copy_loop_ok (k ot : Z) (js : list Z) (sdata : list C) :
  valid_index stl js → offset stl js = k →
  ot = offset (d0 :: tl) (0 :: sub_index rows js) →
  sub_copied (row0 :: rows) (d0 :: tl) (sd0 :: stl) xs (k * sd0) sdata →
  ∃ sdata',
    for_range 0 sd0
      (fun j sdata =>
         k0 ← rd2 (row0 :: rows) 0 j;
         x ← rdp (data t) (wrap (ot + k0));
         wr sdata (wrap (k * sd0 + j)) x)
      sdata = Ok sdata'
    ∧ sub_copied (row0 :: rows) (d0 :: tl) (sd0 :: stl) xs (k * sd0 + sd0)
        sdata'.
Proof.
  intros Hjs Hk Hot Hcp.
  pose proof sb_sd0 as Hsd0.
  pose proof (offset_bound _ _ Hjs) as Hkb. rewrite Hk in Hkb.
  pose proof Hssz as Hsmall. rewrite prodZ_cons in Hsmall.
  apply (for_range_inv
           (fun j sdata =>
              sub_copied (row0 :: rows) (d0 :: tl) (sd0 :: stl) xs
                (k * sd0 + j) sdata));
    [lia|by rewrite Z.add_0_r|].
  intros j sd Hj [Hsl Hcpj].
  destruct (sb_row0 j Hj) as (v & Hv & Hvb).
  assert (Hvj : valid_index (sd0 :: stl) (j :: js)) by (by constructor).
  assert (Hsub : sub_index (row0 :: rows) (j :: js)
                 = v :: sub_index rows js).
  { unfold sub_index. simpl. by rewrite Hv. }
  pose proof (sub_index_valid _ _ _ _ Hsel Hvj) as Hvt.
  rewrite Hsub in Hvt.
  pose proof (offset_bound _ _ Hvt) as Htb.
  pose proof (it_size _ _ _ Ht) as Htsz.
  unfold rd2. simpl rd at 1. simpl mbind.
  rewrite (rd_Some _ _ v) by (lia || done). simpl mbind.
  replace (ot + v) with (offset (d0 :: tl) (v :: sub_index rows js))
    by (rewrite Hot; simpl; lia).
  rewrite (wrap_small (offset _ _)) by lia.
  destruct (lookup_lt_is_Some_2 xs
              (Z.to_nat (offset (d0 :: tl) (v :: sub_index rows js))))
    as [c Hc].
  { pose proof (it_len _ _ _ Ht). lia. }
  unfold rdp. rewrite (it_data _ _ _ Ht). simpl mbind.
  rewrite (rd_Some _ _ c); [|simpl in Htb; lia|exact Hc]. simpl mbind.
  assert (Hoj : offset (sd0 :: stl) (j :: js) = k * sd0 + j)
    by (simpl; lia).
  pose proof (offset_bound _ _ Hvj) as Hob. rewrite Hoj in Hob.
  rewrite wrap_small by lia.
  rewrite wr_Some by lia.
  eexists; split; [done|].
  split; [by rewrite length_insert|].
  intros i Hvi Hlt. unfold entry.
  destruct (decide (offset (sd0 :: stl) i = k * sd0 + j)) as [Heq|Hne].
  - assert (i = j :: js)
      by (apply (offset_inj (sd0 :: stl)); [done|done|lia]).
    subst i. rewrite Heq, Hsub, Hc.
    apply list_lookup_insert_eq. lia.
  - rewrite list_lookup_insert_ne.
    + apply Hcpj; [done|lia].
    + pose proof (offset_bound _ _ Hvi). lia.
Qed.

(** the loop over the positions of the remaining axes *)
Lemma subtensor_loop_ok :
  ∀ (rem : nat) (k ot : Z) (fuel : nat) (js : list Z) (sdata : list C),
    0 ≤ k → Z.of_nat rem = prodZ stl - k → (rem ≤ fuel)%nat →
    valid_index stl js → (k < prodZ stl → offset stl js = k) →
    ot = offset (d0 :: tl) (0 :: sub_index rows js) →
    sub_copied (row0 :: rows) (d0 :: tl) (sd0 :: stl) xs (k * sd0) sdata →
    ∃ sdata',
      subtensor_loop fuel t s (row0 :: rows) (prodZ (sd0 :: stl)) (k * sd0)
        ot (0 :: sub_index rows js) (0 :: js) sdata = Ok sdata'
      ∧ sub_copied (row0 :: rows) (d0 :: tl) (sd0 :: stl) xs
          (prodZ (sd0 :: stl)) sdata'.
Proof.
  pose proof sb_len as Hlen. pose proof sb_sd0 as Hsd0.
  pose proof sb_lens as [Hls Hlr].
  pose proof Hssz as Hsmall.
  assert (Hdim : dim t = Live (d0 :: tl)) by (by apply (it_dim _ _ _ Ht)).
  assert (Hd0 : 0 < d0).
  { pose proof (it_pos _ _ _ Ht) as H. by inversion H. }
  induction rem as [|rem IH];
    intros k ot fuel js sdata Hk Hrem Hfuel Hjs Hoff Hot Hcp.
  - assert (Hkd : k * sd0 = prodZ (sd0 :: stl)) by (rewrite prodZ_cons; nia).
    rewrite Hkd in *.
    exists sdata. split; [|done].
    destruct fuel; simpl; by rewrite bool_decide_eq_false_2 by lia.
  - destruct fuel as [|fuel]; [lia|].
    specialize (Hoff ltac:(lia)).
    simpl. rewrite bool_decide_eq_true_2 by (rewrite prodZ_cons; nia).
    assert (Hs0 : rdp (dim s) 0 = Ok sd0) by (by rewrite Hsd).
    rewrite Hs0. simpl mbind.
    destruct (sub_copy_loop_ok k ot js sdata Hjs Hoff Hot Hcp)
      as (sdata' & -> & Hcp').
    simpl mbind.
    (* the next index *)
    unfold NextIndex.
    replace (Z.to_nat (ndim s - 1)) with (length stl) by lia.
    rewrite Hsd.
    pose proof (NextIndex_loop_ok (shift (rdp (Live (sd0 :: stl))) 1) stl 1
                  ltac:(exact (views_shift _ (sd0 :: stl) 1 (views_rdp _)))
                  sb_stl_small stl js [0] 0 eq_refl Hjs eq_refl) as Hnx.
    change (Z.of_nat 0) with 0 in Hnx.
    change ([0] ++ js) with (0 :: js) in Hnx.
    rewrite Hnx. simpl mbind.
    pose proof (next_index_valid _ _ Hjs) as Hjs'.
    pose proof (valid_index_length _ _ Hjs) as Hlj.
    pose proof (valid_index_length _ _ Hjs') as Hlj'.
    (* the index in t *)
    rewrite (sub_map_loop (next_index stl js)); [|done| |done|].
    2:{ simpl. rewrite length_sub_index; lia. }
    2:{ intros i row jk v acc Hrow Hjk Hv Hacc.
        rewrite (rd_Some (0 :: next_index stl js) _ jk);
          [|lia|rewrite Nat2Z.id; exact Hjk]. simpl mbind.
        unfold rd2. rewrite (rd_Some (row0 :: rows) _ row);
          [|lia|rewrite Nat2Z.id; exact Hrow]. simpl mbind.
        assert (0 ≤ jk).
        { destruct (lookup_lt_is_Some_2 stl i) as [sd Hsdi].
          { apply lookup_lt_Some in Hjk. lia. }
          pose proof (valid_index_lookup _ _ _ _ _ Hjs' Hsdi Hjk). lia. }
        rewrite (rd_Some _ _ v) by (lia || done). simpl mbind.
        pose proof (lookup_lt_Some _ _ _ Hrow).
        rewrite wr_Some by lia. by rewrite Nat2Z.id. }
    simpl mbind.
    assert (Hvt : valid_index (d0 :: tl)
                    (0 :: sub_index rows (next_index stl js))).
    { constructor; [lia|].
      apply (sub_index_valid rows tl stl); [|done].
      by eapply selects_tail. }
    rewrite <- Hlen, Hdim.
    rewrite (IndexToOffset_ok _ _ (d0 :: tl)
               (0 :: sub_index rows (next_index stl js)));
      [|apply views_rdp|apply views_rd|done|apply Ht].
    simpl mbind.
    rewrite wrap_small by (rewrite prodZ_cons in Hsmall; nia).
    replace (k * sd0 + sd0) with ((k + 1) * sd0) in * by lia.
    apply (IH (k + 1)); try lia; try done.
    intros Hlt. rewrite next_index_offset by (done || lia). lia.
Qed.

End Sub.

Lemma SubTensor_ok (t : tensor_t) (ds sds : list Z) (idx : list (list Z))
    (xs : list C) :
  is_tensor t ds xs → ds ≠ [] → selects idx ds sds →
  Forall (fun d => 0 < d) sds → prodZ sds < 2 ^ SIZE_WIDTH →
  ∃ sxs,
    SubTensor t sds idx
    = Ok {| ndim := ndim t; dim := Live sds; data := Live sxs |}
    ∧ sub_copied idx ds sds xs (prodZ sds) sxs.
Proof.
  intros Ht Hne Hsel Hspos Hssz.
  destruct ds as [|d0 tl]; [done|].
  destruct Hsel as (Hli & Hls & Hsel0).
  destruct sds as [|sd0 stl]; [done|].
  destruct idx as [|row0 rows]; [done|].
  assert (Hsel : selects (row0 :: rows) (d0 :: tl) (sd0 :: stl)) by done.
  pose proof (it_ndim _ _ _ Ht) as Hn.
  pose proof (it_pos _ _ _ Ht) as Hpos.
  assert (Hdim : dim t = Live (d0 :: tl)) by (by apply (it_dim _ _ _ Ht)).
  assert (Hnl : ndim t = Z.of_nat (length (sd0 :: stl)))
    by (rewrite Hn; simpl in *; lia).
  unfold SubTensor.
  pose proof (AllocateTensor_ok (sd0 :: stl) ltac:(done) Hspos Hssz) as Hal.
  rewrite <- Hnl in Hal at 1. rewrite Hal. clear Hal. simpl mbind.
  rewrite (bool_decide_eq_false_2 (ndim t = 0)) by (rewrite Hn; simpl; lia).
  set (s := {| ndim := Z.of_nat (S (length stl));
               dim := Live (sd0 :: stl);
               data := Live (replicate (Z.to_nat (prodZ (sd0 :: stl))) c0) |}).
  assert (Hs : is_tensor s (sd0 :: stl)
                 (replicate (Z.to_nat (prodZ (sd0 :: stl))) c0)).
  { pose proof (prodZ_pos _ Hspos).
    constructor; simpl; try done.
    - pose proof (it_rank _ _ _ Ht). simpl in *. lia.
    - rewrite length_replicate. lia. }
  rewrite (NumTensorElements_ok _ _ _ Hs). simpl mbind.
  assert (Hz : algn_calloc 0 (ndim t) = 0 :: replicate (length tl) 0).
  { unfold algn_calloc. rewrite Hn, Nat2Z.id. done. }
  assert (Hzs : algn_calloc 0 (Z.of_nat (S (length stl)))
                = 0 :: replicate (length stl) 0).
  { unfold algn_calloc. rewrite Nat2Z.id. done. }
  rewrite Hz, Hzs.
  assert (Hsn : ndim s = ndim t) by (rewrite Hnl; done).
  pose proof (valid_index_zeros stl ltac:(by inversion Hspos)) as Hvz.
  (* the first index in t *)
  rewrite (sub_map_loop t d0 tl sd0 stl xs row0 rows Ht Hsel
             (replicate (length stl) 0)); [|done| |done|].
  2:{ rewrite Hn. simpl. rewrite length_replicate. lia. }
  2:{ intros k row jk v acc Hrow Hjk Hv Hacc.
      apply lookup_replicate in Hjk as [-> Hk].
      destruct (lookup_lt_is_Some_2 tl k) as [d Hd]; [simpl in *; lia|].
      destruct (lookup_lt_is_Some_2 stl k) as [sd Hsdk]; [done|].
      rewrite Hdim. unfold rdp. simpl deref. simpl mbind.
      rewrite (rd_Some (d0 :: tl) _ d); [|lia|rewrite Nat2Z.id; exact Hd].
      simpl mbind.
      assert (0 < d).
      { inversion Hpos as [|? ? _ Htl]; subst.
        exact (Forall_lookup_1 _ _ _ _ Htl Hd). }
      assert (0 < sd).
      { inversion Hspos as [|? ? _ Hstl]; subst.
        exact (Forall_lookup_1 _ _ _ _ Hstl Hsdk). }
      rewrite (bool_decide_eq_true_2 (0 < d)) by done.
      rewrite (rd_Some (sd0 :: stl) _ sd);
        [|lia|rewrite Nat2Z.id; exact Hsdk].
      simpl mbind.
      rewrite (bool_decide_eq_true_2 (0 < sd)) by done. simpl mbind.
      unfold rd2.
      rewrite (rd_Some (row0 :: rows) _ row);
        [|lia|rewrite Nat2Z.id; exact Hrow].
      simpl mbind. rewrite (rd_Some _ _ v) by (lia || done). simpl mbind.
      rewrite wr_Some by (simpl in *; lia). by rewrite Nat2Z.id. }
  simpl mbind.
  assert (Hvt : valid_index (d0 :: tl)
                  (0 :: sub_index rows (replicate (length stl) 0))).
  { constructor; [inversion Hpos; lia|].
    apply (sub_index_valid rows tl stl); [|done].
    by eapply selects_tail. }
  pose proof (IndexToOffset_ok (rdp (Live (d0 :: tl)))
                (rd (0 :: sub_index rows (replicate (length stl) 0)))
                (d0 :: tl) _ (views_rdp _) (views_rd _) Hvt
                (it_size _ _ _ Ht)) as Hio.
  rewrite <- Hn, <- Hdim in Hio. rewrite Hio. clear Hio.
  simpl mbind.
  destruct (subtensor_loop_ok t s d0 tl sd0 stl xs row0 rows Ht Hsel Hspos
              Hssz Hsn eq_refl
              (Z.to_nat (prodZ stl)) 0
              (offset (d0 :: tl)
                 (0 :: sub_index rows (replicate (length stl) 0)))
              (Z.to_nat (prodZ (sd0 :: stl)))
              (replicate (length stl) 0)
              (replicate (Z.to_nat (prodZ (sd0 :: stl))) c0))
    as (sxs & Hloop & Hcp).
  - lia.
  - pose proof (prodZ_pos stl ltac:(by inversion Hspos)). lia.
  - inversion Hspos; subst. pose proof (prodZ_pos stl ltac:(done)).
    rewrite prodZ_cons. nia.
  - done.
  - intros _. apply offset_zeros.
  - done.
  - split.
    + rewrite length_replicate. pose proof (prodZ_pos _ Hspos). lia.
    + intros j Hj Hlt. pose proof (offset_bound _ _ Hj). lia.
  - change (0 * sd0) with 0 in Hloop. cbn [offset] in Hloop.
    rewrite Hloop. simpl mbind.
    exists sxs. split; [|done]. by rewrite Hnl.
Qed.


Lemma selects_full (ds : list Z) : selects (seqZ 0 <$> ds) ds ds.
Proof.
  split; [by rewrite length_fmap|]. split; [done|].
  intros k row d sd Hrow Hd Hsd.
  rewrite list_lookup_fmap, Hd in Hrow. simpl in Hrow.
  injection Hrow as <-. rewrite Hd in Hsd. injection Hsd as <-.
  split; [rewrite length_seqZ; lia|].
  intros j v Hj Hv. apply lookup_seqZ in Hv. lia.
Qed.

Lemma sub_index_full (ds j : list Z) :
  valid_index ds j → sub_index (seqZ 0 <$> ds) j = j.
Proof.
  induction 1 as [|d x ds j Hx Hv IH]; [done|].
  unfold sub_index in *. rewrite fmap_cons. cbn [zip_with].
  rewrite IH. f_equal.
  rewrite lookup_seqZ_lt by lia. simpl. lia.
Qed.

(** X22: SubTensor with the index arrays (0, 1, ..., dim[k]-1) on every axis
    and the shape of T returns what CopyTensor returns: a copy of T. *)
Theorem SubTensor_full_is_copy (t : tensor_t) (ds : list Z) (xs : list C) :
  is_tensor t ds xs →
  prodZ ds * SIZEOF_COMPLEX < 2 ^ SIZE_WIDTH →
  ∃ s,
    SubTensor t ds (seqZ 0 <$> ds) = Ok s
    ∧ CopyTensor t = Ok s
    ∧ is_tensor s ds xs.
Proof.
  intros Ht Hb.
  rewrite (CopyTensor_ok t ds xs Ht Hb).
  pose proof (it_ndim _ _ _ Ht) as Hn.
  assert (Hs : is_tensor {| ndim := Z.of_nat (length ds); dim := dim_ptr ds;
                            data := Live xs |} ds xs)
    by (apply is_tensor_alloc; apply Ht).
  eexists. split; [|split; [reflexivity|exact Hs]].
  destruct (decide (ds = [])) as [->|Hne].
  - pose proof (it_len _ _ _ Ht) as Hlen.
    unfold prodZ in Hlen. simpl in Hlen.
    destruct xs as [|x [|y xs]]; [simpl in Hlen; lia| |simpl in Hlen; lia].
    unfold SubTensor. rewrite Hn. simpl.
    unfold rdp. rewrite (it_data _ _ _ Ht). reflexivity.
  - destruct (SubTensor_ok t ds ds (seqZ 0 <$> ds) xs Ht Hne
                (selects_full ds) (it_pos _ _ _ Ht) (it_size _ _ _ Ht))
      as (sxs & Hrun & Hl & Hcp).
    rewrite Hrun, Hn.
    assert (sxs = xs) as ->.
    { apply (entries_ext ds); [apply Ht|done|apply Ht|].
      intros j Hj. rewrite (Hcp j Hj) by (by apply offset_bound).
      by rewrite sub_index_full. }
    by destruct ds.
Qed.

(** *** The unit of MultiplyTensor *)

Section Unit.

Hypothesis SR : semi_ring_theory c0 c1 cadd cmul eq.

Lemma csum_0 (f : Z → C) : csum 0 f = c0.
Proof. reflexivity. Qed.

Lemma csum_delta (n co : Z) (f g : Z → C) :
  0 ≤ co < n → g co = c1 →
  (∀ b, 0 ≤ b < n → b ≠ co → g b = c0) →
  csum n (fun b => cmul (f b) (g b)) = f co.
Proof.
  intros Hco H1 H0.
  assert (Hm : ∀ m : nat, Z.of_nat m ≤ n →
            csum (Z.of_nat m) (fun b => cmul (f b) (g b))
            = if bool_decide (Z.of_nat m ≤ co) then c0 else f co).
  { induction m as [|m IH]; intros Hle.
    - rewrite csum_0. by rewrite bool_decide_eq_true_2 by lia.
    - rewrite Nat2Z.inj_succ, <- Z.add_1_r, csum_succ by lia.
      rewrite IH by lia.
      destruct (decide (Z.of_nat m = co)) as [Heq|Hne].
      + rewrite bool_decide_eq_true_2, bool_decide_eq_false_2 by lia.
        rewrite Heq, H1, (SRmul_comm SR), (SRmul_1_l SR).
        apply (SRadd_0_l SR).
      + rewrite (H0 (Z.of_nat m)) by lia.
        rewrite (SRmul_comm SR), (SRmul_0_l SR), (SRadd_comm SR),
          (SRadd_0_l SR).
        repeat case_bool_decide; (done || lia). }
  specialize (Hm (Z.to_nat n) ltac:(lia)). rewrite Z2Nat.id in Hm by lia.
  rewrite Hm. by rewrite bool_decide_eq_false_2 by lia.
Qed.

(** the entries of the n x n tensor that IdentityTensor fills *)
Lemma IdentityTensor_matrix (e : tensor_t) (n : Z) (exs : list C) :
  is_tensor e [n; n] exs →
  n * n * SIZEOF_COMPLEX < 2 ^ SIZE_WIDTH →
  ∃ e' exs',
    IdentityTensor e = Ok e'
    ∧ is_tensor e' [n; n] exs'
    ∧ ∀ a b, 0 ≤ a < n → 0 ≤ b < n →
             at_ exs' (a + n * b) = if bool_decide (a = b) then c1 else c0.
Proof.
  intros He Hb.
  assert (Hpw : n ^ Z.of_nat 2 = n * n) by (simpl; lia).
  destruct (IdentityTensor_ok e n 1 exs He) as (exs' & Hrun & Hl & Hd & Ho).
  { by rewrite Hpw. }
  assert (Hg : geom n 2 = 1 + n).
  { rewrite geom_succ, geom_S, geom_0. simpl. lia. }
  rewrite Hg in Hd, Ho. rewrite Hpw in Ho.
  eexists _, exs'. split; [exact Hrun|]. split.
  - destruct He as [H1 H2 H3 H4 H5 H6 H7].
    constructor; try done. by rewrite Hl.
  - intros a b Ha Hb'. unfold at_. case_bool_decide as Hab.
    + subst b. replace (a + n * a) with (a * (1 + n)) by lia.
      by rewrite Hd.
    + rewrite Ho; [done|nia|].
      intros j Hj Heq. apply Hab.
      assert (a - j = n * (j - b)) by lia.
      assert (j - b = 0) by nia. lia.
Qed.

(** X23: The tensor that IdentityTensor fills is the unit of MultiplyTensor:
    contracting the last axis of S, or the first axis of U, with the n x n
    identity returns a tensor equal to S, respectively to U. *)
Theorem MultiplyTensor_IdentityTensor (e : tensor_t) (n : Z) (exs : list C) :
  is_tensor e [n; n] exs →
  n * n * SIZEOF_COMPLEX < 2 ^ SIZE_WIDTH → n ≤ INT_MAX →
  ∃ e',
    IdentityTensor e = Ok e'
    ∧ (∀ (s : tensor_t) (A : list Z) (sxs : list C),
         is_tensor s (A ++ [n]) sxs →
         Z.of_nat (length A) + 3 ≤ INT_MAX → prodZ A ≤ INT_MAX →
         MultiplyTensor s e' 1 = Ok s)
    ∧ (∀ (u : tensor_t) (Cd : list Z) (uxs : list C),
         is_tensor u (n :: Cd) uxs →
         Z.of_nat (length Cd) + 3 ≤ INT_MAX → prodZ Cd ≤ INT_MAX →
         MultiplyTensor e' u 1 = Ok u).
Proof.
  intros He Hb Hn.
  destruct (IdentityTensor_matrix e n exs He Hb) as (e' & exs' & Hrun & He' & Hid).
  assert (Hpn : prodZ [n] = n) by (unfold prodZ; simpl; lia).
  assert (H0n : 0 < n).
  { pose proof (it_pos _ _ _ He) as H. by inversion H. }
  exists e'. split; [exact Hrun|]. split.
  - intros s A sxs Hs Hrk HA.
    destruct (MultiplyTensor_ok SR s e' A [n] [n] sxs exs' Hs He')
      as (rxs & Hmul & Hrl & Hent);
      [done|rewrite length_app; simpl; lia|done|by rewrite Hpn..|].
    change (Z.of_nat (length [n])) with 1 in Hmul. rewrite Hmul.
    rewrite Hpn in *.
    pose proof (it_pos _ _ _ Hs) as Hpos.
    apply Forall_app in Hpos as [HpA _].
    pose proof (prodZ_pos _ HpA) as H0A.
    pose proof (it_len _ _ _ Hs) as Hsl. rewrite prodZ_app, Hpn in Hsl.
    assert (rxs = sxs) as ->.
    { apply list_eq. intros o.
      destruct (decide (Z.of_nat o < prodZ A * n)) as [Ho|Ho].
      - pose proof (Z.div_mod (Z.of_nat o) (prodZ A) ltac:(lia)) as Hdm.
        pose proof (Z.mod_pos_bound (Z.of_nat o) (prodZ A) ltac:(lia)) as Hm.
        assert (Hq : 0 ≤ Z.of_nat o / prodZ A < n).
        { split; [apply Z.div_pos; lia|].
          apply Z.div_lt_upper_bound; lia. }
        specialize (Hent (Z.of_nat o mod prodZ A) (Z.of_nat o / prodZ A)
                      Hm Hq).
        replace (Z.of_nat o mod prodZ A + prodZ A * (Z.of_nat o / prodZ A))
          with (Z.of_nat o) in Hent by lia.
        rewrite Nat2Z.id in Hent. rewrite Hent.
        rewrite (csum_delta n (Z.of_nat o / prodZ A)
                   (fun b => at_ sxs (Z.of_nat o mod prodZ A + prodZ A * b))
                   (fun b => at_ exs' (b + n * (Z.of_nat o / prodZ A))));
          [|done| |].
        + replace (Z.of_nat o mod prodZ A + prodZ A * (Z.of_nat o / prodZ A))
            with (Z.of_nat o) by lia.
          unfold at_. rewrite Nat2Z.id.
          destruct (lookup_lt_is_Some_2 sxs o) as [x Hx]; [lia|].
          by rewrite Hx.
        + rewrite Hid by lia. by rewrite bool_decide_eq_true_2.
        + intros b Hb' Hne. rewrite Hid by lia.
          by rewrite bool_decide_eq_false_2.
      - rewrite !lookup_ge_None_2 by lia. done. }
    f_equal. symmetry.
    assert (Hne : A ++ [n] ≠ []) by (by destruct A).
    rewrite (is_tensor_eta _ _ _ Hs Hne). f_equal.
    by destruct A.
  - intros u Cd uxs Hu Hrk HC.
    destruct (MultiplyTensor_ok SR e' u [n] [n] Cd exs' uxs He' Hu)
      as (rxs & Hmul & Hrl & Hent);
      [done|simpl in *; lia|by rewrite Hpn..|done|].
    change (Z.of_nat (length [n])) with 1 in Hmul. rewrite Hmul.
    rewrite Hpn in *.
    pose proof (it_pos _ _ _ Hu) as Hpos.
    inversion Hpos as [|? ? _ HpC]; subst.
    pose proof (prodZ_pos _ HpC) as H0C.
    pose proof (it_len _ _ _ Hu) as Hul. rewrite prodZ_cons in Hul.
    assert (rxs = uxs) as ->.
    { apply list_eq. intros o.
      destruct (decide (Z.of_nat o < n * prodZ Cd)) as [Ho|Ho].
      - pose proof (Z.div_mod (Z.of_nat o) n ltac:(lia)) as Hdm.
        pose proof (Z.mod_pos_bound (Z.of_nat o) n ltac:(lia)) as Hm.
        assert (Hq : 0 ≤ Z.of_nat o / n < prodZ Cd).
        { split; [apply Z.div_pos; lia|].
          apply Z.div_lt_upper_bound; lia. }
        specialize (Hent (Z.of_nat o mod n) (Z.of_nat o / n) Hm Hq).
        replace (Z.of_nat o mod n + n * (Z.of_nat o / n))
          with (Z.of_nat o) in Hent by lia.
        rewrite Nat2Z.id in Hent. rewrite Hent.
        rewrite (csum_ext n _
                   (fun b => cmul (at_ uxs (b + n * (Z.of_nat o / n)))
                                  (at_ exs' (Z.of_nat o mod n + n * b))))
          by (intros; apply (SRmul_comm SR)).
        rewrite (csum_delta n (Z.of_nat o mod n)
                   (fun b => at_ uxs (b + n * (Z.of_nat o / n)))
                   (fun b => at_ exs' (Z.of_nat o mod n + n * b)));
          [|done| |].
        + replace (Z.of_nat o mod n + n * (Z.of_nat o / n))
            with (Z.of_nat o) by lia.
          unfold at_. rewrite Nat2Z.id.
          destruct (lookup_lt_is_Some_2 uxs o) as [x Hx]; [lia|].
          by rewrite Hx.
        + rewrite Hid by lia. by rewrite bool_decide_eq_true_2.
        + intros b Hb' Hne. rewrite Hid by lia.
          by rewrite bool_decide_eq_false_2.
      - rewrite !lookup_ge_None_2 by lia. done. }
    f_equal. symmetry.
    by rewrite (is_tensor_eta _ _ _ Hu ltac:(done)).
Qed.

End Unit.

(** *** The trace of a transposed tensor *)

Lemma permuted_replicate {A} (n : Z) (perm : list Z) (r : nat) (v : A) :
  is_perm n perm → Z.of_nat r = n →
  permuted perm (replicate r v) (replicate r v).
Proof.
  intros Hp Hr. split; [done|]. intros k p Hk.
  pose proof (is_perm_range _ _ _ _ Hp Hk).
  pose proof (lookup_lt_Some _ _ _ Hk) as Hkl.
  destruct Hp as (Hl & _).
  rewrite !lookup_replicate_2 by lia. done.
Qed.

(** X25: TensorTrace does not change under TransposeTensor: for a tensor whose
    extents all agree, every permutation of the axes keeps the shape and the
    diagonal, so the trace of the transposed tensor is the trace of the
    tensor. *)
Theorem TensorTrace_TransposeTensor (perm : list Z) (t : tensor_t) (n : Z)
    (r : nat) (xs : list C) :
  (1 ≤ r)%nat → is_tensor t (replicate r n) xs → is_perm (ndim t) perm →
  ∃ t' xs',
    TransposeTensor perm t = Ok t'
    ∧ is_tensor t' (replicate r n) xs'
    ∧ TensorTrace t' = TensorTrace t.
Proof.
  intros Hr Ht Hperm. destruct r as [|r]; [lia|].
  pose proof (it_ndim _ _ _ Ht) as Hn. rewrite length_replicate in Hn.
  assert (Hne : replicate (S r) n ≠ []) by done.
  destruct (TransposeTensor_ok perm t _ xs Ht Hne Hperm)
    as (rds & rxs & Hrun & Hrds & Hr' & Hent).
  assert (rds = replicate (S r) n) as ->.
  { apply (permuted_inj_r (ndim t) perm (replicate (S r) n));
      [done|rewrite length_replicate; lia|done|].
    apply (permuted_replicate (ndim t)); [done|lia]. }
  eexists _, rxs. split; [exact Hrun|]. split; [exact Hr'|].
  rewrite (TensorTrace_ok _ n r rxs Hr'), (TensorTrace_ok _ n r xs Ht).
  f_equal. apply csum_ext. intros j Hj. unfold tensor_at.
  pose proof (Hent (replicate (S r) j) (replicate (S r) j)
                (valid_index_diag n j (S r) Hj)
                (permuted_replicate (ndim t) perm (S r) j Hperm
                   ltac:(lia))) as He.
  unfold entry in He. by rewrite He.
Qed.

End Tensor.

(** * The Gaussian integers and the worked examples *)

Lemma zi_semiring : semi_ring_theory (zi 0 0) (zi 1 0) zi_add zi_mul eq.
Proof.
  constructor; intros; repeat match goal with x : Zi |- _ => destruct x end;
    unfold zi_add, zi_mul, zi; simpl; f_equal; lia.
Qed.

(** ** The worked examples *)

(** C4 (as amended): for conforming tensors whose number K of contracted
    entries and whose rank sum are at most INT_MAX: when all axes of S and of
    T are contracted, MultiplyTensor returns a rank-0 tensor whose single
    entry is the sum over k of S.data[k] * T.data[k], no operand being
    conjugated; more generally, when the kept axes all have extent 1
    (LDS = TDT = 1) the result has the rank p+q-2m of the kept axes and its
    single entry is that sum.  For S = [1+i, 2], T = [3, 4-i] and m = 1 the
    result is 11 + i, which is not the value 11 - 5i of the conjugated
    product.  The scalars form a commutative semiring. *)
Theorem MultiplyTensor_unconjugated :
  (∀ (C : Type) (c0 c1 : C) (cadd cmul : C → C → C) (s t : tensor_t)
     (Kd : list Z) (sxs txs : list C),
      semi_ring_theory c0 c1 cadd cmul eq →
      is_tensor s Kd sxs → is_tensor t Kd txs → Kd ≠ [] →
      2 * Z.of_nat (length Kd) ≤ INT_MAX → prodZ Kd ≤ INT_MAX →
      MultiplyTensor c0 c1 cadd cmul s t (Z.of_nat (length Kd))
      = Ok {| ndim := 0; dim := NULL;
              data := Live [csum c0 cadd (prodZ Kd)
                              (fun k => cmul (at_ c0 sxs k)
                                             (at_ c0 txs k))] |})
  ∧ (∀ (C : Type) (c0 c1 : C) (cadd cmul : C → C → C) (s t : tensor_t)
       (A Kd Cd : list Z) (sxs txs : list C),
      semi_ring_theory c0 c1 cadd cmul eq →
      is_tensor s (A ++ Kd) sxs → is_tensor t (Kd ++ Cd) txs → Kd ≠ [] →
      Z.of_nat (length (A ++ Kd)) + Z.of_nat (length (Kd ++ Cd)) ≤ INT_MAX →
      prodZ A = 1 → prodZ Cd = 1 → prodZ Kd ≤ INT_MAX →
      ∃ r, MultiplyTensor c0 c1 cadd cmul s t (Z.of_nat (length Kd)) = Ok r
           ∧ ndim r = Z.of_nat (length A) + Z.of_nat (length Cd)
           ∧ data r = Live [csum c0 cadd (prodZ Kd)
                              (fun k => cmul (at_ c0 sxs k)
                                             (at_ c0 txs k))])
  ∧ MultiplyTensor (zi 0 0) (zi 1 0) zi_add zi_mul
      (vector [zi 1 1; zi 2 0]) (vector [zi 3 0; zi 4 (-1)]) 1
    = Ok (scalar (zi 11 1))
  ∧ zi_add (zi_mul (zi_conj (zi 1 1)) (zi 3 0))
           (zi_mul (zi_conj (zi 2 0)) (zi 4 (-1))) = zi 11 (-5).
Proof.
  split; [|split; [|split]].
  - intros C c0 c1 cadd cmul s t Kd sxs txs SR Hs Ht HKd Hrk HK.
    apply (MultiplyTensor_dot c0 c1 cadd cmul s t [] Kd [] sxs txs SR);
      try done.
    + by rewrite app_nil_r.
    + simpl. rewrite app_nil_r. lia.
  - intros C c0 c1 cadd cmul s t A Kd Cd sxs txs SR Hs Ht HKd Hrk HA HC HK.
    rewrite (MultiplyTensor_dot c0 c1 cadd cmul s t A Kd Cd sxs txs SR)
      by done.
    eexists. split; [done|]. simpl. rewrite length_app. split; [lia|done].
  - vm_compute. reflexivity.
  - reflexivity.
Qed.

(** the inner product of the specification, through the theorem *)
Lemma MultiplyTensor_unconjugated_witness :
  MultiplyTensor (zi 0 0) (zi 1 0) zi_add zi_mul
    (vector [zi 1 1; zi 2 0]) (vector [zi 3 0; zi 4 (-1)]) (Z.of_nat 1)
  = Ok {| ndim := 0; dim := NULL;
          data := Live [csum (zi 0 0) zi_add (prodZ [2])
                          (fun k => zi_mul (at_ (zi 0 0) [zi 1 1; zi 2 0] k)
                                      (at_ (zi 0 0) [zi 3 0; zi 4 (-1)] k))] |}.
Proof.
  apply (proj1 MultiplyTensor_unconjugated Zi (zi 0 0) (zi 1 0) zi_add zi_mul
           (vector [zi 1 1; zi 2 0]) (vector [zi 3 0; zi 4 (-1)]) [2]
           [zi 1 1; zi 2 0] [zi 3 0; zi 4 (-1)] zi_semiring).
  - concrete_tensor.
  - concrete_tensor.
  - discriminate.
  - unfold INT_MAX. simpl. lia.
  - unfold INT_MAX. vm_compute. discriminate.
Defined.

(** ** The theorems at concrete tensors *)

(** C1 at the matrices [[1,2],[3,4]] and [[5,6],[7,8]] of the specification:
    the entry (1,0) of the product is 43 *)
Lemma MultiplyTensor_correct_witness :
  ∃ r rxs,
    MultiplyTensor (zi 0 0) (zi 1 0) zi_add zi_mul
      (matrix 2 2 (re <$> [1; 3; 2; 4])) (matrix 2 2 (re <$> [5; 7; 6; 8]))
      (Z.of_nat 1) = Ok r
    ∧ is_tensor r [2; 2] rxs
    ∧ entry rxs [2; 2] [1; 0] = Some (re 43).
Proof.
  destruct (MultiplyTensor_correct (zi 0 0) (zi 1 0) zi_add zi_mul
              (matrix 2 2 (re <$> [1; 3; 2; 4]))
              (matrix 2 2 (re <$> [5; 7; 6; 8]))
              [2; 2] [2; 2] (re <$> [1; 3; 2; 4]) (re <$> [5; 7; 6; 8])
              1%nat zi_semiring)
    as (r & rxs & Hrun & Hr & _ & Hent & _).
  - concrete_tensor.
  - concrete_tensor.
  - simpl. lia.
  - simpl. lia.
  - intros [|i] Hi; [reflexivity|lia].
  - unfold INT_MAX. simpl. lia.
  - vm_compute. discriminate.
  - vm_compute. discriminate.
  - vm_compute. discriminate.
  - vm_compute. reflexivity.
  - exists r, rxs. split; [exact Hrun|]. split; [exact Hr|].
    etransitivity; [apply (Hent [1] [0])|vm_compute; reflexivity];
      repeat constructor; simpl; lia.
Defined.

(** C2 at the 2x3 example of the specification *)
Lemma TransposeTensor_correct_witness :
  ∃ r rds rxs,
    TransposeTensor (zi 0 0) [1; 0] (matrix 2 3 (re <$> [1; 2; 3; 4; 5; 6]))
    = Ok r
    ∧ is_tensor r rds rxs
    ∧ rds !! 0%nat = Some 3 ∧ rds !! 1%nat = Some 2
    ∧ entry rxs rds [2; 1] = Some (re 6).
Proof.
  destruct (proj1 (TransposeTensor_correct (zi 0 0)) [1; 0]
              (matrix 2 3 (re <$> [1; 2; 3; 4; 5; 6])) [2; 3]
              (re <$> [1; 2; 3; 4; 5; 6]))
    as (r & rds & rxs & Hrun & Hr & _ & Hdim & Hent & _).
  - concrete_tensor.
  - simpl. lia.
  - concrete_perm.
  - exists r, rds, rxs. split; [exact Hrun|]. split; [exact Hr|].
    split; [exact (Hdim 1%nat 0 eq_refl)|].
    split; [exact (Hdim 0%nat 1 eq_refl)|].
    destruct (Hent [1; 2] [2; 1]) as [_ ->].
    + repeat constructor; lia.
    + split; [reflexivity|]. intros [|[|k]] p Hk; simpl in Hk;
        try discriminate; injection Hk as <-; reflexivity.
    + reflexivity.
Defined.

(** C5 at n = 3 and rank 4 *)
Lemma IdentityTensor_TensorTrace_witness :
  ∃ t' xs',
    IdentityTensor (zi 0 0) (zi 1 0)
      {| ndim := 4; dim := Live [3; 3; 3; 3];
         data := Live (replicate 81 (zi 0 0)) |} = Ok t'
    ∧ is_tensor t' [3; 3; 3; 3] xs'
    ∧ entry xs' [3; 3; 3; 3] [2; 2; 2; 2] = Some (zi 1 0)
    ∧ entry xs' [3; 3; 3; 3] [2; 0; 2; 2] = Some (zi 0 0)
    ∧ TensorTrace (zi 0 0) zi_add t' = Ok (zi 3 0).
Proof.
  destruct (IdentityTensor_TensorTrace (zi 0 0) (zi 1 0) zi_add
              {| ndim := 4; dim := Live [3; 3; 3; 3];
                 data := Live (replicate 81 (zi 0 0)) |}
              3 4%nat (replicate 81 (zi 0 0)))
    as (t' & xs' & Hrun & Ht' & Hdiag & Hoff & _ & _ & Htr).
  - lia.
  - concrete_tensor.
  - vm_compute. reflexivity.
  - exists t', xs'. split; [exact Hrun|]. split; [exact Ht'|].
    split; [exact (Hdiag 2 ltac:(lia))|]. split; [|exact Htr].
    apply (Hoff [2; 0; 2; 2]).
    + repeat constructor; lia.
    + intros j Hj. injection Hj as H1 H2. lia.
Defined.

(** C8 (as amended) on two vectors of two entries *)
Lemma kernel_counts_unchecked_witness :
  ∃ txs',
    ScalarMultiplyAddTensor (zi 0 0) zi_add zi_mul (zi 2 0)
      (vector [zi 1 0; zi 0 1]) (vector [zi 1 1; zi 5 0])
    = Ok {| ndim := 1; dim := Live [2]; data := Live txs' |}
    ∧ txs' !! 1%nat = Some (zi 5 2).
Proof.
  destruct (proj1 (kernel_counts_unchecked (zi 0 0) (zi 1 0) zi_add zi_mul
                     zi_scale zi_semiring)
              (zi 2 0) (vector [zi 1 0; zi 0 1]) (vector [zi 1 1; zi 5 0])
              [2] [zi 1 0; zi 0 1] [zi 1 1; zi 5 0])
    as (txs' & Hrun & _ & Hall).
  - concrete_tensor.
  - concrete_tensor.
  - exists txs'. split; [exact Hrun|].
    apply (Hall ltac:(vm_compute; discriminate) 1).
    vm_compute. split; [discriminate|reflexivity].
Defined.

(** C10 on a vector: the second DeleteTensor releases nothing *)
Lemma DeleteTensor_idempotent_witness :
  DeleteTensor (vector [zi 1 0; zi 2 0])
  = Ok ({| ndim := 0; dim := Dangling; data := NULL |}, 2%nat)
  ∧ DeleteTensor {| ndim := 0; dim := @Dangling (list Z);
                    data := @NULL (list Zi) |}
    = Ok ({| ndim := 0; dim := Dangling; data := NULL |}, 0%nat).
Proof.
  split; [reflexivity|].
  exact (proj1 (proj2 (proj2
           (DeleteTensor_idempotent (vector [zi 1 0; zi 2 0])
              {| ndim := 0; dim := Dangling; data := NULL |} 2%nat
              eq_refl)))).
Defined.

(** ** The further properties at concrete tensors *)

(** X1 at rank -1 and at the shape (3,0) *)
Lemma AllocateTensor_rejects_witness :
  AllocateTensor (zi 0 0) (-1) [2; 3] = Abort
  ∧ AllocateTensor (zi 0 0) 2 [3; 0] = Abort.
Proof.
  split.
  - apply (proj1 (AllocateTensor_rejects (zi 0 0) (-1) [2; 3])). lia.
  - apply (proj2 (AllocateTensor_rejects (zi 0 0) 2 [3; 0])).
    + simpl. lia.
    + apply list_elem_of_lookup. exists 1%nat. reflexivity.
Defined.

(** X2 at a shape of 3 * 6148914691236517206 = 2^64 + 2 entries, which gets 2
    cells *)
Lemma AllocateTensor_count_wraps_witness :
  2 ^ 64 < prodZ [3; 6148914691236517206]
  ∧ AllocateTensor (zi 0 0) 2 [3; 6148914691236517206]
    = Ok {| ndim := 2; dim := Live [3; 6148914691236517206];
            data := Live [zi 0 0; zi 0 0] |}.
Proof.
  split; [reflexivity|].
  apply (AllocateTensor_count_wraps (zi 0 0) [3; 6148914691236517206]).
  - discriminate.
  - reflexivity.
Defined.

(** X3 at the shape (2,3) *)
Lemma AllocateTensor_DeleteTensor_witness :
  ∃ t xs t',
    AllocateTensor (zi 0 0) 2 [2; 3] = Ok t
    ∧ is_tensor t [2; 3] xs
    ∧ entry xs [2; 3] [1; 2] = Some (zi 0 0)
    ∧ DeleteTensor t = Ok (t', 2%nat).
Proof.
  destruct (AllocateTensor_DeleteTensor (zi 0 0) [2; 3])
    as (t & xs & t' & Hrun & Ht & Hent & Hdel & _).
  - repeat constructor; lia.
  - vm_compute. reflexivity.
  - unfold INT_MAX. simpl. lia.
  - exists t, xs, t'. split; [exact Hrun|]. split; [exact Ht|].
    split; [|exact Hdel].
    apply Hent. repeat constructor; lia.
Defined.

(** X4 on a 2x3 matrix and on a scalar *)
Lemma CopyTensor_correct_witness :
  (∃ dst,
     CopyTensor (zi 0 0) (matrix 2 3 (re <$> [1; 2; 3; 4; 5; 6])) = Ok dst
     ∧ is_tensor dst [2; 3] (re <$> [1; 2; 3; 4; 5; 6])
     ∧ dim dst = Live [2; 3])
  ∧ (∃ dst,
     CopyTensor (zi 0 0) (scalar (zi 3 4)) = Ok dst
     ∧ is_tensor dst [] [zi 3 4]
     ∧ dim dst = NULL).
Proof.
  split.
  - apply (CopyTensor_correct (zi 0 0)
             (matrix 2 3 (re <$> [1; 2; 3; 4; 5; 6])) [2; 3]).
    + concrete_tensor.
    + reflexivity.
  - apply (CopyTensor_correct (zi 0 0) (scalar (zi 3 4)) []).
    + constructor; simpl;
        [reflexivity|unfold INT_MAX; lia|intros H; by destruct H|reflexivity
        |constructor|reflexivity|reflexivity].
    + reflexivity.
Defined.

(** X5 on a 2x1 matrix of Gaussian integers *)
Lemma ConjugateTensor_correct_witness :
  ∃ t' xs',
    ConjugateTensor zi_conj (matrix 2 1 [zi 1 2; zi 3 4]) = Ok t'
    ∧ is_tensor t' [2; 1] xs'
    ∧ entry xs' [2; 1] [1; 0] = Some (zi 3 (-4))
    ∧ ConjugateTensor zi_conj t' = Ok (matrix 2 1 [zi 1 2; zi 3 4]).
Proof.
  destruct (ConjugateTensor_correct (zi 0 0) zi_conj
              (matrix 2 1 [zi 1 2; zi 3 4]) [2; 1] [zi 1 2; zi 3 4])
    as (t' & xs' & Hrun & Ht' & _ & Hent & Hinv).
  - concrete_tensor.
  - exists t', xs'. split; [exact Hrun|]. split; [exact Ht'|]. split.
    + apply (Hent [1; 0]). repeat constructor; lia.
    + apply Hinv. intros [a b]. unfold zi_conj. simpl. f_equal. lia.
Defined.

(** X6 on a 2x2 matrix of Gaussian integers *)
Lemma ConjugateTransposeTensor_correct_witness :
  ∃ r rds rxs,
    ConjugateTransposeTensor (zi 0 0) zi_conj [1; 0]
      (matrix 2 2 [zi 1 2; zi 3 4; zi 5 6; zi 7 8]) = Ok r
    ∧ is_tensor r rds rxs
    ∧ entry rxs rds [1; 0] = Some (zi 5 (-6)).
Proof.
  destruct (ConjugateTransposeTensor_correct (zi 0 0) zi_conj [1; 0]
              (matrix 2 2 [zi 1 2; zi 3 4; zi 5 6; zi 7 8]) [2; 2]
              [zi 1 2; zi 3 4; zi 5 6; zi 7 8])
    as (r & rds & rxs & Hrun & Hr & _ & Hent & _).
  - concrete_tensor.
  - simpl. lia.
  - concrete_perm.
  - exists r, rds, rxs. split; [exact Hrun|]. split; [exact Hr|].
    apply (Hent [0; 1] [1; 0]).
    + repeat constructor; lia.
    + split; [reflexivity|]. intros [|[|k]] p Hk; simpl in Hk;
        try discriminate; injection Hk as <-; reflexivity.
Defined.

(** X7 from the shape (2,3) to (3,2), at the flat position 4 *)
Lemma ReshapeTensor_correct_witness :
  ∃ t',
    ReshapeTensor 2 [3; 2] (matrix 2 3 (re <$> [1; 2; 3; 4; 5; 6])) = Ok t'
    ∧ is_tensor t' [3; 2] (re <$> [1; 2; 3; 4; 5; 6])
    ∧ entry (re <$> [1; 2; 3; 4; 5; 6]) [3; 2] [1; 1]
      = entry (re <$> [1; 2; 3; 4; 5; 6]) [2; 3] [0; 2].
Proof.
  destruct (ReshapeTensor_correct
              (matrix 2 3 (re <$> [1; 2; 3; 4; 5; 6])) [2; 3] [3; 2]
              (re <$> [1; 2; 3; 4; 5; 6]))
    as (t' & Hrun & Ht' & _ & Hent).
  - concrete_tensor.
  - reflexivity.
  - repeat constructor; lia.
  - reflexivity.
  - unfold INT_MAX. simpl. lia.
  - exists t'. split; [exact Hrun|]. split; [exact Ht'|].
    exact (proj2 (Hent 4 ltac:(split; [lia|reflexivity]))).
Defined.

(** X8 from the shape (2,3) to (2,2) *)
Lemma ReshapeTensor_mismatch_witness :
  ReshapeTensor 2 [2; 2] (matrix 2 3 (re <$> [1; 2; 3; 4; 5; 6])) = Abort.
Proof.
  apply (ReshapeTensor_mismatch
           (matrix 2 3 (re <$> [1; 2; 3; 4; 5; 6])) [2; 3] [2; 2]
           (re <$> [1; 2; 3; 4; 5; 6])).
  - concrete_tensor.
  - vm_compute. discriminate.
Defined.

(** X9 from the shape (2,3) to (6) and back *)
Lemma ReshapeTensor_roundtrip_witness :
  ∃ t',
    ReshapeTensor 1 [6] (matrix 2 3 (re <$> [1; 2; 3; 4; 5; 6])) = Ok t'
    ∧ ReshapeTensor 2 [2; 3] t'
      = Ok (matrix 2 3 (re <$> [1; 2; 3; 4; 5; 6])).
Proof.
  apply (ReshapeTensor_roundtrip
           (matrix 2 3 (re <$> [1; 2; 3; 4; 5; 6])) [2; 3] [6]
           (re <$> [1; 2; 3; 4; 5; 6])).
  - concrete_tensor.
  - discriminate.
  - repeat constructor; lia.
  - reflexivity.
  - unfold INT_MAX. simpl. lia.
Defined.

(** X10 on a 2x3 tensor added to a 3x2 tensor *)
Lemma ScalarMultiplyAddTensor_flat_witness :
  ∃ t' txs',
    ScalarMultiplyAddTensor (zi 0 0) zi_add zi_mul (zi 2 0)
      (matrix 2 3 (re <$> [1; 2; 3; 4; 5; 6]))
      (matrix 3 2 (re <$> [10; 20; 30; 40; 50; 60])) = Ok t'
    ∧ is_tensor t' [3; 2] txs'
    ∧ txs' !! 4%nat = Some (zi 60 0).
Proof.
  destruct (ScalarMultiplyAddTensor_flat (zi 0 0) zi_add zi_mul (zi 2 0)
              (matrix 2 3 (re <$> [1; 2; 3; 4; 5; 6]))
              (matrix 3 2 (re <$> [10; 20; 30; 40; 50; 60]))
              [2; 3] [3; 2]
              (re <$> [1; 2; 3; 4; 5; 6])
              (re <$> [10; 20; 30; 40; 50; 60]))
    as (t' & txs' & Hrun & Ht' & _ & Hent).
  - concrete_tensor.
  - concrete_tensor.
  - reflexivity.
  - reflexivity.
  - vm_compute. discriminate.
  - exists t', txs'. split; [exact Hrun|]. split; [exact Ht'|].
    exact (Hent 4 ltac:(split; [lia|reflexivity])).
Defined.

(** X11 on a 2x3 and a 2x2 matrix *)
Lemma ScalarMultiplyAddTensor_mismatch_witness :
  ScalarMultiplyAddTensor (zi 0 0) zi_add zi_mul (zi 2 0)
    (matrix 2 3 (re <$> [1; 2; 3; 4; 5; 6]))
    (matrix 2 2 (re <$> [10; 20; 30; 40])) = Abort.
Proof.
  apply (ScalarMultiplyAddTensor_mismatch (zi 0 0) zi_add zi_mul (zi 2 0)
           (matrix 2 3 (re <$> [1; 2; 3; 4; 5; 6]))
           (matrix 2 2 (re <$> [10; 20; 30; 40])) [2; 3] [2; 2]
           (re <$> [1; 2; 3; 4; 5; 6]) (re <$> [10; 20; 30; 40])).
  - concrete_tensor.
  - concrete_tensor.
  - right. vm_compute. discriminate.
Defined.

(** X12 at the shape (2,3) and the position 5 *)
Lemma IndexToOffset_bijection_witness :
  IndexToOffset 2 (rd [2; 3]) (rd [1; 2]) = Ok 5
  ∧ index_of [2; 3] 5 = [1; 2].
Proof.
  destruct (IndexToOffset_bijection [2; 3]) as (H1 & _ & H3).
  - repeat constructor; lia.
  - reflexivity.
  - split; [|reflexivity].
    exact (proj2 (H3 5 ltac:(split; [lia|reflexivity]))).
Defined.

(** X13 from the last multi-index of the shape (2,3) back to the first *)
Lemma NextIndex_successor_witness :
  ∃ idx' o,
    NextIndex 2 (rd [2; 3]) 0 [1; 2] = Ok idx'
    ∧ IndexToOffset 2 (rd [2; 3]) (rd [1; 2]) = Ok o
    ∧ IndexToOffset 2 (rd [2; 3]) (rd idx') = Ok ((o + 1) mod 6)
    ∧ idx' = [0; 0].
Proof.
  destruct (NextIndex_successor [2; 3] [1; 2])
    as (idx' & o & Hrun & _ & Ho & Ho' & Hlast).
  - repeat constructor; lia.
  - reflexivity.
  - exists idx', o. split; [exact Hrun|]. split; [exact Ho|].
    split; [exact Ho'|].
    apply Hlast. vm_compute in Ho. injection Ho as <-. reflexivity.
Defined.

(** X14 on the matrix [[1,3],[2,4]] *)
Lemma TensorTrace_sum_witness :
  TensorTrace (zi 0 0) zi_add (matrix 2 2 (re <$> [1; 2; 3; 4]))
  = Ok (zi 5 0).
Proof.
  rewrite (proj1 (TensorTrace_sum (zi 0 0) zi_add
                    (matrix 2 2 (re <$> [1; 2; 3; 4])) 2 2
                    (re <$> [1; 2; 3; 4]) ltac:(lia)
                    ltac:(concrete_tensor))).
  reflexivity.
Defined.

(** X15 on a 2x3 matrix *)
Lemma IdentityTensor_TensorTrace_reject_witness :
  IdentityTensor (zi 0 0) (zi 1 0)
    (matrix 2 3 (re <$> [1; 2; 3; 4; 5; 6])) = Abort
  ∧ TensorTrace (zi 0 0) zi_add
      (matrix 2 3 (re <$> [1; 2; 3; 4; 5; 6])) = Abort.
Proof.
  apply (IdentityTensor_TensorTrace_reject (zi 0 0) (zi 1 0) zi_add
           (matrix 2 3 (re <$> [1; 2; 3; 4; 5; 6])) [2; 3]
           (re <$> [1; 2; 3; 4; 5; 6])).
  - concrete_tensor.
  - right. exists 1%nat, 3, 2. split; [reflexivity|].
    split; [reflexivity|lia].
Defined.

(** X16 on a 2x3 and a 2x2 matrix, one axis contracted *)
Lemma MultiplyTensor_rejects_witness :
  MultiplyTensor (zi 0 0) (zi 1 0) zi_add zi_mul
    (matrix 2 3 (re <$> [1; 2; 3; 4; 5; 6]))
    (matrix 2 2 (re <$> [1; 2; 3; 4])) 1 = Abort.
Proof.
  apply (MultiplyTensor_rejects (zi 0 0) (zi 1 0) zi_add zi_mul
           (matrix 2 3 (re <$> [1; 2; 3; 4; 5; 6]))
           (matrix 2 2 (re <$> [1; 2; 3; 4])) [2; 3] [2; 2]
           (re <$> [1; 2; 3; 4; 5; 6]) (re <$> [1; 2; 3; 4]) 1).
  - concrete_tensor.
  - concrete_tensor.
  - right. right. right. exists 0%nat. split; [lia|].
    vm_compute. discriminate.
Defined.

(** X17 on a 2x3 matrix with perm = (0,2) *)
Lemma TransposeTensor_bad_perm_witness :
  TransposeTensor (zi 0 0) [0; 2] (matrix 2 3 (re <$> [1; 2; 3; 4; 5; 6]))
  = Abort.
Proof.
  apply (TransposeTensor_bad_perm (zi 0 0) [0; 2]
           (matrix 2 3 (re <$> [1; 2; 3; 4; 5; 6])) [2; 3]
           (re <$> [1; 2; 3; 4; 5; 6]) 1 2).
  - concrete_tensor.
  - simpl. lia.
  - reflexivity.
  - simpl. lia.
Defined.

(** X18 on a 2x3 matrix *)
Lemma TransposeTensor_identity_witness :
  TransposeTensor (zi 0 0) [0; 1] (matrix 2 3 (re <$> [1; 2; 3; 4; 5; 6]))
  = Ok (matrix 2 3 (re <$> [1; 2; 3; 4; 5; 6])).
Proof.
  apply (TransposeTensor_identity (zi 0 0)
           (matrix 2 3 (re <$> [1; 2; 3; 4; 5; 6])) [2; 3]
           (re <$> [1; 2; 3; 4; 5; 6])).
  - concrete_tensor.
  - simpl. lia.
Defined.

(** X19 on a tensor of shape (2,1,3): the cyclic shift of the axes, twice *)
Lemma TransposeTensor_compose_witness :
  ∃ r r',
    TransposeTensor (zi 0 0) [1; 2; 0]
      {| ndim := 3; dim := Live [2; 1; 3];
         data := Live (re <$> [1; 2; 3; 4; 5; 6]) |} = Ok r
    ∧ TransposeTensor (zi 0 0) [1; 2; 0] r = Ok r'
    ∧ TransposeTensor (zi 0 0) [2; 0; 1]
        {| ndim := 3; dim := Live [2; 1; 3];
           data := Live (re <$> [1; 2; 3; 4; 5; 6]) |} = Ok r'.
Proof.
  apply (TransposeTensor_compose (zi 0 0) [1; 2; 0] [1; 2; 0]
           {| ndim := 3; dim := Live [2; 1; 3];
              data := Live (re <$> [1; 2; 3; 4; 5; 6]) |} [2; 1; 3]
           (re <$> [1; 2; 3; 4; 5; 6])).
  - concrete_tensor.
  - simpl. lia.
  - concrete_perm.
  - concrete_perm.
Defined.

(** X20 on a tensor of shape (2,1,3), by the cyclic shift of the axes and its
    inverse *)
Lemma TransposeTensor_roundtrip_witness :
  ∃ r,
    TransposeTensor (zi 0 0) [1; 2; 0]
      {| ndim := 3; dim := Live [2; 1; 3];
         data := Live (re <$> [1; 2; 3; 4; 5; 6]) |} = Ok r
    ∧ TransposeTensor (zi 0 0) [2; 0; 1] r
      = Ok {| ndim := 3; dim := Live [2; 1; 3];
              data := Live (re <$> [1; 2; 3; 4; 5; 6]) |}.
Proof.
  apply (TransposeTensor_roundtrip (zi 0 0) [1; 2; 0] [2; 0; 1]
           {| ndim := 3; dim := Live [2; 1; 3];
              data := Live (re <$> [1; 2; 3; 4; 5; 6]) |} [2; 1; 3]
           (re <$> [1; 2; 3; 4; 5; 6])).
  - concrete_tensor.
  - simpl. lia.
  - concrete_perm.
  - split; [reflexivity|]. intros [|[|[|k]]] p Hk; simpl in Hk;
      try discriminate; injection Hk as <-; reflexivity.
Defined.


(** X22 on a 2x3 matrix *)
Lemma SubTensor_full_is_copy_witness :
  ∃ s,
    SubTensor (zi 0 0) (matrix 2 3 (re <$> [1; 2; 3; 4; 5; 6])) [2; 3]
      [[0; 1]; [0; 1; 2]] = Ok s
    ∧ CopyTensor (zi 0 0) (matrix 2 3 (re <$> [1; 2; 3; 4; 5; 6])) = Ok s
    ∧ is_tensor s [2; 3] (re <$> [1; 2; 3; 4; 5; 6]).
Proof.
  apply (SubTensor_full_is_copy (zi 0 0)
           (matrix 2 3 (re <$> [1; 2; 3; 4; 5; 6])) [2; 3]
           (re <$> [1; 2; 3; 4; 5; 6])).
  - concrete_tensor.
  - reflexivity.
Defined.

(** X23 on the 2x2 identity, a 3x2 and a 2x3 matrix *)
Lemma MultiplyTensor_IdentityTensor_witness :
  ∃ e',
    IdentityTensor (zi 0 0) (zi 1 0) (matrix 2 2 (re <$> [7; 7; 7; 7]))
    = Ok e'
    ∧ MultiplyTensor (zi 0 0) (zi 1 0) zi_add zi_mul
        (matrix 3 2 (re <$> [1; 2; 3; 4; 5; 6])) e' 1
      = Ok (matrix 3 2 (re <$> [1; 2; 3; 4; 5; 6]))
    ∧ MultiplyTensor (zi 0 0) (zi 1 0) zi_add zi_mul e'
        (matrix 2 3 (re <$> [1; 2; 3; 4; 5; 6])) 1
      = Ok (matrix 2 3 (re <$> [1; 2; 3; 4; 5; 6])).
Proof.
  destruct (MultiplyTensor_IdentityTensor (zi 0 0) (zi 1 0) zi_add zi_mul
              zi_semiring (matrix 2 2 (re <$> [7; 7; 7; 7])) 2
              (re <$> [7; 7; 7; 7]))
    as (e' & Hrun & Hr & Hl).
  - concrete_tensor.
  - reflexivity.
  - vm_compute. discriminate.
  - exists e'. split; [exact Hrun|]. split.
    + apply (Hr _ [3] (re <$> [1; 2; 3; 4; 5; 6])).
      * concrete_tensor.
      * unfold INT_MAX. simpl. lia.
      * vm_compute. discriminate.
    + apply (Hl _ [3] (re <$> [1; 2; 3; 4; 5; 6])).
      * concrete_tensor.
      * unfold INT_MAX. simpl. lia.
      * vm_compute. discriminate.
Defined.


(** X25 on a 2x2 matrix and the swap of its axes *)
Lemma TensorTrace_TransposeTensor_witness :
  ∃ t' xs',
    TransposeTensor (zi 0 0) [1; 0] (matrix 2 2 (re <$> [1; 2; 3; 4]))
    = Ok t'
    ∧ is_tensor t' [2; 2] xs'
    ∧ TensorTrace (zi 0 0) zi_add t'
      = TensorTrace (zi 0 0) zi_add (matrix 2 2 (re <$> [1; 2; 3; 4])).
Proof.
  apply (TensorTrace_TransposeTensor (zi 0 0) zi_add [1; 0]
           (matrix 2 2 (re <$> [1; 2; 3; 4])) 2 2 (re <$> [1; 2; 3; 4])).
  - lia.
  - concrete_tensor.
  - concrete_perm.
Defined.

(** ** Where the specification and the code part *)

(** C2: the data that the specification lists for the 2x3 example is not the
    data of the transposed tensor *)
Lemma TransposeTensor_example_data :
  TransposeTensor (zi 0 0) [1; 0] (matrix 2 3 (re <$> [1; 2; 3; 4; 5; 6]))
  = Ok (matrix 3 2 (re <$> [1; 3; 5; 2; 4; 6]))
  ∧ TransposeTensor (zi 0 0) [1; 0] (matrix 2 3 (re <$> [1; 2; 3; 4; 5; 6]))
    ≠ Ok (matrix 3 2 (re <$> [1; 4; 2; 5; 3; 6])).
Proof. split; [vm_compute; reflexivity|vm_compute; discriminate]. Qed.

(** C6: MoveTensorData leaves the rank of the source as it was *)
Lemma MoveTensorData_keeps_rank :
  ndim (MoveTensorData (vector [zi 1 0; zi 2 0])
          {| ndim := 0; dim := NULL; data := NULL |}).1 = 1
  ∧ ndim (MoveTensorData (vector [zi 1 0; zi 2 0])
            {| ndim := 0; dim := NULL; data := NULL |}).1 ≠ 0.
Proof. split; [reflexivity|discriminate]. Qed.

(** a vector of 2^31 entries, more than INT_MAX, is a conforming tensor *)
Lemma is_tensor_big (x : Zi) :
  is_tensor {| ndim := 1; dim := Live [2 ^ 31];
               data := Live (replicate (Z.to_nat (2 ^ 31)) x) |}
    [2 ^ 31] (replicate (Z.to_nat (2 ^ 31)) x).
Proof.
  constructor.
  - reflexivity.
  - unfold INT_MAX. change (Z.of_nat (length [2 ^ 31])) with 1. lia.
  - intros _. reflexivity.
  - reflexivity.
  - constructor; [lia|constructor].
  - rewrite length_replicate, Z2Nat.id by lia. reflexivity.
  - unfold SIZE_WIDTH. change (prodZ [2 ^ 31]) with (2 ^ 31 * 1). lia.
Qed.

(** C8: two conforming vectors of 2^31 entries, more than INT_MAX.
    ScalarMultiplyAddTensor does not abort: it hands the count to the kernel
    as (int)2^31 = -2^31 and returns with t unchanged, where t + 1 s was
    asked for. *)
Lemma ScalarMultiplyAddTensor_no_size_check :
  is_tensor {| ndim := 1; dim := Live [2 ^ 31]; data := Live big_ones |}
    [2 ^ 31] big_ones
  ∧ is_tensor {| ndim := 1; dim := Live [2 ^ 31]; data := Live big_zeros |}
      [2 ^ 31] big_zeros
  ∧ INT_MAX < prodZ [2 ^ 31]
  ∧ to_int (prodZ [2 ^ 31]) = - 2 ^ 31
  ∧ ScalarMultiplyAddTensor (zi 0 0) zi_add zi_mul (zi 1 0)
      {| ndim := 1; dim := Live [2 ^ 31]; data := Live big_ones |}
      {| ndim := 1; dim := Live [2 ^ 31]; data := Live big_zeros |}
    = Ok {| ndim := 1; dim := Live [2 ^ 31]; data := Live big_zeros |}
  ∧ ScalarMultiplyAddTensor (zi 0 0) zi_add zi_mul (zi 1 0)
      {| ndim := 1; dim := Live [2 ^ 31]; data := Live big_ones |}
      {| ndim := 1; dim := Live [2 ^ 31]; data := Live big_zeros |}
    ≠ Abort.
Proof.
  split; [apply is_tensor_big|]. split; [apply is_tensor_big|].
  split; [reflexivity|]. split; [reflexivity|].
  rewrite ScalarMultiplyAddTensor_2p31.
  split; [reflexivity|discriminate].
Qed.

(** the sum of [n] ones *)
Lemma csum_ones (n : Z) (f : Z → Zi) :
  0 ≤ n → (∀ k, 0 ≤ k < n → f k = zi 1 0) →
  csum (zi 0 0) zi_add n f = zi n 0.
Proof.
  intros Hn. revert f. pattern n. apply natlike_ind; [| |done].
  - intros f _. reflexivity.
  - intros k Hk IH f Hf. rewrite <- Z.add_1_r.
    rewrite csum_succ by done.
    rewrite (IH f) by (intros j Hj; apply Hf; lia).
    rewrite Hf by lia. unfold zi_add, zi. simpl. f_equal; lia.
Qed.

Lemma at_big_ones (k : Z) :
  0 ≤ k < 2 ^ 31 → at_ (zi 0 0) big_ones k = zi 1 0.
Proof.
  intros Hk. unfold at_, big_ones.
  rewrite lookup_replicate_2 by lia. reflexivity.
Qed.

Lemma csum_big_ones :
  csum (zi 0 0) zi_add (prodZ [2 ^ 31])
    (fun b => zi_mul (at_ (zi 0 0) big_ones b) (at_ (zi 0 0) big_ones b))
  = zi (2 ^ 31) 0.
Proof.
  replace (prodZ [2 ^ 31]) with (2 ^ 31) by reflexivity.
  apply csum_ones; [lia|].
  intros k Hk. rewrite !at_big_ones by lia. reflexivity.
Qed.

(** C1: two conforming vectors of 2^31 entries 1, more than INT_MAX,
    contracted over their one axis (p = q = m = 1).  The claimed result is the
    scalar R[] = sum over b of S[b] * T[b] = 2^31; MultiplyTensor hands the
    count to the dot kernel as (int)2^31 = -2^31 and returns the scalar 0. *)
Lemma MultiplyTensor_count_truncated :
  is_tensor {| ndim := 1; dim := Live [2 ^ 31]; data := Live big_ones |}
    [2 ^ 31] big_ones
  ∧ INT_MAX < prodZ [2 ^ 31]
  ∧ MultiplyTensor (zi 0 0) (zi 1 0) zi_add zi_mul
      {| ndim := 1; dim := Live [2 ^ 31]; data := Live big_ones |}
      {| ndim := 1; dim := Live [2 ^ 31]; data := Live big_ones |} 1
    = Ok (scalar (zi 0 0))
  ∧ csum (zi 0 0) zi_add (prodZ [2 ^ 31])
      (fun b => zi_mul (at_ (zi 0 0) big_ones b) (at_ (zi 0 0) big_ones b))
    = zi (2 ^ 31) 0
  ∧ zi (2 ^ 31) 0 ≠ zi 0 0.
Proof.
  split; [apply is_tensor_big|]. split; [reflexivity|].
  split; [apply MultiplyTensor_2p31|]. split; [apply csum_big_ones|].
  unfold zi. discriminate.
Qed.

(** C4: a 1x2 matrix S and a 2x1 matrix T contracted over one axis have
    LDS = TDT = 1, and MultiplyTensor returns the 1x1 matrix holding 11 + i, a
    tensor of rank 2 and not of rank 0.  And for two vectors of 2^31 entries
    1, all axes contracted, the rank-0 result holds 0 and not the sum 2^31 of
    the products. *)
Lemma MultiplyTensor_unit_axes_rank :
  is_tensor (matrix 1 2 [zi 1 1; zi 2 0]) [1; 2] [zi 1 1; zi 2 0]
  ∧ is_tensor (matrix 2 1 [zi 3 0; zi 4 (-1)]) [2; 1] [zi 3 0; zi 4 (-1)]
  ∧ prodZ [1] = 1
  ∧ MultiplyTensor (zi 0 0) (zi 1 0) zi_add zi_mul
      (matrix 1 2 [zi 1 1; zi 2 0]) (matrix 2 1 [zi 3 0; zi 4 (-1)]) 1
    = Ok (matrix 1 1 [zi 11 1])
  ∧ ndim (matrix 1 1 [zi 11 1]) = 2
  ∧ MultiplyTensor (zi 0 0) (zi 1 0) zi_add zi_mul
      (matrix 1 2 [zi 1 1; zi 2 0]) (matrix 2 1 [zi 3 0; zi 4 (-1)]) 1
    ≠ Ok (scalar (zi 11 1))
  ∧ is_tensor {| ndim := 1; dim := Live [2 ^ 31]; data := Live big_ones |}
      [2 ^ 31] big_ones
  ∧ MultiplyTensor (zi 0 0) (zi 1 0) zi_add zi_mul
      {| ndim := 1; dim := Live [2 ^ 31]; data := Live big_ones |}
      {| ndim := 1; dim := Live [2 ^ 31]; data := Live big_ones |} 1
    = Ok (scalar (zi 0 0))
  ∧ csum (zi 0 0) zi_add (prodZ [2 ^ 31])
      (fun k => zi_mul (at_ (zi 0 0) big_ones k) (at_ (zi 0 0) big_ones k))
    ≠ zi 0 0.
Proof.
  split; [concrete_tensor|]. split; [concrete_tensor|].
  split; [reflexivity|]. split; [vm_compute; reflexivity|].
  split; [reflexivity|]. split; [vm_compute; discriminate|].
  split; [apply is_tensor_big|]. split; [apply MultiplyTensor_2p31|].
  rewrite csum_big_ones. unfold zi. discriminate.
Qed.
